(** * Interview session lifecycle: a shallow embedding of
      [InterviewSessionService] and its properties.

    The service keeps live sessions in an in-memory map and mirrors every
    mutation, best effort, to a durable store.  The Java methods are embedded
    as computations over a service state (the session map and the store) that
    either return a value or raise a [BusinessException]; the state reached so
    far survives a raise, as it does in Java.

    Two clients follow the service: the page [Interview.tsx] that drives it,
    embedded as transformers of the page's state, and the reader of
    server-sent events of the chat client, embedded as functions on strings
    of UTF-16 code units. *)

From stdpp Require Import base option list gmap strings.
From Stdlib Require Import ZArith Lia.

Local Open Scope Z_scope.

(** ** Data model *)

(** [InterviewSessionDTO.SessionStatus]. *)
Inductive SessionStatus : Set := CREATED | IN_PROGRESS | COMPLETED | EVALUATED.

#[global] Instance SessionStatus_eq_dec : EqDecision SessionStatus.
Proof. solve_decision. Defined.

(** Position of a status in the order CREATED < IN_PROGRESS < COMPLETED <
    EVALUATED. *)
Definition rank (st : SessionStatus) : Z :=
  match st with
  | CREATED => 0
  | IN_PROGRESS => 1
  | COMPLETED => 2
  | EVALUATED => 3
  end.

(** Modelled from the spec: the record [InterviewQuestionDTO] is imported by
    the service but declared elsewhere.  The fields are those of the spec's
    Question (position, category label, prompt text, optional reference
    answer, optional user answer); a Java [String] that may be [null] is an
    [option string]. *)
Record InterviewQuestionDTO : Set := mkQuestion {
  questionIndex : Z;
  question : string;
  category : string;
  referenceAnswer : option string;
  userAnswer : option string
}.

#[global] Instance InterviewQuestionDTO_eq_dec : EqDecision InterviewQuestionDTO.
Proof. solve_decision. Defined.

(** Modelled from the spec: [withAnswer] of the absent record returns a copy
    of the question whose [userAnswer] is replaced, every other field kept. *)
Definition withAnswer (q : InterviewQuestionDTO) (answer : option string)
  : InterviewQuestionDTO :=
  {| questionIndex := questionIndex q;
     question := question q;
     category := category q;
     referenceAnswer := referenceAnswer q;
     userAnswer := answer |}.

(** Modelled from the spec: [InterviewReportDTO] is declared elsewhere.  The
    spec's Report carries an overall score, free-text feedback and a detail
    per question that echoes the question and the answer given. *)
Record QuestionEvaluation : Set := mkDetail {
  qe_questionIndex : Z;
  qe_question : string;
  qe_category : string;
  qe_userAnswer : option string;
  qe_score : Z;
  qe_feedback : string
}.

Record InterviewReportDTO : Set := mkReport {
  rp_sessionId : string;
  rp_overallScore : Z;
  rp_overallFeedback : string;
  rp_questionDetails : list QuestionEvaluation
}.

(** The private class [InterviewSession]: [questions] is its own
    [ArrayList], [currentIndex] and [status] are the two mutable fields. *)
Record InterviewSession : Set := mkSession {
  sessionId : string;
  resumeText : string;
  resumeId : option Z;
  questions : list InterviewQuestionDTO;
  currentIndex : Z;
  status : SessionStatus
}.

Definition set_questions (qs : list InterviewQuestionDTO) (s : InterviewSession) :=
  mkSession (sessionId s) (resumeText s) (resumeId s) qs (currentIndex s) (status s).
Definition set_currentIndex (i : Z) (s : InterviewSession) :=
  mkSession (sessionId s) (resumeText s) (resumeId s) (questions s) i (status s).
Definition set_status (st : SessionStatus) (s : InterviewSession) :=
  mkSession (sessionId s) (resumeText s) (resumeId s) (questions s) (currentIndex s) st.

(** [questions.size()] as a Java [int]. *)
Definition size {A} (l : list A) : Z := Z.of_nat (length l).

(** [List.get(int)]: absent outside the list, where Java raises. *)
Definition get {A} (l : list A) (i : Z) : option A :=
  if decide (0 <= i) then l !! Z.to_nat i else None.

(** [List.set(int, E)] on an index already checked to be in range. *)
Definition set {A} (l : list A) (i : Z) (x : A) : list A :=
  <[Z.to_nat i := x]> l.

(** The answers of a session, by position. *)
Definition answers_of (s : InterviewSession) : list (option string) :=
  userAnswer <$> questions s.

(** Request and response records; each lives in a module of its name so that
    the accessors keep the names of the Java record components. *)
Module CreateInterviewRequest.
Record t : Set := mk {
  resumeText : string;
  questionCount : Z;
  resumeId : option Z
}.
End CreateInterviewRequest.

Module SubmitAnswerRequest.
Record t : Set := mk {
  sessionId : string;
  questionIndex : Z;
  answer : option string
}.
End SubmitAnswerRequest.

Module SubmitAnswerResponse.
Record t : Set := mk {
  hasNextQuestion : bool;
  nextQuestion : option InterviewQuestionDTO;
  currentIndex : Z;
  totalQuestions : Z
}.
End SubmitAnswerResponse.

Module InterviewSessionDTO.
Record t : Set := mk {
  sessionId : string;
  resumeText : string;
  totalQuestions : Z;
  currentQuestionIndex : Z;
  questions : list InterviewQuestionDTO;
  status : SessionStatus
}.
End InterviewSessionDTO.

Definition toDTO (session : InterviewSession) : InterviewSessionDTO.t :=
  InterviewSessionDTO.mk
    (sessionId session)
    (resumeText session)
    (size (questions session))
    (currentIndex session)
    (questions session)
    (status session).

(** ** The durable store *)

(** Modelled from the spec: [InterviewSessionEntity], [InterviewAnswerEntity]
    and [InterviewPersistenceService] are declared elsewhere; only their calls
    are in the service.  The store below follows the contract of the spec's
    PersistenceGateway: a metadata row per session (questions serialised,
    progress index, status, report), an answer row per session and index, and
    the lookups by session identifier and by subject.  Serialisation of the
    question list is taken to be lossless, so the stored JSON is the list.
    A lookup in this store always answers; what can go wrong with the store
    is a write that raises, see [try_writes] below.  The [catch] branches
    around the lookups in the service are therefore not taken here; they
    are in [Recovery] below, where a lookup may raise. *)
Module InterviewSessionEntity.
Inductive SessionStatus : Set := CREATED | IN_PROGRESS | COMPLETED | EVALUATED.

#[global] Instance EntityStatus_eq_dec : EqDecision SessionStatus.
Proof. solve_decision. Defined.

Record t : Set := mk {
  sessionId : string;
  resumeId : Z;
  totalQuestions : Z;
  questionsJson : list InterviewQuestionDTO;
  currentQuestionIndex : Z;
  status : SessionStatus;
  report : option InterviewReportDTO
}.

Definition unfinished (e : t) : bool :=
  match status e with
  | CREATED | IN_PROGRESS => true
  | COMPLETED | EVALUATED => false
  end.
End InterviewSessionEntity.

Module InterviewAnswerEntity.
Record t : Set := mk {
  sessionId : string;
  questionIndex : Z;
  question : string;
  category : string;
  userAnswer : option string;
  score : Z;
  feedback : option string
}.
End InterviewAnswerEntity.

Module InterviewPersistenceService.
Import InterviewSessionEntity.

(** Session rows, most recent first; answer rows in insertion order; the
    resume texts the session rows link to. *)
Record Store : Type := mkStore {
  sessionRows : list InterviewSessionEntity.t;
  answerRows : list InterviewAnswerEntity.t;
  resumes : gmap Z string
}.

Definition empty : Store := mkStore [] [] ∅.

(** A new session row starts at index 0 in status CREATED. *)
Definition saveSession (sid : string) (rid : Z) (count : Z)
    (qs : list InterviewQuestionDTO) (db : Store) : Store :=
  mkStore
    (InterviewSessionEntity.mk sid rid count qs 0 CREATED None :: sessionRows db)
    (answerRows db) (resumes db).

(** The most recent session of the subject whose status is CREATED or
    IN_PROGRESS. *)
Definition findUnfinishedSession (rid : Z) (db : Store)
  : option InterviewSessionEntity.t :=
  list_find (λ e, resumeId e = rid ∧ unfinished e = true) (sessionRows db)
    ≫= λ p, Some p.2.

Definition findBySessionId (sid : string) (db : Store)
  : option InterviewSessionEntity.t :=
  list_find (λ e, sessionId e = sid) (sessionRows db) ≫= λ p, Some p.2.

Definition findAnswersBySessionId (sid : string) (db : Store)
  : list InterviewAnswerEntity.t :=
  filter (λ a, InterviewAnswerEntity.sessionId a = sid) (answerRows db).

Definition same_slot (sid : string) (index : Z) (a : InterviewAnswerEntity.t)
  : bool :=
  bool_decide (InterviewAnswerEntity.sessionId a = sid
               ∧ InterviewAnswerEntity.questionIndex a = index).

(** One answer row per session and index: a second save at the same index
    replaces the row, it does not add one. *)
Fixpoint upsert (row : InterviewAnswerEntity.t)
    (rows : list InterviewAnswerEntity.t) : list InterviewAnswerEntity.t :=
  match rows with
  | [] => [row]
  | a :: rows' =>
      if same_slot (InterviewAnswerEntity.sessionId row)
           (InterviewAnswerEntity.questionIndex row) a
      then row :: rows'
      else a :: upsert row rows'
  end.

Definition saveAnswer (sid : string) (index : Z) (q c : string)
    (answer : option string) (score : Z) (feedback : option string)
    (db : Store) : Store :=
  mkStore (sessionRows db)
    (upsert (InterviewAnswerEntity.mk sid index q c answer score feedback)
       (answerRows db))
    (resumes db).

Definition updateRow (sid : string)
    (f : InterviewSessionEntity.t → InterviewSessionEntity.t) (db : Store)
  : Store :=
  mkStore
    ((λ e, if decide (sessionId e = sid) then f e else e) <$> sessionRows db)
    (answerRows db) (resumes db).

Definition updateCurrentQuestionIndex (sid : string) (index : Z)
  : Store → Store :=
  updateRow sid (λ e,
    InterviewSessionEntity.mk (sessionId e) (resumeId e) (totalQuestions e)
      (questionsJson e) index (status e) (report e)).

Definition updateSessionStatus (sid : string)
    (st : InterviewSessionEntity.SessionStatus) : Store → Store :=
  updateRow sid (λ e,
    InterviewSessionEntity.mk (sessionId e) (resumeId e) (totalQuestions e)
      (questionsJson e) (currentQuestionIndex e) st (report e)).

Definition saveReport (sid : string) (r : InterviewReportDTO)
  : Store → Store :=
  updateRow sid (λ e,
    InterviewSessionEntity.mk (sessionId e) (resumeId e) (totalQuestions e)
      (questionsJson e) (currentQuestionIndex e) (status e) (Some r)).

(** [entity.getResume().getResumeText()]. *)
Definition resumeTextOf (e : InterviewSessionEntity.t) (db : Store) : string :=
  default ""%string (resumes db !! resumeId e).
End InterviewPersistenceService.

Abbreviation Store := InterviewPersistenceService.Store.

(** ** The service state and its computations *)

(** [ErrorCode] of the [BusinessException]s the service raises itself, the
    failures that reach the caller from a collaborator or from an unchecked
    list access, and the exception of a store lookup that raises. *)
Inductive ErrorCode : Set :=
  | INTERVIEW_SESSION_NOT_FOUND
  | INTERVIEW_QUESTION_NOT_FOUND
  | INTERVIEW_ALREADY_COMPLETED
  | INTERVIEW_NOT_COMPLETED
  | GENERATION_FAILED
  | EVALUATION_FAILED
  | INDEX_OUT_OF_BOUNDS
  | STORE_FAILURE.

#[global] Instance ErrorCode_eq_dec : EqDecision ErrorCode.
Proof. solve_decision. Defined.

(** The two fields of the service that change: the session map and the
    store behind [persistenceService]. *)
Record Service : Type := mkService {
  sessions : gmap string InterviewSession;
  persistenceService : Store
}.

(** A method body: from a service state to an outcome and the state left
    behind.  An exception does not undo what was done before it. *)
Definition Svc (A : Type) : Type := Service → (ErrorCode + A) * Service.

Definition ret {A} (a : A) : Svc A := λ sv, (inr a, sv).
Definition throw {A} (e : ErrorCode) : Svc A := λ sv, (inl e, sv).
Definition bind {A B} (m : Svc A) (k : A → Svc B) : Svc B :=
  λ sv, match m sv with
        | (inl e, sv') => (inl e, sv')
        | (inr a, sv') => k a sv'
        end.

Notation "'let*' x := m 'in' k" := (bind m (λ x, k))
  (at level 10, x name, m at level 200, k at level 200, only parsing).

(** [sessions.get(id)], [sessions.put(id, s)] and a read of the store.
    [assign id s] is an assignment to a field of the session object held
    under [id]: the map entry is that object, so the entry changes with it. *)
Definition sessions_get (id : string) : Svc (option InterviewSession) :=
  λ sv, (inr (sessions sv !! id), sv).
Definition sessions_put (id : string) (s : InterviewSession) : Svc unit :=
  λ sv, (inr tt, mkService (<[id := s]> (sessions sv)) (persistenceService sv)).
Definition assign (id : string) (s : InterviewSession) : Svc InterviewSession :=
  λ sv, (inr s, mkService (<[id := s]> (sessions sv)) (persistenceService sv)).
Definition list_get {A} (l : list A) (i : Z) : Svc A :=
  match get l i with
  | Some x => ret x
  | None => throw INDEX_OUT_OF_BOUNDS
  end.
Definition query {A} (f : Store → A) : Svc A :=
  λ sv, (inr (f (persistenceService sv)), sv).

(** Health of the store during one call: every write goes through, or the
    write number [n] of the call (from 0) raises. *)
Inductive Gateway : Set := Healthy | FailsAt (n : nat).

(** A [try { w1; w2; ... } catch (Exception e) { log.warn(...) }] block of
    store writes: the writes before the failing one are done, the rest are
    skipped, and nothing reaches the caller. *)
Fixpoint try_writes (g : Gateway) (ws : list (Store → Store)) (db : Store)
  : Store :=
  match ws with
  | [] => db
  | w :: ws' =>
      match g with
      | Healthy => try_writes Healthy ws' (w db)
      | FailsAt O => db
      | FailsAt (S n) => try_writes (FailsAt n) ws' (w db)
      end
  end.

(** The guard [if (session.resumeId != null)] around each such block. *)
Definition persist (g : Gateway) (resumeId : option Z)
    (ws : Z → list (Store → Store)) : Svc unit :=
  λ sv, match resumeId with
        | None => (inr tt, sv)
        | Some rid =>
            (inr tt, mkService (sessions sv)
                       (try_writes g (ws rid) (persistenceService sv)))
        end.

(** The external collaborators, injected through the constructor.  Either
    may fail. *)
Class InterviewQuestionService : Type :=
  generateQuestions : string → Z → option (list InterviewQuestionDTO).

Class AnswerEvaluationService : Type :=
  evaluateInterview :
    string → string → list InterviewQuestionDTO → option InterviewReportDTO.

Definition convertStatus (st : InterviewSessionEntity.SessionStatus)
  : SessionStatus :=
  match st with
  | InterviewSessionEntity.CREATED => CREATED
  | InterviewSessionEntity.IN_PROGRESS => IN_PROGRESS
  | InterviewSessionEntity.COMPLETED => COMPLETED
  | InterviewSessionEntity.EVALUATED => EVALUATED
  end.

(** One turn of the loop of [restoreSessionFromEntity] over the answer
    rows. *)
Definition applyAnswer (questions : list InterviewQuestionDTO)
    (answer : InterviewAnswerEntity.t) : list InterviewQuestionDTO :=
  let index := InterviewAnswerEntity.questionIndex answer in
  if decide (index >= 0 ∧ index < size questions) then
    match get questions index with
    | Some question =>
        set questions index
          (withAnswer question (InterviewAnswerEntity.userAnswer answer))
    | None => questions
    end
  else questions.

Definition restoreSessionFromEntity (entity : InterviewSessionEntity.t)
    (db : Store) : option InterviewSession :=
  let questions := InterviewSessionEntity.questionsJson entity in
  let answers :=
    InterviewPersistenceService.findAnswersBySessionId
      (InterviewSessionEntity.sessionId entity) db in
  let questions := foldl applyAnswer questions answers in
  Some (mkSession
          (InterviewSessionEntity.sessionId entity)
          (InterviewPersistenceService.resumeTextOf entity db)
          (Some (InterviewSessionEntity.resumeId entity))
          questions
          (InterviewSessionEntity.currentQuestionIndex entity)
          (convertStatus (InterviewSessionEntity.status entity))).

Definition restoreSessionFromDatabase (sessionId : string) (db : Store)
  : option InterviewSession :=
  match InterviewPersistenceService.findBySessionId sessionId db with
  | None => None
  | Some entity => restoreSessionFromEntity entity db
  end.

Definition getOrRestoreSession (sessionId : string) : Svc InterviewSession :=
  let* cached := sessions_get sessionId in
  match cached with
  | Some session => ret session
  | None =>
      let* restored := query (restoreSessionFromDatabase sessionId) in
      match restored with
      | None => throw INTERVIEW_SESSION_NOT_FOUND
      | Some session => let* _ := sessions_put sessionId session in ret session
      end
  end.

Definition findUnfinishedSession (resumeId : Z)
  : Svc (option InterviewSessionDTO.t) :=
  let* entityOpt := query (InterviewPersistenceService.findUnfinishedSession resumeId) in
  match entityOpt with
  | None => ret None
  | Some entity =>
      let* cached := sessions_get (InterviewSessionEntity.sessionId entity) in
      match cached with
      | Some session => ret (Some (toDTO session))
      | None =>
          let* restored := query (restoreSessionFromEntity entity) in
          match restored with
          | Some restoredSession =>
              let* _ := sessions_put (InterviewSessionEntity.sessionId entity)
                     restoredSession in
              ret (Some (toDTO restoredSession))
          | None => ret None
          end
      end
  end.

Section Operations.
Context {questionService : InterviewQuestionService}.
Context {evaluationService : AnswerEvaluationService}.

(** [uuid] is the identifier drawn from [UUID.randomUUID()]. *)
Definition createSession (uuid : string) (g : Gateway)
    (request : CreateInterviewRequest.t) : Svc InterviewSessionDTO.t :=
  let* unfinishedOpt :=
    match CreateInterviewRequest.resumeId request with
    | Some rid => findUnfinishedSession rid
    | None => ret None
    end in
  match unfinishedOpt with
  | Some unfinished => ret unfinished
  | None =>
      let sessionId := uuid in
      match generateQuestions (CreateInterviewRequest.resumeText request)
              (CreateInterviewRequest.questionCount request) with
      | None => throw GENERATION_FAILED
      | Some questions =>
          let session :=
            mkSession sessionId
              (CreateInterviewRequest.resumeText request)
              (CreateInterviewRequest.resumeId request)
              questions 0 CREATED in
          let* _ := sessions_put sessionId session in
          let* _ := persist g (CreateInterviewRequest.resumeId request)
                      (λ rid, [InterviewPersistenceService.saveSession sessionId rid
                                 (CreateInterviewRequest.questionCount request)
                                 questions]) in
          ret (toDTO session)
      end
  end.

Definition getSession (sessionId : string) : Svc InterviewSessionDTO.t :=
  let* cached := sessions_get sessionId in
  match cached with
  | Some session => ret (toDTO session)
  | None =>
      let* restored := query (restoreSessionFromDatabase sessionId) in
      match restored with
      | None => throw INTERVIEW_SESSION_NOT_FOUND
      | Some session => ret (toDTO session)
      end
  end.

Definition getCurrentQuestion (g : Gateway) (sessionId : string)
  : Svc (option InterviewQuestionDTO) :=
  let* session := getOrRestoreSession sessionId in
  if decide (currentIndex session >= size (questions session)) then ret None
  else
    let* session :=
      if decide (status session = CREATED) then
        let* session := assign sessionId (set_status IN_PROGRESS session) in
        let* _ := persist g (resumeId session)
                    (λ _, [InterviewPersistenceService.updateSessionStatus
                             sessionId InterviewSessionEntity.IN_PROGRESS]) in
        ret session
      else ret session in
    let* current := list_get (questions session) (currentIndex session) in
    ret (Some current).

Definition submitAnswer (g : Gateway) (request : SubmitAnswerRequest.t)
  : Svc SubmitAnswerResponse.t :=
  let sessionId := SubmitAnswerRequest.sessionId request in
  let* session := getOrRestoreSession sessionId in
  let index := SubmitAnswerRequest.questionIndex request in
  if decide (index < 0 ∨ index >= size (questions session)) then
    throw INTERVIEW_QUESTION_NOT_FOUND
  else
    let* q := list_get (questions session) index in
    let answeredQuestion :=
      withAnswer q (SubmitAnswerRequest.answer request) in
    let* session :=
      assign sessionId
        (set_questions (set (questions session) index answeredQuestion) session) in
    let* session := assign sessionId (set_currentIndex (index + 1) session) in
    let hasNextQuestion :=
      bool_decide (currentIndex session < size (questions session)) in
    let* nextQuestion :=
      if hasNextQuestion
      then let* next := list_get (questions session) (currentIndex session) in
           ret (Some next)
      else ret None in
    let* session :=
      if negb hasNextQuestion
      then assign sessionId (set_status COMPLETED session)
      else ret session in
    let* _ := persist g (resumeId session)
                (λ _, [InterviewPersistenceService.saveAnswer sessionId index
                         (question q) (category q)
                         (SubmitAnswerRequest.answer request) 0 None;
                       InterviewPersistenceService.updateCurrentQuestionIndex
                         sessionId (currentIndex session);
                       InterviewPersistenceService.updateSessionStatus sessionId
                         (if decide (status session = COMPLETED)
                          then InterviewSessionEntity.COMPLETED
                          else InterviewSessionEntity.IN_PROGRESS)]) in
    ret (SubmitAnswerResponse.mk hasNextQuestion nextQuestion
           (currentIndex session) (size (questions session))).

Definition saveAnswer (g : Gateway) (request : SubmitAnswerRequest.t)
  : Svc unit :=
  let sessionId := SubmitAnswerRequest.sessionId request in
  let* session := getOrRestoreSession sessionId in
  let index := SubmitAnswerRequest.questionIndex request in
  if decide (index < 0 ∨ index >= size (questions session)) then
    throw INTERVIEW_QUESTION_NOT_FOUND
  else
    let* q := list_get (questions session) index in
    let answeredQuestion :=
      withAnswer q (SubmitAnswerRequest.answer request) in
    let* session :=
      assign sessionId
        (set_questions (set (questions session) index answeredQuestion) session) in
    let* session :=
      if decide (status session = CREATED)
      then assign sessionId (set_status IN_PROGRESS session)
      else ret session in
    persist g (resumeId session)
      (λ _, [InterviewPersistenceService.saveAnswer sessionId index
               (question q) (category q)
               (SubmitAnswerRequest.answer request) 0 None;
             InterviewPersistenceService.updateSessionStatus sessionId
               InterviewSessionEntity.IN_PROGRESS]).

Definition completeInterview (g : Gateway) (sessionId : string) : Svc unit :=
  let* session := getOrRestoreSession sessionId in
  if decide (status session = COMPLETED ∨ status session = EVALUATED) then
    throw INTERVIEW_ALREADY_COMPLETED
  else
    let* session := assign sessionId (set_status COMPLETED session) in
    persist g (resumeId session)
      (λ _, [InterviewPersistenceService.updateSessionStatus sessionId
               InterviewSessionEntity.COMPLETED]).

Definition generateReport (g : Gateway) (sessionId : string)
  : Svc InterviewReportDTO :=
  let* session := getOrRestoreSession sessionId in
  if decide (status session ≠ COMPLETED ∧ status session ≠ EVALUATED) then
    throw INTERVIEW_NOT_COMPLETED
  else
    match evaluateInterview sessionId (resumeText session) (questions session) with
    | None => throw EVALUATION_FAILED
    | Some report =>
        let* session := assign sessionId (set_status EVALUATED session) in
        let* _ := persist g (resumeId session)
                    (λ _, [InterviewPersistenceService.saveReport sessionId report]) in
        ret report
    end.

End Operations.


(** ** Operations as data, and what they do to the session they resolve *)

(** The operations a caller can apply to a session once it exists. *)
Inductive Op : Set :=
  | GetCurrentQuestion
  | SubmitAnswer (index : Z) (answer : option string)
  | SaveAnswer (index : Z) (answer : option string)
  | CompleteEarly
  | GenerateReport.

Section Runs.
Context {evaluationService : AnswerEvaluationService}.

(** The state a call leaves behind, whether it returned or raised. *)
Definition exec (g : Gateway) (sid : string) (op : Op) (sv : Service) : Service :=
  match op with
  | GetCurrentQuestion => (getCurrentQuestion g sid sv).2
  | SubmitAnswer i a => (submitAnswer g (SubmitAnswerRequest.mk sid i a) sv).2
  | SaveAnswer i a => (saveAnswer g (SubmitAnswerRequest.mk sid i a) sv).2
  | CompleteEarly => (completeInterview g sid sv).2
  | GenerateReport => (generateReport g sid sv).2
  end.

(** A sequence of calls on one session, each with its own store health. *)
Fixpoint run (sid : string) (ops : list (Gateway * Op)) (sv : Service) : Service :=
  match ops with
  | [] => sv
  | (g, op) :: ops' => run sid ops' (exec g sid op sv)
  end.

End Runs.

Definition valid_index (i : Z) (s : InterviewSession) : Prop :=
  0 <= i < size (questions s).

#[global] Instance valid_index_dec i s : Decision (valid_index i s).
Proof. unfold valid_index. apply _. Defined.

(** The session after the three assignments of [submitAnswer] at a valid
    index, and after the two of [saveAnswer]. *)
Definition answered (i : Z) (a : option string) (s : InterviewSession)
  : InterviewSession :=
  match get (questions s) i with
  | Some q => set_questions (set (questions s) i (withAnswer q a)) s
  | None => s
  end.

Definition afterSubmit (i : Z) (a : option string) (s : InterviewSession)
  : InterviewSession :=
  let s1 := set_currentIndex (i + 1) (answered i a s) in
  if decide (i + 1 < size (questions s)) then s1 else set_status COMPLETED s1.

Definition started (s : InterviewSession) : InterviewSession :=
  if decide (status s = CREATED) then set_status IN_PROGRESS s else s.

Definition afterSave (i : Z) (a : option string) (s : InterviewSession)
  : InterviewSession :=
  started (answered i a s).

(** The store after a guarded block of writes. *)
Definition mirrored (g : Gateway) (resumeId : option Z)
    (ws : list (Store → Store)) (db : Store) : Store :=
  match resumeId with
  | None => db
  | Some _ => try_writes g ws db
  end.

Definition submitWrites (sid : string) (i : Z) (a : option string)
    (s : InterviewSession) : list (Store → Store) :=
  match get (questions s) i with
  | None => []
  | Some q =>
      [InterviewPersistenceService.saveAnswer sid i (question q) (category q) a 0 None;
       InterviewPersistenceService.updateCurrentQuestionIndex sid (i + 1);
       InterviewPersistenceService.updateSessionStatus sid
         (if decide (status (afterSubmit i a s) = COMPLETED)
          then InterviewSessionEntity.COMPLETED
          else InterviewSessionEntity.IN_PROGRESS)]
  end.

Definition saveWrites (sid : string) (i : Z) (a : option string)
    (s : InterviewSession) : list (Store → Store) :=
  match get (questions s) i with
  | None => []
  | Some q =>
      [InterviewPersistenceService.saveAnswer sid i (question q) (category q) a 0 None;
       InterviewPersistenceService.updateSessionStatus sid
         InterviewSessionEntity.IN_PROGRESS]
  end.


Section Effects.
Context {evaluationService : AnswerEvaluationService}.

(** The assignments an operation makes to the session it resolved, read off
    the method bodies: those before a raise are kept. *)
Definition effect (sid : string) (op : Op) (s : InterviewSession)
  : InterviewSession :=
  match op with
  | GetCurrentQuestion =>
      if decide (currentIndex s >= size (questions s)) then s else started s
  | SubmitAnswer i a => if decide (valid_index i s) then afterSubmit i a s else s
  | SaveAnswer i a => if decide (valid_index i s) then afterSave i a s else s
  | CompleteEarly =>
      if decide (status s = COMPLETED ∨ status s = EVALUATED) then s
      else set_status COMPLETED s
  | GenerateReport =>
      if decide (status s ≠ COMPLETED ∧ status s ≠ EVALUATED) then s
      else match evaluateInterview sid (resumeText s) (questions s) with
           | None => s
           | Some _ => set_status EVALUATED s
           end
  end.

End Effects.

(** The value a call returned, if it did not raise. *)
Definition returned {A} (r : ErrorCode + A) : option A :=
  match r with
  | inr a => Some a
  | inl _ => None
  end.

(** ** A concrete interview *)

Module Scenario.
Local Open Scope string_scope.

Definition pool : list InterviewQuestionDTO :=
  [ mkQuestion 0 "Describe the project you are proudest of." "PROJECT" None None;
    mkQuestion 1 "How does a HashMap resolve collisions?" "JAVA" (Some "buckets") None;
    mkQuestion 2 "What is a covering index?" "MYSQL" None None ].

(** A question generator that hands out the first [count] questions of the
    pool. *)
Definition generator : InterviewQuestionService :=
  λ _ count, Some (take (Z.to_nat count) pool).

(** Modelled from the spec: [AnswerEvaluationService] is an external
    collaborator.  Its report has a detail per question that echoes the
    question and the answer; a question without an answer scores zero, an
    answered one is given the score [grade] assigns. *)
Definition detailOf (grade : string → Z) (q : InterviewQuestionDTO)
  : QuestionEvaluation :=
  mkDetail (questionIndex q) (question q) (category q) (userAnswer q)
    (from_option grade 0 (userAnswer q)) "".

Definition evaluator : AnswerEvaluationService :=
  λ sid _ qs,
    let details := detailOf (λ _, 60) <$> qs in
    Some (mkReport sid (foldr Z.add 0 (qe_score <$> details)) "" details).

Definition resume : string := "Five years of backend work.".

Definition resumeOf (rid : Z) (count : Z) : CreateInterviewRequest.t :=
  CreateInterviewRequest.mk resume count (Some rid).

(** No session yet, in memory or in the store; the store knows the resume
    of subject 7. *)
Definition fresh : Service :=
  mkService ∅ (InterviewPersistenceService.mkStore [] [] {[7 := resume]}).

(** A session of [count] questions for subject 7, created on the empty
    service with a healthy store. *)
Definition created (count : Z) : Service :=
  (createSession (questionService := generator) "0f3a9c5e7b1d4a60" Healthy
     (resumeOf 7 count) fresh).2.

Definition sid : string := "0f3a9c5e7b1d4a60".

(** The session object that creation puts in the map. *)
Definition initial (count : Z) : InterviewSession :=
  mkSession sid resume (Some 7)
    (take (Z.to_nat count) pool) 0 CREATED.

(** Memory loss: the session map is emptied, the store stays. *)
Definition evicted (sv : Service) : Service :=
  mkService ∅ (persistenceService sv).

End Scenario.

(** The second half of [createSession], from the draw of the identifier
    on: what it does when no unfinished session was returned. *)
Definition createFresh `{InterviewQuestionService} (uuid : string) (g : Gateway)
    (request : CreateInterviewRequest.t) : Svc InterviewSessionDTO.t :=
  λ sv,
    match generateQuestions (CreateInterviewRequest.resumeText request)
            (CreateInterviewRequest.questionCount request) with
    | None => (inl GENERATION_FAILED, sv)
    | Some qs =>
        let session :=
          mkSession uuid (CreateInterviewRequest.resumeText request)
            (CreateInterviewRequest.resumeId request) qs 0 CREATED in
        (inr (toDTO session),
         mkService (<[uuid := session]> (sessions sv))
           (match CreateInterviewRequest.resumeId request with
            | None => persistenceService sv
            | Some rid =>
                try_writes g
                  [InterviewPersistenceService.saveSession uuid rid
                     (CreateInterviewRequest.questionCount request) qs]
                  (persistenceService sv)
            end))
    end.

(** ** The progress index is never negative *)

Definition rows_ok (db : Store) : Prop :=
  Forall (λ e, 0 <= InterviewSessionEntity.currentQuestionIndex e)
    (InterviewPersistenceService.sessionRows db).

(** Every session in memory and every session row of the store has a
    progress index of at least 0. *)
Definition index_ok (sv : Service) : Prop :=
  (∀ id s, sessions sv !! id = Some s → 0 <= currentIndex s)
  ∧ rows_ok (persistenceService sv).

(** ** The store as a mirror of the session in memory *)

Definition indexes (rows : list InterviewAnswerEntity.t) : list Z :=
  InterviewAnswerEntity.questionIndex <$> rows.

(** The store mirrors the questions and the progress of the session held
    under [sid]: the session is persisted, its row is found by identifier,
    the stored questions with the answer rows applied are the questions in
    memory, the stored index is [currentIndex], and there is one answer row
    per index.  The status is not part of it. *)
Definition store_mirrors (sid : string) (sv : Service) : Prop :=
  ∃ s e,
    sessions sv !! sid = Some s
    ∧ is_Some (resumeId s)
    ∧ InterviewPersistenceService.findBySessionId sid (persistenceService sv) = Some e
    ∧ foldl applyAnswer (InterviewSessionEntity.questionsJson e)
        (InterviewPersistenceService.findAnswersBySessionId sid (persistenceService sv))
      = questions s
    ∧ InterviewSessionEntity.currentQuestionIndex e = currentIndex s
    ∧ NoDup (indexes
               (InterviewPersistenceService.findAnswersBySessionId sid
                  (persistenceService sv))).

(** [N] submits in order, at indices [i], [i + 1], ..., each with a healthy
    store. *)
Fixpoint submitsFrom (i : Z) (answers : list (option string))
  : list (Gateway * Op) :=
  match answers with
  | [] => []
  | a :: rest => (Healthy, SubmitAnswer i a) :: submitsFrom (i + 1) rest
  end.

(** Status of the session row found under [sid], read as a session status. *)
Definition storedStatus (sid : string) (db : Store) : option SessionStatus :=
  (λ e, convertStatus (InterviewSessionEntity.status e))
    <$> InterviewPersistenceService.findBySessionId sid db.

(** ** Resuming across other calls *)

(** Every session in memory is held under its own identifier. *)
Definition cache_ok (sv : Service) : Prop :=
  ∀ id s, sessions sv !! id = Some s → sessionId s = id.

Definition unfinished (st : SessionStatus) : bool :=
  match st with
  | CREATED | IN_PROGRESS => true
  | COMPLETED | EVALUATED => false
  end.

Section Between.
Context {evaluationService : AnswerEvaluationService}.


End Between.


(** ** Reachable states *)

Section Reachable.
Context {questionService : InterviewQuestionService}.
Context {evaluationService : AnswerEvaluationService}.

(** The states of a process: it starts with no session in memory, on a
    store whose rows have a progress index of at least 0, and moves by the
    calls of the service, on any session identifier and with any health of
    the store. *)
Inductive reachable : Service → Prop :=
  | reachable_start db :
      rows_ok db → reachable (mkService ∅ db)
  | reachable_create uuid g request sv :
      reachable sv → reachable (createSession uuid g request sv).2
  | reachable_exec g sid op sv :
      reachable sv → reachable (exec g sid op sv).

End Reachable.

(** ** Recovery with lookups that raise *)

(** Health of the store's reads during one call: every read answers, or
    read number [n] of the call (from 0) raises.  Deserialising the stored
    question list counts as a read. *)
Inductive Lookups : Set := Answering | RaisesAt (n : nat).

(** The two methods that rebuild a session for a subject, with the reads
    that may raise and the [try]/[catch] blocks around them. *)
Module Recovery.

(** A read of the store, first of those the health [l] is about. *)
Definition read {A} (l : Lookups) (f : Store → A) : Svc A :=
  match l with
  | RaisesAt O => throw STORE_FAILURE
  | _ => query f
  end.

(** The health for the reads that follow one that answered. *)
Definition later (l : Lookups) : Lookups :=
  match l with
  | Answering => Answering
  | RaisesAt n => RaisesAt (pred n)
  end.

(** Some read among the first [n] of the call raises. *)
Definition raises_within (n : nat) (l : Lookups) : bool :=
  match l with
  | Answering => false
  | RaisesAt k => (k <? n)%nat
  end.

(** [try { body } catch (Exception e) { log.error(...); handler }]: any
    exception of the body is caught, and what the body did before it raised
    stays done. *)
Definition try_catch {A} (body handler : Svc A) : Svc A :=
  λ sv, match body sv with
        | (inl _, sv') => handler sv'
        | (inr a, sv') => (inr a, sv')
        end.

(** Three reads: the question list, the answer rows, the resume.  [None] is
    [null]. *)
Definition restoreSessionFromEntity (l : Lookups)
    (entity : InterviewSessionEntity.t) : Svc (option InterviewSession) :=
  try_catch
    (let* questions := read l (λ _, InterviewSessionEntity.questionsJson entity) in
     let* answers :=
       read (later l)
         (InterviewPersistenceService.findAnswersBySessionId
            (InterviewSessionEntity.sessionId entity)) in
     let questions := foldl applyAnswer questions answers in
     let* resumeText :=
       read (later (later l))
         (InterviewPersistenceService.resumeTextOf entity) in
     ret (Some (mkSession
                  (InterviewSessionEntity.sessionId entity)
                  resumeText
                  (Some (InterviewSessionEntity.resumeId entity))
                  questions
                  (InterviewSessionEntity.currentQuestionIndex entity)
                  (convertStatus (InterviewSessionEntity.status entity)))))
    (ret None).

(** One read of its own, then those of the rebuild.  Both the [catch] and
    the end of the [try] block lead to [return Optional.empty()]. *)
Definition findUnfinishedSession (l : Lookups) (resumeId : Z)
  : Svc (option InterviewSessionDTO.t) :=
  try_catch
    (let* entityOpt :=
       read l (InterviewPersistenceService.findUnfinishedSession resumeId) in
     match entityOpt with
     | None => ret None
     | Some entity =>
         let* cached := sessions_get (InterviewSessionEntity.sessionId entity) in
         match cached with
         | Some session => ret (Some (toDTO session))
         | None =>
             let* restored := restoreSessionFromEntity (later l) entity in
             match restored with
             | Some restoredSession =>
                 let* _ := sessions_put (InterviewSessionEntity.sessionId entity)
                        restoredSession in
                 ret (Some (toDTO restoredSession))
             | None => ret None
             end
         end
     end)
    (ret None).

End Recovery.


(** ** Collaborators that fail, and a session without a subject *)

Module Fixtures.
Local Open Scope string_scope.

(** A question generator and an evaluator that raise. *)
Definition failingGenerator : InterviewQuestionService := λ _ _, None.
Definition failingEvaluator : AnswerEvaluationService := λ _ _ _, None.

(** A request that names no resume: the session is not persisted. *)
Definition anonymous (count : Z) : CreateInterviewRequest.t :=
  CreateInterviewRequest.mk Scenario.resume count None.

Definition demo : string := "a1b2c3d4e5f60718".

Definition demoSession : InterviewSession :=
  mkSession demo Scenario.resume None Scenario.pool 0 CREATED.

(** The service after [createSession] for the anonymous request. *)
Definition withDemo : Service :=
  (createSession (questionService := Scenario.generator) demo Healthy
     (anonymous 3) Scenario.fresh).2.

(** The service after a [createSession] for subject 7 whose write raised,
    and the session a second [createSession] then makes. *)
Definition unsaved : Service :=
  (createSession (questionService := Scenario.generator) Scenario.sid (FailsAt 0)
     (Scenario.resumeOf 7 3) Scenario.fresh).2.

Definition otherId : string := "5d2e8b1f3c7a9e04".

Definition other : InterviewSession :=
  mkSession otherId Scenario.resume (Some 7) Scenario.pool 0 CREATED.

End Fixtures.

(** A question with its answer taken out: what no operation changes. *)
Definition unanswered (q : InterviewQuestionDTO) : InterviewQuestionDTO :=
  withAnswer q None.

(** ** The interview page *)

(** [Interview.tsx], the caller of the service through the HTTP API.  The
    page keeps its state in React state variables; a handler is modelled by
    the state it leaves once its [set...] calls have been applied.  The
    session the page receives is the DTO of the service. *)
Module Message.
Inductive MessageType : Set := interviewer | user.

#[global] Instance MessageType_eq_dec : EqDecision MessageType.
Proof. solve_decision. Defined.

Record t : Set := mk {
  type : MessageType;
  content : string;
  category : option string;
  questionIndex : option Z
}.
End Message.

Module Interview.

Inductive InterviewStage : Set := config | interview | loading_report | report.

(** The state variables the handlers below assign. *)
Record State : Set := mkState {
  stage : InterviewStage;
  session : option InterviewSessionDTO.t;
  currentQuestion : option InterviewQuestionDTO;
  messages : list Message.t;
  answer : string
}.

(** The state of the page when it is mounted. *)
Definition initialState : State := mkState config None None [] "".

(** JavaScript truthiness of a [string | null] value: neither [null] nor the
    empty string. *)
Definition truthy (s : option string) : bool :=
  match s with
  | Some s => negb (String.eqb s "")
  | None => false
  end.

(** One turn of the loop of [restoreSession]: the interviewer's message for
    the question at index [i], then the user's if the answer is truthy. *)
Definition turn (i : Z) (q : InterviewQuestionDTO) : list Message.t :=
  Message.mk Message.interviewer (question q) (Some (category q)) (Some i)
  :: match userAnswer q with
     | Some a =>
         if truthy (Some a) then [Message.mk Message.user a None None] else []
     | None => []
     end.

(** The loop [for (let i = 0; i <= currentQuestionIndex; i++)], run from
    index [i] over the questions it visits. *)
Fixpoint restoredMessages (i : Z) (visited : list InterviewQuestionDTO)
  : list Message.t :=
  match visited with
  | [] => []
  | q :: rest => turn i q ++ restoredMessages (i + 1) rest
  end.

Definition restoreSession (sessionToRestore : InterviewSessionDTO.t) (st : State)
  : State :=
  let index := InterviewSessionDTO.currentQuestionIndex sessionToRestore in
  let questions := InterviewSessionDTO.questions sessionToRestore in
  match get questions index with
  | Some currentQ =>
      mkState interview (Some sessionToRestore) (Some currentQ)
        (restoredMessages 0 (take (Z.to_nat (index + 1)) questions))
        (match userAnswer currentQ with
         | Some a => if truthy (Some a) then a else answer st
         | None => answer st
         end)
  | None =>
      mkState interview (Some sessionToRestore) (currentQuestion st)
        (messages st) (answer st)
  end.

(** The test [hasProgress] of [startInterview]. *)
Definition hasProgress (newSession : InterviewSessionDTO.t) : bool :=
  bool_decide (InterviewSessionDTO.currentQuestionIndex newSession > 0)
  || existsb (λ q, truthy (userAnswer q)) (InterviewSessionDTO.questions newSession)
  || bool_decide (InterviewSessionDTO.status newSession = IN_PROGRESS).

(** [startInterview] once [createSession] has answered with [newSession]. *)
Definition startInterview (newSession : InterviewSessionDTO.t) (st : State)
  : State :=
  if hasProgress newSession then restoreSession newSession st
  else
    match get (InterviewSessionDTO.questions newSession) 0 with
    | Some firstQuestion =>
        mkState interview (Some newSession) (Some firstQuestion)
          [Message.mk Message.interviewer (question firstQuestion)
             (Some (category firstQuestion)) (Some 0)]
          (answer st)
    | None =>
        mkState interview (Some newSession) (currentQuestion st) (messages st)
          (answer st)
    end.

(** The indices of the questions shown, and the answers shown, in order. *)
Definition shownQuestions (ms : list Message.t) : list (option Z) :=
  Message.questionIndex
    <$> filter (λ m, Message.type m = Message.interviewer) ms.

Definition shownAnswers (ms : list Message.t) : list string :=
  Message.content <$> filter (λ m, Message.type m = Message.user) ms.

End Interview.

(** The answer shown for a question: its answer when truthy. *)
Definition shown (q : InterviewQuestionDTO) : option string :=
  if Interview.truthy (userAnswer q) then userAnswer q else None.

(** ** The chat client: reading a stream of server-sent events *)

(** The string methods of JavaScript that the client uses.  A string is the
    list of its UTF-16 code units. *)
Module Js.
Abbreviation JsString := (list Z).

(** A literal of ASCII characters as a JavaScript string. *)
Definition js (s : string) : JsString :=
  (λ a, Z.of_N (Ascii.N_of_ascii a)) <$> String.list_ascii_of_string s.

(** The code units that [trim] strips: ECMAScript's WhiteSpace (TAB, VT, FF,
    SP, NBSP, ZWNBSP and the other space separators of Unicode) and
    LineTerminator (LF, CR, LS, PS).  All of them are in the basic plane. *)
Definition isWhiteSpace (c : Z) : bool :=
  bool_decide (c ∈ [9; 10; 11; 12; 13; 32; 160; 5760; 8232; 8233; 8239; 8287;
                    12288; 65279])
  || bool_decide (8192 <= c <= 8202).

Fixpoint trimStart (s : JsString) : JsString :=
  match s with
  | [] => []
  | c :: rest => if isWhiteSpace c then trimStart rest else s
  end.

Definition trimEnd (s : JsString) : JsString :=
  reverse (trimStart (reverse s)).

(** [s.trim()]. *)
Definition trim (s : JsString) : JsString := trimEnd (trimStart s).

(** [s.startsWith(p)]. *)
Definition startsWith (p s : JsString) : bool :=
  bool_decide (take (length p) s = p).

(** [s.substring(n)] and [s.substring(0, n)], for [n] within the string or
    past its end. *)
Definition substringFrom (n : nat) (s : JsString) : JsString := drop n s.
Definition substringTo (n : nat) (s : JsString) : JsString := take n s.

(** [s.split(sep)] for a separator of one code unit: the pieces between the
    separators, so one piece more than there are separators. *)
Fixpoint split (sep : Z) (s : JsString) : list JsString :=
  match s with
  | [] => [[]]
  | c :: rest =>
      if decide (c = sep) then [] :: split sep rest
      else match split sep rest with
           | piece :: pieces => (c :: piece) :: pieces
           | [] => [[c]]
           end
  end.

(** [pieces.join(sep)]. *)
Fixpoint join (sep : JsString) (pieces : list JsString) : JsString :=
  match pieces with
  | [] => []
  | [piece] => piece
  | piece :: rest => piece ++ sep ++ join sep rest
  end.

(** [s.indexOf(p)] for a non-empty [p]; [None] is the result -1. *)
Fixpoint indexOf (p s : JsString) : option nat :=
  if startsWith p s then Some 0%nat
  else match s with
       | [] => None
       | _ :: rest => S <$> indexOf p rest
       end.

(** A string where a condition is expected: the empty string counts as
    false; so does [null]. *)
Definition truthy (s : option JsString) : bool :=
  match s with
  | Some (_ :: _) => true
  | _ => false
  end.
End Js.

Module RagChat.
Import Js.

Definition LF : Z := 10.

(** What a line of an event contributes: the line trimmed, without a leading
    [data:], trimmed again; nothing when that is empty or starts with
    [event:] or [id:]. *)
Definition contentOf (line : JsString) : option JsString :=
  let content := trim line in
  let content :=
    if startsWith (js "data:") content then trim (substringFrom 5 content)
    else content in
  if truthy (Some content)
     && negb (startsWith (js "event:") content)
     && negb (startsWith (js "id:") content)
  then Some content else None.

(** [extractEventContent], the closure of [sendMessageStream]; [None] is
    [null]. *)
Definition extractEventContent (event : JsString) : option JsString :=
  if negb (truthy (Some (trim event))) then None
  else
    let lines := split LF event in
    let contentLines := omap contentOf lines in
    let result := join [LF] contentLines in
    if truthy (Some result) then Some result else None.

(** The calls the reading loop makes to its three callbacks. *)
Inductive Callback : Type :=
  | onMessage (chunk : JsString)
  | onComplete
  | onError.

(** The loop's variable [buffer] and the calls made so far, oldest first. *)
Record Reader : Type := mkReader {
  buffer : JsString;
  calls : list Callback
}.

Definition emit (content : option JsString) (calls : list Callback)
  : list Callback :=
  match content with
  | Some c => calls ++ [onMessage c]
  | None => calls
  end.

(** One turn of the loop on a read that brought the text [value] (the chunk
    as the streaming decoder gives it).  At most one event leaves the
    buffer: the block before the first blank line or, when there is no blank
    line, a first line that starts with [data:]. *)
Definition onValue (r : Reader) (value : JsString) : Reader :=
  let buffer := buffer r ++ value in
  match indexOf [LF; LF] buffer with
  | None =>
      match indexOf [LF] buffer with
      | Some singleLineIndex =>
          if startsWith (js "data:") (substringTo singleLineIndex buffer) then
            let line := substringTo singleLineIndex buffer in
            let content := extractEventContent line in
            mkReader (substringFrom (singleLineIndex + 1) buffer)
              (if truthy content then emit content (calls r) else calls r)
          else mkReader buffer (calls r)
      | None => mkReader buffer (calls r)
      end
  | Some newlineIndex =>
      let eventBlock := substringTo newlineIndex buffer in
      mkReader (substringFrom (newlineIndex + 2) buffer)
        (emit (extractEventContent eventBlock) (calls r))
  end.

(** The turn on which the read reports the end of the stream: what is left
    in the buffer is taken as one event. *)
Definition onDone (r : Reader) : list Callback :=
  (if truthy (Some (buffer r)) then
     let content := extractEventContent (buffer r) in
     if truthy content then emit content (calls r) else calls r
   else calls r) ++ [onComplete].

(** How the stream ends: the read reports [done], or it is rejected. *)
Inductive Ending : Type := done | rejected.

(** The [while (true)] loop of [sendMessageStream] on a body that gives the
    texts [values] and then ends: the calls made to the callbacks.  A
    rejected read reaches the [catch], which calls [onError]. *)
Definition readLoop (values : list JsString) (ending : Ending)
  : list Callback :=
  let r := foldl onValue (mkReader [] []) values in
  match ending with
  | done => onDone r
  | rejected => calls r ++ [onError]
  end.

(** A payload that a [data:] line can carry as it is: not empty, nothing
    for [trim] to strip at its ends, on one line, and not itself starting
    with [event:] or [id:]. *)
Definition plain (payload : JsString) : bool :=
  truthy (Some payload)
  && bool_decide (trim payload = payload)
  && bool_decide (LF ∉ payload)
  && negb (startsWith (js "event:") payload)
  && negb (startsWith (js "id:") payload).

(** Text that [trim] strips entirely and that stays on the line. *)
Definition padding (w : JsString) : bool :=
  forallb isWhiteSpace w && bool_decide (LF ∉ w).

(** The texts passed to [onMessage], in order. *)
Definition messages (cs : list Callback) : list JsString :=
  omap (λ c, match c with onMessage m => Some m | _ => None end) cs.
End RagChat.

(** ** Lists indexed by a Java [int] *)

Lemma get_is_Some {A} (l : list A) (i : Z) :
  is_Some (get l i) ↔ 0 <= i < size l.
Proof.
  unfold get, size. case_decide.
  - rewrite lookup_lt_is_Some. lia.
  - split; [intros [? ?]; done | lia].
Qed.

Lemma get_None {A} (l : list A) (i : Z) :
  get l i = None ↔ ¬ (0 <= i < size l).
Proof. rewrite <- get_is_Some, eq_None_not_Some. done. Qed.

Lemma get_set_eq {A} (l : list A) (i : Z) (x : A) :
  0 <= i < size l → get (set l i x) i = Some x.
Proof.
  unfold get, set, size. intros ?. rewrite decide_True by lia.
  apply list_lookup_insert_eq. lia.
Qed.

Lemma get_set_ne {A} (l : list A) (i j : Z) (x : A) :
  0 <= i → j ≠ i → get (set l i x) j = get l j.
Proof.
  unfold get, set. intros ? ?. case_decide; [|done].
  apply list_lookup_insert_ne. lia.
Qed.

Lemma size_set {A} (l : list A) (i : Z) (x : A) : size (set l i x) = size l.
Proof. unfold size, set. by rewrite length_insert. Qed.

Lemma get_fmap {A B} (f : A → B) (l : list A) (i : Z) :
  get (f <$> l) i = f <$> get l i.
Proof. unfold get. case_decide; [apply list_lookup_fmap | done]. Qed.

(** ** Resolving a session *)

(** A session resolved by [getOrRestoreSession] is the map's entry
    afterwards; the store and the other entries are as before, and resolving
    again changes nothing. *)
Lemma getOrRestoreSession_ok sid sv s sv0 :
  getOrRestoreSession sid sv = (inr s, sv0) →
  sessions sv0 !! sid = Some s
  ∧ persistenceService sv0 = persistenceService sv
  ∧ (∀ k, k ≠ sid → sessions sv0 !! k = sessions sv !! k)
  ∧ getOrRestoreSession sid sv0 = (inr s, sv0).
Proof.
  unfold getOrRestoreSession, bind, sessions_get, query, sessions_put, ret, throw.
  destruct (sessions sv !! sid) as [c|] eqn:Hc.
  - intros [= <- <-]. rewrite Hc. done.
  - destruct (restoreSessionFromDatabase sid (persistenceService sv)) as [r|] eqn:Hr;
      [|discriminate].
    intros [= <- <-]. simpl. rewrite lookup_insert_eq.
    split_and!; try done. intros k ?. by rewrite lookup_insert_ne.
Qed.

Lemma getOrRestoreSession_cached sid sv s :
  sessions sv !! sid = Some s → getOrRestoreSession sid sv = (inr s, sv).
Proof.
  intros H. unfold getOrRestoreSession, bind, sessions_get, ret. by rewrite H.
Qed.

(** A failed resolution raises [INTERVIEW_SESSION_NOT_FOUND] and leaves the
    state alone. *)
Lemma getOrRestoreSession_fail sid sv e sv0 :
  getOrRestoreSession sid sv = (inl e, sv0) →
  e = INTERVIEW_SESSION_NOT_FOUND ∧ sv0 = sv.
Proof.
  unfold getOrRestoreSession, bind, sessions_get, query, sessions_put, ret, throw.
  destruct (sessions sv !! sid); [discriminate|].
  destruct (restoreSessionFromDatabase sid (persistenceService sv)); [discriminate|].
  by intros [= <- <-].
Qed.

(** ** Each operation, run on a resolved session *)

Arguments try_writes : simpl never.

Ltac svc :=
  unfold bind, ret, throw, assign, persist, list_get, sessions_get,
    sessions_put, query in *; simpl in *.

Lemma submitAnswer_invalid g request sv s sv0 :
  getOrRestoreSession (SubmitAnswerRequest.sessionId request) sv = (inr s, sv0) →
  ¬ valid_index (SubmitAnswerRequest.questionIndex request) s →
  submitAnswer g request sv = (inl INTERVIEW_QUESTION_NOT_FOUND, sv0).
Proof.
  intros Hres Hi. unfold submitAnswer, bind at 1. rewrite Hres.
  unfold valid_index in Hi. rewrite decide_True by lia. done.
Qed.

Lemma submitAnswer_valid g request sv s sv0 :
  let sid := SubmitAnswerRequest.sessionId request in
  let i := SubmitAnswerRequest.questionIndex request in
  let a := SubmitAnswerRequest.answer request in
  getOrRestoreSession sid sv = (inr s, sv0) →
  valid_index i s →
  submitAnswer g request sv =
    (inr (SubmitAnswerResponse.mk
            (bool_decide (i + 1 < size (questions s)))
            (get (questions (afterSubmit i a s)) (i + 1))
            (i + 1) (size (questions s))),
     mkService (<[sid := afterSubmit i a s]> (sessions sv0))
       (mirrored g (resumeId s) (submitWrites sid i a s) (persistenceService sv0))).
Proof.
  intros sid i a Hres Hi. unfold submitAnswer, bind at 1. fold sid i a. rewrite Hres.
  unfold valid_index in Hi. rewrite decide_False by lia.
  destruct (proj2 (get_is_Some (questions s) i) Hi) as [q Hq].
  unfold afterSubmit, answered, submitWrites, mirrored, afterSubmit, answered.
  rewrite Hq. svc. rewrite Hq. simpl. rewrite !size_set.
  destruct (decide (i + 1 < size (questions s))) as [Hn|Hn].
  - rewrite bool_decide_eq_true_2 by done. simpl.
    destruct (proj2 (get_is_Some (set (questions s) i (withAnswer q a)) (i + 1)))
      as [n Hnx]; [rewrite size_set; lia|]. rewrite Hnx. simpl.
    destruct (resumeId s); simpl; by rewrite ?insert_insert_eq, ?size_set, ?Hnx.
  - rewrite bool_decide_eq_false_2 by done. simpl.
    assert (get (set (questions s) i (withAnswer q a)) (i + 1) = None) as ->.
    { apply get_None. rewrite size_set. lia. }
    destruct (resumeId s); simpl; by rewrite ?insert_insert_eq, ?size_set, ?Hnx.
Qed.

Lemma saveAnswer_invalid g request sv s sv0 :
  getOrRestoreSession (SubmitAnswerRequest.sessionId request) sv = (inr s, sv0) →
  ¬ valid_index (SubmitAnswerRequest.questionIndex request) s →
  saveAnswer g request sv = (inl INTERVIEW_QUESTION_NOT_FOUND, sv0).
Proof.
  intros Hres Hi. unfold saveAnswer, bind at 1. rewrite Hres.
  unfold valid_index in Hi. rewrite decide_True by lia. done.
Qed.

Lemma saveAnswer_valid g request sv s sv0 :
  let sid := SubmitAnswerRequest.sessionId request in
  let i := SubmitAnswerRequest.questionIndex request in
  let a := SubmitAnswerRequest.answer request in
  getOrRestoreSession sid sv = (inr s, sv0) →
  valid_index i s →
  saveAnswer g request sv =
    (inr tt,
     mkService (<[sid := afterSave i a s]> (sessions sv0))
       (mirrored g (resumeId s) (saveWrites sid i a s) (persistenceService sv0))).
Proof.
  intros sid i a Hres Hi. unfold saveAnswer, bind at 1. fold sid i a. rewrite Hres.
  unfold valid_index in Hi. rewrite decide_False by lia.
  destruct (proj2 (get_is_Some (questions s) i) Hi) as [q Hq].
  unfold afterSave, started, answered, saveWrites, mirrored.
  rewrite Hq. svc. rewrite Hq. simpl.
  destruct (decide (status s = CREATED)); simpl;
    destruct (resumeId s); simpl; by rewrite ?insert_insert_eq.
Qed.

Lemma getCurrentQuestion_exhausted g sid sv s sv0 :
  getOrRestoreSession sid sv = (inr s, sv0) →
  currentIndex s >= size (questions s) →
  getCurrentQuestion g sid sv = (inr None, sv0).
Proof.
  intros Hres Hi. unfold getCurrentQuestion, bind at 1. rewrite Hres.
  by rewrite decide_True.
Qed.

Lemma getCurrentQuestion_serves g sid sv s sv0 :
  getOrRestoreSession sid sv = (inr s, sv0) →
  0 <= currentIndex s < size (questions s) →
  getCurrentQuestion g sid sv =
    (inr (get (questions s) (currentIndex s)),
     if decide (status s = CREATED)
     then mkService (<[sid := started s]> (sessions sv0))
            (mirrored g (resumeId s)
               [InterviewPersistenceService.updateSessionStatus sid
                  InterviewSessionEntity.IN_PROGRESS]
               (persistenceService sv0))
     else sv0).
Proof.
  intros Hres Hi. unfold getCurrentQuestion, bind at 1. rewrite Hres.
  rewrite decide_False by lia.
  destruct (proj2 (get_is_Some (questions s) (currentIndex s)) Hi) as [q Hq].
  unfold started, mirrored.
  destruct (decide (status s = CREATED)); svc; rewrite ?Hq; [|done].
  destruct (resumeId s); simpl; by rewrite ?Hq.
Qed.

(** A negative progress index, which no operation produces, makes
    [questions.get] raise. *)
Lemma getCurrentQuestion_negative g sid sv s sv0 :
  getOrRestoreSession sid sv = (inr s, sv0) →
  currentIndex s < 0 →
  (getCurrentQuestion g sid sv).1 = inl INDEX_OUT_OF_BOUNDS.
Proof.
  intros Hres Hi. unfold getCurrentQuestion, bind at 1. rewrite Hres.
  assert (0 <= size (questions s)) by (unfold size; lia).
  rewrite decide_False by lia.
  assert (get (questions s) (currentIndex s) = None) as Hq
    by (apply get_None; lia).
  destruct (decide (status s = CREATED)); svc; rewrite ?Hq; [|done].
  destruct (resumeId s); simpl; by rewrite ?Hq.
Qed.

Lemma completeInterview_rejects g sid sv s sv0 :
  getOrRestoreSession sid sv = (inr s, sv0) →
  status s = COMPLETED ∨ status s = EVALUATED →
  completeInterview g sid sv = (inl INTERVIEW_ALREADY_COMPLETED, sv0).
Proof.
  intros Hres Hst. unfold completeInterview, bind at 1. rewrite Hres.
  by rewrite decide_True.
Qed.

Lemma completeInterview_completes g sid sv s sv0 :
  getOrRestoreSession sid sv = (inr s, sv0) →
  ¬ (status s = COMPLETED ∨ status s = EVALUATED) →
  completeInterview g sid sv =
    (inr tt,
     mkService (<[sid := set_status COMPLETED s]> (sessions sv0))
       (mirrored g (resumeId s)
          [InterviewPersistenceService.updateSessionStatus sid
             InterviewSessionEntity.COMPLETED]
          (persistenceService sv0))).
Proof.
  intros Hres Hst. unfold completeInterview, bind at 1. rewrite Hres.
  rewrite decide_False by done. unfold mirrored. svc. by destruct (resumeId s).
Qed.

Section ReportRuns.
Context {evaluationService : AnswerEvaluationService}.

Lemma generateReport_rejects g sid sv s sv0 :
  getOrRestoreSession sid sv = (inr s, sv0) →
  status s ≠ COMPLETED ∧ status s ≠ EVALUATED →
  generateReport g sid sv = (inl INTERVIEW_NOT_COMPLETED, sv0).
Proof.
  intros Hres Hst. unfold generateReport, bind at 1. rewrite Hres.
  by rewrite decide_True.
Qed.

Lemma generateReport_evaluates g sid sv s sv0 :
  getOrRestoreSession sid sv = (inr s, sv0) →
  status s = COMPLETED ∨ status s = EVALUATED →
  generateReport g sid sv =
    match evaluateInterview sid (resumeText s) (questions s) with
    | None => (inl EVALUATION_FAILED, sv0)
    | Some report =>
        (inr report,
         mkService (<[sid := set_status EVALUATED s]> (sessions sv0))
           (mirrored g (resumeId s)
              [InterviewPersistenceService.saveReport sid report]
              (persistenceService sv0)))
    end.
Proof.
  intros Hres Hst. unfold generateReport, bind at 1. rewrite Hres.
  rewrite decide_False by (intros [? ?]; destruct Hst; done).
  destruct (evaluateInterview sid (resumeText s) (questions s)); [|done].
  unfold mirrored. svc. by destruct (resumeId s).
Qed.

End ReportRuns.


(** ** submitAnswer *)

(** C3. On a resolved session of [L] questions, [submitAnswer] raises
    [INTERVIEW_QUESTION_NOT_FOUND] exactly when the index is outside [0, L).
    On a valid index [i] it records the answer at [questions[i]], replacing
    what was there and touching no other question, sets [currentIndex] to
    [i + 1], answers [hasNextQuestion = (i + 1 < L)] with
    [nextQuestion = questions[i + 1]] when there is one, [currentIndex = i + 1]
    and [totalQuestions = L], and sets the status to COMPLETED exactly when
    [i + 1 = L], leaving it as it was otherwise. *)
Theorem submitAnswer_contract g request sv session sv0 :
  let sid := SubmitAnswerRequest.sessionId request in
  let i := SubmitAnswerRequest.questionIndex request in
  let a := SubmitAnswerRequest.answer request in
  let L := size (questions session) in
  getOrRestoreSession sid sv = (inr session, sv0) →
  ((submitAnswer g request sv).1 = inl INTERVIEW_QUESTION_NOT_FOUND
     ↔ ¬ (0 <= i < L))
  ∧ (0 <= i < L →
     ∃ response session' q,
       (submitAnswer g request sv).1 = inr response
       ∧ sessions (submitAnswer g request sv).2 !! sid = Some session'
       ∧ get (questions session) i = Some q
       ∧ get (questions session') i = Some (withAnswer q a)
       ∧ get (answers_of session') i = Some a
       ∧ (∀ j, j ≠ i → get (questions session') j = get (questions session) j)
       ∧ size (questions session') = L
       ∧ currentIndex session' = i + 1
       ∧ SubmitAnswerResponse.hasNextQuestion response = bool_decide (i + 1 < L)
       ∧ SubmitAnswerResponse.nextQuestion response = get (questions session') (i + 1)
       ∧ (i + 1 < L → is_Some (SubmitAnswerResponse.nextQuestion response))
       ∧ (¬ i + 1 < L → SubmitAnswerResponse.nextQuestion response = None)
       ∧ SubmitAnswerResponse.currentIndex response = i + 1
       ∧ SubmitAnswerResponse.totalQuestions response = L
       ∧ (i + 1 = L → status session' = COMPLETED)
       ∧ (i + 1 ≠ L → status session' = status session)).
Proof.
  intros sid i a L Hres. split.
  - destruct (decide (valid_index i session)) as [Hi|Hi].
    + rewrite (submitAnswer_valid g request sv session sv0 Hres Hi). simpl.
      unfold valid_index in Hi. fold L in Hi. split; [discriminate | lia].
    + rewrite (submitAnswer_invalid g request sv session sv0 Hres Hi). done.
  - intros Hi.
    rewrite (submitAnswer_valid g request sv session sv0 Hres Hi). simpl.
    destruct (proj2 (get_is_Some (questions session) i) Hi) as [q Hq].
    exists (SubmitAnswerResponse.mk (bool_decide (i + 1 < L))
              (get (questions (afterSubmit i a session)) (i + 1)) (i + 1) L),
           (afterSubmit i a session), q.
    fold sid i a. rewrite lookup_insert_eq.
    assert (questions (afterSubmit i a session)
            = set (questions session) i (withAnswer q a)) as Hqs.
    { unfold afterSubmit, answered. rewrite Hq. by case_decide. }
    unfold answers_of. rewrite get_fmap, Hqs, size_set, get_set_eq by done.
    split_and!; try done.
    + intros j Hj. apply get_set_ne; [lia | done].
    + unfold afterSubmit. by case_decide.
    + intros ?. simpl. apply get_is_Some. rewrite size_set. fold L. lia.
    + intros ?. simpl. apply get_None. rewrite size_set. fold L. lia.
    + intros ?. unfold afterSubmit. fold L. by rewrite decide_False by lia.
    + intros ?. unfold afterSubmit, answered. fold L. rewrite Hq.
      by rewrite decide_True by lia.
Qed.

Lemma submitAnswer_contract_witness :
  let request := SubmitAnswerRequest.mk Scenario.sid 2 (Some "B-tree leaves"%string) in
  getOrRestoreSession Scenario.sid (Scenario.created 3)
    = (inr (Scenario.initial 3), Scenario.created 3)
  ∧ ((submitAnswer Healthy request (Scenario.created 3)).1
       = inl INTERVIEW_QUESTION_NOT_FOUND
     ↔ ¬ (0 <= 2 < size (questions (Scenario.initial 3)))).
Proof.
  intros request.
  assert (getOrRestoreSession Scenario.sid (Scenario.created 3)
          = (inr (Scenario.initial 3), Scenario.created 3)) as Hres
    by (vm_compute; reflexivity).
  split; [exact Hres|].
  exact (proj1 (submitAnswer_contract Healthy request _ _ _ Hres)).
Defined.

(** C10. When the index is outside [0, L), [submitAnswer] and [saveAnswer]
    raise [INTERVIEW_QUESTION_NOT_FOUND] before any assignment: the state
    they leave is the one in which the session was resolved, so the session
    keeps its answers, its [currentIndex] and its status, and the store gets
    no write. *)
Theorem invalid_index_changes_nothing g request sv session sv0 :
  let sid := SubmitAnswerRequest.sessionId request in
  let i := SubmitAnswerRequest.questionIndex request in
  getOrRestoreSession sid sv = (inr session, sv0) →
  ¬ (0 <= i < size (questions session)) →
  submitAnswer g request sv = (inl INTERVIEW_QUESTION_NOT_FOUND, sv0)
  ∧ saveAnswer g request sv = (inl INTERVIEW_QUESTION_NOT_FOUND, sv0)
  ∧ sessions sv0 !! sid = Some session
  ∧ persistenceService sv0 = persistenceService sv.
Proof.
  intros sid i Hres Hi.
  destruct (getOrRestoreSession_ok _ _ _ _ Hres) as (Hs & Hdb & _ & _).
  split_and!; try done.
  - exact (submitAnswer_invalid g request sv session sv0 Hres Hi).
  - exact (saveAnswer_invalid g request sv session sv0 Hres Hi).
Qed.

Lemma invalid_index_changes_nothing_witness :
  let request := SubmitAnswerRequest.mk Scenario.sid 3 (Some "late"%string) in
  submitAnswer Healthy request (Scenario.created 3)
    = (inl INTERVIEW_QUESTION_NOT_FOUND, Scenario.created 3)
  ∧ saveAnswer Healthy request (Scenario.created 3)
    = (inl INTERVIEW_QUESTION_NOT_FOUND, Scenario.created 3)
  ∧ sessions (Scenario.created 3) !! Scenario.sid = Some (Scenario.initial 3)
  ∧ persistenceService (Scenario.created 3) = persistenceService (Scenario.created 3).
Proof.
  intros request.
  apply (invalid_index_changes_nothing Healthy request (Scenario.created 3)
           (Scenario.initial 3) (Scenario.created 3)).
  - vm_compute. reflexivity.
  - vm_compute. intros [_ H]. discriminate H.
Defined.


(** ** completeInterview *)

(** C7. On a resolved session, [completeInterview] raises
    [INTERVIEW_ALREADY_COMPLETED] exactly when the status is COMPLETED or
    EVALUATED.  Otherwise it returns, the status becomes COMPLETED whatever
    [currentIndex] is, and [currentIndex] and the questions with their
    answers are as before. *)
Theorem completeInterview_contract g sid sv session sv0 :
  getOrRestoreSession sid sv = (inr session, sv0) →
  ((completeInterview g sid sv).1 = inl INTERVIEW_ALREADY_COMPLETED
     ↔ status session = COMPLETED ∨ status session = EVALUATED)
  ∧ (¬ (status session = COMPLETED ∨ status session = EVALUATED) →
     ∃ session',
       (completeInterview g sid sv).1 = inr tt
       ∧ sessions (completeInterview g sid sv).2 !! sid = Some session'
       ∧ status session' = COMPLETED
       ∧ currentIndex session' = currentIndex session
       ∧ questions session' = questions session
       ∧ answers_of session' = answers_of session).
Proof.
  intros Hres. split.
  - destruct (decide (status session = COMPLETED ∨ status session = EVALUATED))
      as [Hst|Hst].
    + by rewrite (completeInterview_rejects g sid sv session sv0 Hres Hst).
    + by rewrite (completeInterview_completes g sid sv session sv0 Hres Hst).
  - intros Hst.
    rewrite (completeInterview_completes g sid sv session sv0 Hres Hst). simpl.
    exists (set_status COMPLETED session). by rewrite lookup_insert_eq.
Qed.

Lemma completeInterview_contract_witness :
  getOrRestoreSession Scenario.sid (Scenario.created 3)
    = (inr (Scenario.initial 3), Scenario.created 3)
  ∧ ((completeInterview Healthy Scenario.sid (Scenario.created 3)).1
       = inl INTERVIEW_ALREADY_COMPLETED
     ↔ status (Scenario.initial 3) = COMPLETED
       ∨ status (Scenario.initial 3) = EVALUATED).
Proof.
  assert (getOrRestoreSession Scenario.sid (Scenario.created 3)
          = (inr (Scenario.initial 3), Scenario.created 3)) as Hres
    by (vm_compute; reflexivity).
  split; [exact Hres|].
  exact (proj1 (completeInterview_contract Healthy _ _ _ _ Hres)).
Defined.

(** ** generateReport *)

Section Report.
Context {evaluationService : AnswerEvaluationService}.

(** C6. On a resolved session, [generateReport] raises
    [INTERVIEW_NOT_COMPLETED] exactly when the status is neither COMPLETED nor
    EVALUATED.  From COMPLETED or EVALUATED, when the evaluator answers, the
    call returns the evaluator's report on the session's questions and leaves
    the status EVALUATED; a further call from that state does the same. *)
Theorem generateReport_contract g sid sv session sv0 :
  getOrRestoreSession sid sv = (inr session, sv0) →
  ((generateReport g sid sv).1 = inl INTERVIEW_NOT_COMPLETED
     ↔ status session ≠ COMPLETED ∧ status session ≠ EVALUATED)
  ∧ (status session = COMPLETED ∨ status session = EVALUATED →
     ∀ report,
       evaluateInterview sid (resumeText session) (questions session) = Some report →
       ∃ session',
         (generateReport g sid sv).1 = inr report
         ∧ sessions (generateReport g sid sv).2 !! sid = Some session'
         ∧ status session' = EVALUATED
         ∧ ∀ g', ∃ session'',
             (generateReport g' sid (generateReport g sid sv).2).1 = inr report
             ∧ sessions (generateReport g' sid (generateReport g sid sv).2).2 !! sid
               = Some session''
             ∧ status session'' = EVALUATED).
Proof.
  intros Hres. split.
  - destruct (decide (status session = COMPLETED ∨ status session = EVALUATED))
      as [Hst|Hst].
    + rewrite (generateReport_evaluates g sid sv session sv0 Hres Hst).
      split; [|intros [? ?]; destruct Hst; done].
      by destruct (evaluateInterview _ _ _).
    + assert (status session ≠ COMPLETED ∧ status session ≠ EVALUATED) as Hn
        by (split; intros ?; apply Hst; auto).
      by rewrite (generateReport_rejects g sid sv session sv0 Hres Hn).
  - intros Hst report Hev.
    rewrite (generateReport_evaluates g sid sv session sv0 Hres Hst), Hev. simpl.
    exists (set_status EVALUATED session). rewrite lookup_insert_eq.
    split_and!; try done. intros g'.
    set (sv1 := mkService _ _).
    assert (getOrRestoreSession sid sv1 = (inr (set_status EVALUATED session), sv1))
      as Hres1.
    { apply getOrRestoreSession_cached. apply lookup_insert_eq. }
    rewrite (generateReport_evaluates g' sid sv1 _ sv1 Hres1) by (by right).
    simpl. rewrite Hev. simpl.
    exists (set_status EVALUATED (set_status EVALUATED session)).
    by rewrite lookup_insert_eq.
Qed.

End Report.

Lemma generateReport_contract_witness :
  getOrRestoreSession Scenario.sid (Scenario.created 3)
    = (inr (Scenario.initial 3), Scenario.created 3)
  ∧ ((generateReport (evaluationService := Scenario.evaluator) Healthy
        Scenario.sid (Scenario.created 3)).1 = inl INTERVIEW_NOT_COMPLETED
     ↔ status (Scenario.initial 3) ≠ COMPLETED
       ∧ status (Scenario.initial 3) ≠ EVALUATED).
Proof.
  assert (getOrRestoreSession Scenario.sid (Scenario.created 3)
          = (inr (Scenario.initial 3), Scenario.created 3)) as Hres
    by (vm_compute; reflexivity).
  split; [exact Hres|].
  exact (proj1 (generateReport_contract (evaluationService := Scenario.evaluator)
                  Healthy _ _ _ _ Hres)).
Defined.

(** ** getCurrentQuestion *)

(** C8. On a resolved session whose [currentIndex] is not negative,
    [getCurrentQuestion] returns none exactly when
    [currentIndex >= len(questions)] and [questions[currentIndex]] otherwise;
    it sets the status to IN_PROGRESS exactly when it returns a question and
    the status was CREATED, and changes nothing else of the session.  After a
    [submitAnswer], whatever its index and outcome, the next
    [getCurrentQuestion] returns the question at the session's
    [currentIndex] of that moment ([index + 1] when the index was valid), or
    none when that is past the last question. *)
Theorem getCurrentQuestion_contract g sid sv session sv0 :
  getOrRestoreSession sid sv = (inr session, sv0) →
  0 <= currentIndex session →
  ((getCurrentQuestion g sid sv).1 = inr None
     ↔ currentIndex session >= size (questions session))
  ∧ (getCurrentQuestion g sid sv).1
      = inr (get (questions session) (currentIndex session))
  ∧ (∃ session',
       sessions (getCurrentQuestion g sid sv).2 !! sid = Some session'
       ∧ questions session' = questions session
       ∧ currentIndex session' = currentIndex session
       ∧ (currentIndex session < size (questions session) →
          status session = CREATED → status session' = IN_PROGRESS)
       ∧ (¬ (currentIndex session < size (questions session)
             ∧ status session = CREATED) → status session' = status session))
  ∧ (∀ g1 g2 i a,
       let sv1 := (submitAnswer g1 (SubmitAnswerRequest.mk sid i a) sv).2 in
       ∃ session1,
         sessions sv1 !! sid = Some session1
         ∧ (0 <= i < size (questions session) → currentIndex session1 = i + 1)
         ∧ (getCurrentQuestion g2 sid sv1).1
           = inr (get (questions session1) (currentIndex session1))
         ∧ ((getCurrentQuestion g2 sid sv1).1 = inr None
            ↔ currentIndex session1 >= size (questions session1))).
Proof.
  intros Hres Hnn.
  destruct (getOrRestoreSession_ok _ _ _ _ Hres) as (Hs0 & _ & _ & Hres0).
  assert (∀ g' sv' s', (∃ sv'', getOrRestoreSession sid sv' = (inr s', sv'')) →
            0 <= currentIndex s' →
            (getCurrentQuestion g' sid sv').1
              = inr (get (questions s') (currentIndex s'))
            ∧ ((getCurrentQuestion g' sid sv').1 = inr None
               ↔ currentIndex s' >= size (questions s'))) as Hget.
  { intros g' sv' s' [sv'' Hr] Hn.
    destruct (decide (currentIndex s' >= size (questions s'))) as [Hex|Hex].
    - rewrite (getCurrentQuestion_exhausted g' sid sv' s' sv'' Hr Hex). simpl.
      assert (get (questions s') (currentIndex s') = None) as ->
        by (apply get_None; lia).
      done.
    - rewrite (getCurrentQuestion_serves g' sid sv' s' sv'' Hr) by lia. simpl.
      split; [done|].
      destruct (proj2 (get_is_Some (questions s') (currentIndex s')))
        as [q Hq]; [lia|]. rewrite Hq. split; [discriminate | lia]. }
  destruct (Hget g sv session (ex_intro _ sv0 Hres) Hnn) as [Hval Hnone].
  split_and!; [done | done | |].
  - destruct (decide (currentIndex session >= size (questions session))) as [Hex|Hex].
    + rewrite (getCurrentQuestion_exhausted g sid sv session sv0 Hres Hex). simpl.
      exists session. split_and!; try done; lia.
    + rewrite (getCurrentQuestion_serves g sid sv session sv0 Hres) by lia.
      unfold started.
      destruct (decide (status session = CREATED)) as [Hc|Hc]; simpl.
      * exists (set_status IN_PROGRESS session). rewrite lookup_insert_eq.
        split_and!; try done. intros Hno. exfalso. apply Hno. split; [lia | done].
      * exists session. split_and!; try done.
  - intros g1 g2 i a sv1.
    destruct (decide (valid_index i session)) as [Hi|Hi].
    + pose proof (submitAnswer_valid g1 (SubmitAnswerRequest.mk sid i a)
                    sv session sv0 Hres Hi) as Hrun. simpl in Hrun.
      subst sv1. rewrite Hrun. simpl.
      exists (afterSubmit i a session). rewrite lookup_insert_eq.
      assert (currentIndex (afterSubmit i a session) = i + 1) as Hci
        by (unfold afterSubmit; by case_decide).
      split_and!; [done | done | |].
      all: apply Hget;
        [ eexists; apply getOrRestoreSession_cached; simpl; apply lookup_insert_eq
        | unfold valid_index in Hi; lia ].
    + pose proof (submitAnswer_invalid g1 (SubmitAnswerRequest.mk sid i a)
                    sv session sv0 Hres Hi) as Hrun.
      subst sv1. rewrite Hrun. simpl.
      exists session. split_and!; [done | intros ?; by destruct Hi | |].
      all: apply Hget; [by exists sv0 | done].
Qed.

Lemma getCurrentQuestion_contract_witness :
  getOrRestoreSession Scenario.sid (Scenario.created 3)
    = (inr (Scenario.initial 3), Scenario.created 3)
  ∧ 0 <= currentIndex (Scenario.initial 3)
  ∧ (getCurrentQuestion Healthy Scenario.sid (Scenario.created 3)).1
    = inr (get (questions (Scenario.initial 3)) (currentIndex (Scenario.initial 3))).
Proof.
  assert (getOrRestoreSession Scenario.sid (Scenario.created 3)
          = (inr (Scenario.initial 3), Scenario.created 3)) as Hres
    by (vm_compute; reflexivity).
  assert (0 <= currentIndex (Scenario.initial 3)) as Hnn by (simpl; lia).
  split_and!; [exact Hres | exact Hnn |].
  exact (proj1 (proj2 (getCurrentQuestion_contract Healthy _ _ _ _ Hres Hnn))).
Defined.


(** ** Sequences of operations on one session *)

Lemma getCurrentQuestion_state g sid sv s sv0 :
  getOrRestoreSession sid sv = (inr s, sv0) →
  (getCurrentQuestion g sid sv).2 =
    if decide (currentIndex s >= size (questions s)) then sv0
    else if decide (status s = CREATED)
         then mkService (<[sid := started s]> (sessions sv0))
                (mirrored g (resumeId s)
                   [InterviewPersistenceService.updateSessionStatus sid
                      InterviewSessionEntity.IN_PROGRESS]
                   (persistenceService sv0))
         else sv0.
Proof.
  intros Hres. unfold getCurrentQuestion, bind at 1. rewrite Hres.
  case_decide; [done|]. unfold started, mirrored.
  destruct (decide (status s = CREATED)); svc.
  - destruct (resumeId s); simpl;
      by destruct (get (questions s) (currentIndex s)).
  - by destruct (get (questions s) (currentIndex s)).
Qed.

Section Sequences.
Context {evaluationService : AnswerEvaluationService}.

(** Whatever the operation and the health of the store, the session held
    under [sid] afterwards is the resolved session with the operation's
    assignments applied. *)
Lemma exec_effect g sid op sv s sv0 :
  getOrRestoreSession sid sv = (inr s, sv0) →
  sessions (exec g sid op sv) !! sid = Some (effect sid op s).
Proof.
  intros Hres.
  destruct (getOrRestoreSession_ok _ _ _ _ Hres) as (Hs0 & _ & _ & _).
  destruct op as [|i a|i a| |]; simpl.
  - rewrite (getCurrentQuestion_state g sid sv s sv0 Hres).
    case_decide; [done|]. unfold started.
    case_decide; [apply lookup_insert_eq | done].
  - case_decide as Hi.
    + pose proof (submitAnswer_valid g (SubmitAnswerRequest.mk sid i a)
                    sv s sv0 Hres Hi) as ->. apply lookup_insert_eq.
    + by pose proof (submitAnswer_invalid g (SubmitAnswerRequest.mk sid i a)
                       sv s sv0 Hres Hi) as ->.
  - case_decide as Hi.
    + pose proof (saveAnswer_valid g (SubmitAnswerRequest.mk sid i a)
                    sv s sv0 Hres Hi) as ->. apply lookup_insert_eq.
    + by pose proof (saveAnswer_invalid g (SubmitAnswerRequest.mk sid i a)
                       sv s sv0 Hres Hi) as ->.
  - case_decide as Hst.
    + by rewrite (completeInterview_rejects g sid sv s sv0 Hres Hst).
    + rewrite (completeInterview_completes g sid sv s sv0 Hres Hst).
      apply lookup_insert_eq.
  - case_decide as Hst.
    + by rewrite (generateReport_rejects g sid sv s sv0 Hres Hst).
    + assert (status s = COMPLETED ∨ status s = EVALUATED) as Hst'.
      { destruct (status s); auto; exfalso; apply Hst; done. }
      rewrite (generateReport_evaluates g sid sv s sv0 Hres Hst').
      destruct (evaluateInterview _ _ _); [apply lookup_insert_eq | done].
Qed.

Lemma run_effects sid ops sv s :
  sessions sv !! sid = Some s →
  sessions (run sid ops sv) !! sid
    = Some (foldl (λ s' gop, effect sid gop.2 s') s ops).
Proof.
  revert sv s. induction ops as [|[g op] ops IH]; intros sv s Hs; [done|].
  simpl. apply IH. apply (exec_effect g sid op sv s sv).
  by apply getOrRestoreSession_cached.
Qed.

(** The status moves forward under every operation, with one exception:
    a [submitAnswer] of the last index on an EVALUATED session assigns
    COMPLETED. *)
Lemma effect_rank sid op s :
  rank (status s) <= rank (status (effect sid op s))
  ∨ (status s = EVALUATED
     ∧ status (effect sid op s) = COMPLETED
     ∧ ∃ i a, op = SubmitAnswer i a ∧ i + 1 = size (questions s)).
Proof.
  destruct op as [|i a|i a| |]; simpl.
  - case_decide; [left; lia|]. unfold started.
    case_decide as Hc; [rewrite Hc; simpl; left; lia | left; lia].
  - case_decide as Hi; [|left; lia]. unfold afterSubmit.
    case_decide as Hn.
    + left. unfold answered. simpl. destruct (get _ _); simpl; lia.
    + simpl. destruct (status s) eqn:Hst; simpl; try (left; lia).
      right. split_and!; try done. exists i, a. split; [done|].
      unfold valid_index in Hi. lia.
  - case_decide as Hi; [|left; lia]. unfold afterSave, started, answered.
    destruct (get _ _); simpl;
      (case_decide as Hc; [rewrite Hc; simpl; left; lia | left; simpl; lia]).
  - case_decide as Hst; [left; lia|]. simpl.
    destruct (status s); simpl; left; try lia; exfalso; apply Hst; auto.
  - case_decide as Hst; [left; lia|].
    destruct (evaluateInterview _ _ _); [|left; lia]. simpl.
    destruct (status s); simpl; left; lia.
Qed.

(** Once COMPLETED, never earlier than COMPLETED again. *)
Lemma effect_stays_completed sid op s :
  rank COMPLETED <= rank (status s) →
  rank COMPLETED <= rank (status (effect sid op s)).
Proof.
  intros H. destruct (effect_rank sid op s) as [Hle|(_ & -> & _)]; [lia | done].
Qed.

(** The answers are a function of the answers before and of the operation:
    only a [submitAnswer] or [saveAnswer] at a valid index writes one, at
    that index. *)
Lemma effect_answers sid op s :
  answers_of (effect sid op s) =
    match op with
    | SubmitAnswer i a | SaveAnswer i a =>
        if decide (valid_index i s) then set (answers_of s) i a else answers_of s
    | _ => answers_of s
    end.
Proof.
  assert (∀ i a, valid_index i s →
            answers_of (answered i a s) = set (answers_of s) i a) as Hans.
  { intros i a Hi. unfold answered.
    destruct (proj2 (get_is_Some (questions s) i) Hi) as [q ->].
    unfold answers_of, set. simpl. by rewrite list_fmap_insert. }
  destruct op as [|i a|i a| |]; simpl.
  - case_decide; [done|]. unfold started. by case_decide.
  - case_decide as Hi; [|done]. rewrite <- (Hans i a Hi).
    unfold afterSubmit. by case_decide.
  - case_decide as Hi; [|done]. rewrite <- (Hans i a Hi).
    unfold afterSave, started. by case_decide.
  - by case_decide.
  - case_decide; [done|]. by destruct (evaluateInterview _ _ _).
Qed.

(** C9, as the code has it.  On a session that is COMPLETED or EVALUATED,
    [getCurrentQuestion], [completeInterview] and [generateReport] leave
    the recorded answers as they are, and so do [submitAnswer] and
    [saveAnswer] at an index outside [0, L).  A [submitAnswer] or
    [saveAnswer] at a valid index is not refused: it replaces the answer at
    that index and leaves every other answer as it is. *)
Theorem answers_after_completion g sid op sv session sv0 :
  getOrRestoreSession sid sv = (inr session, sv0) →
  status session = COMPLETED ∨ status session = EVALUATED →
  ∃ session',
    sessions (exec g sid op sv) !! sid = Some session'
    ∧ size (answers_of session') = size (answers_of session)
    ∧ match op with
      | SubmitAnswer i a | SaveAnswer i a =>
          if decide (0 <= i < size (questions session))
          then get (answers_of session') i = Some a
               ∧ ∀ j, j ≠ i → get (answers_of session') j = get (answers_of session) j
          else answers_of session' = answers_of session
      | GetCurrentQuestion | CompleteEarly | GenerateReport =>
          answers_of session' = answers_of session
      end.
Proof.
  intros Hres _. exists (effect sid op session).
  split; [by apply (exec_effect g sid op sv session sv0)|].
  rewrite effect_answers.
  assert (size (answers_of session) = size (questions session)) as Hsz
    by (unfold answers_of, size; by rewrite length_fmap).
  destruct op as [|i a|i a| |]; try done.
  all: unfold valid_index; case_decide as Hi; [|done].
  all: rewrite size_set; split; [done|]; split;
    [ apply get_set_eq; lia | intros j Hj; apply get_set_ne; [lia | done] ].
Qed.

End Sequences.


(** ** The operations run on the concrete interview *)

Section ScenarioRuns.
Local Open Scope string_scope.
Local Existing Instance Scenario.evaluator.
Local Existing Instance Scenario.generator.

Let sid := Scenario.sid.
Let statusAt (sv : Service) := status <$> sessions sv !! sid.
Let indexAt (sv : Service) := currentIndex <$> sessions sv !! sid.
Let answersAt (sv : Service) := answers_of <$> sessions sv !! sid.

Lemma answers_after_completion_witness :
  let sv := exec Healthy sid CompleteEarly (Scenario.created 3) in
  getOrRestoreSession sid sv = (inr (set_status COMPLETED (Scenario.initial 3)), sv)
  ∧ (status (set_status COMPLETED (Scenario.initial 3)) = COMPLETED
     ∨ status (set_status COMPLETED (Scenario.initial 3)) = EVALUATED)
  ∧ ∃ session',
      sessions (exec Healthy sid (SaveAnswer 5 (Some "late")) sv) !! sid
        = Some session'
      ∧ answers_of session' = [None; None; None].
Proof.
  intros sv.
  assert (getOrRestoreSession sid sv
          = (inr (set_status COMPLETED (Scenario.initial 3)), sv)) as Hres
    by (vm_compute; reflexivity).
  assert (status (set_status COMPLETED (Scenario.initial 3)) = COMPLETED
          ∨ status (set_status COMPLETED (Scenario.initial 3)) = EVALUATED) as Hst
    by (left; reflexivity).
  split_and!; [exact Hres | exact Hst |].
  destruct (answers_after_completion Healthy sid (SaveAnswer 5 (Some "late"))
              sv _ sv Hres Hst) as (session' & Hs' & _ & Hans).
  exists session'. split; [exact Hs' | exact Hans].
Defined.

(** C9 fails as stated: the session below is COMPLETED with the answer
    ["first"] at index 0; a [saveAnswer] at index 0 is accepted and the
    recorded answer becomes ["second"].  [submitAnswer] does the same. *)
Lemma completed_answers_overwritten :
  let sv := exec Healthy sid CompleteEarly
              (exec Healthy sid (SubmitAnswer 0 (Some "first"))
                 (Scenario.created 3)) in
  statusAt sv = Some COMPLETED
  ∧ answersAt sv = Some [Some "first"; None; None]
  ∧ (saveAnswer Healthy (SubmitAnswerRequest.mk sid 0 (Some "second")) sv).1
    = inr tt
  ∧ statusAt (exec Healthy sid (SaveAnswer 0 (Some "second")) sv) = Some COMPLETED
  ∧ answersAt (exec Healthy sid (SaveAnswer 0 (Some "second")) sv)
    = Some [Some "second"; None; None]
  ∧ answersAt (exec Healthy sid (SubmitAnswer 1 (Some "third")) sv)
    = Some [Some "first"; Some "third"; None].
Proof. vm_compute. repeat split. Qed.

(** C2 at its failing input: a one-question interview is created, answered
    and reported on, which leaves it EVALUATED; answering the question again
    puts the status back to COMPLETED. *)
Theorem status_back_to_completed :
  let sv1 := Scenario.created 1 in
  let sv2 := exec Healthy sid (SubmitAnswer 0 (Some "an answer")) sv1 in
  let sv3 := exec Healthy sid GenerateReport sv2 in
  let sv4 := exec Healthy sid (SubmitAnswer 0 (Some "another answer")) sv3 in
  statusAt sv1 = Some CREATED
  ∧ statusAt sv2 = Some COMPLETED
  ∧ statusAt sv3 = Some EVALUATED
  ∧ (submitAnswer Healthy (SubmitAnswerRequest.mk sid 0 (Some "another answer")) sv3).1
    = inr (SubmitAnswerResponse.mk false None 1 1)
  ∧ statusAt sv4 = Some COMPLETED
  ∧ (rank <$> statusAt sv4) = Some 2
  ∧ (rank <$> statusAt sv3) = Some 3.
Proof. vm_compute. repeat split. Qed.

(** C1 at its failing input: a session of three questions is created for a
    subject and the first answer is submitted, every write reaching the
    store.  The session rebuilt from the store has the same questions, the
    same answers and [currentIndex = 1], but its status is IN_PROGRESS while
    the session in memory is still CREATED. *)
Theorem restored_status_differs :
  let sv := exec Healthy sid (SubmitAnswer 0 (Some "an answer")) (Scenario.created 3) in
  let qs := set Scenario.pool 0 (mkQuestion 0 "Describe the project you are proudest of."
                                   "PROJECT" None (Some "an answer")) in
  let inMemory := mkSession sid Scenario.resume (Some 7) qs 1 CREATED in
  let restored := mkSession sid Scenario.resume (Some 7) qs 1 IN_PROGRESS in
  sessions sv !! sid = Some inMemory
  ∧ sessions (Scenario.evicted sv) !! sid = None
  ∧ (getOrRestoreSession sid (Scenario.evicted sv)).1 = inr restored
  ∧ questions restored = questions inMemory
  ∧ answers_of restored = answers_of inMemory
  ∧ currentIndex restored = 1
  ∧ currentIndex inMemory = 1
  ∧ status inMemory = CREATED
  ∧ status restored = IN_PROGRESS.
Proof. vm_compute. repeat split. Qed.

(** C4 at its failing input: after creation with three questions and the
    submits at indices 0 and 1, [currentIndex] is 2 and the response has
    [hasNextQuestion] with the question of index 2, but the status is still
    CREATED, not IN_PROGRESS.  [completeInterview] then succeeds and leaves
    COMPLETED, and [generateReport] succeeds with no answer in the detail of
    index 2. *)
Theorem scenario_status_after_two_submits :
  let sv1 := exec Healthy sid (SubmitAnswer 0 (Some "first")) (Scenario.created 3) in
  let second := submitAnswer Healthy (SubmitAnswerRequest.mk sid 1 (Some "second")) sv1 in
  let sv2 := second.2 in
  let sv3 := (completeInterview Healthy sid sv2).2 in
  indexAt sv2 = Some 2
  ∧ SubmitAnswerResponse.hasNextQuestion <$> returned second.1 = Some true
  ∧ (returned second.1 ≫= SubmitAnswerResponse.nextQuestion) = get Scenario.pool 2
  ∧ questionIndex <$> (returned second.1 ≫= SubmitAnswerResponse.nextQuestion)
    = Some 2
  ∧ statusAt sv2 = Some CREATED
  ∧ statusAt sv2 ≠ Some IN_PROGRESS
  ∧ (completeInterview Healthy sid sv2).1 = inr tt
  ∧ statusAt sv3 = Some COMPLETED
  ∧ answersAt sv3 = Some [Some "first"; Some "second"; None]
  ∧ (λ r, qe_userAnswer <$> rp_questionDetails r)
      <$> returned (generateReport Healthy sid sv3).1
    = Some [Some "first"; Some "second"; None]
  ∧ statusAt (generateReport Healthy sid sv3).2 = Some EVALUATED.
Proof. vm_compute. repeat split. discriminate. Qed.

End ScenarioRuns.


(** ** createSession *)

(** [findUnfinishedSession] by cases on the store lookup and on the map. *)
Lemma findUnfinishedSession_run rid sv :
  findUnfinishedSession rid sv =
    match InterviewPersistenceService.findUnfinishedSession rid
            (persistenceService sv) with
    | None => (inr None, sv)
    | Some entity =>
        let id := InterviewSessionEntity.sessionId entity in
        match sessions sv !! id with
        | Some session => (inr (Some (toDTO session)), sv)
        | None =>
            match restoreSessionFromEntity entity (persistenceService sv) with
            | Some restored =>
                (inr (Some (toDTO restored)),
                 mkService (<[id := restored]> (sessions sv)) (persistenceService sv))
            | None => (inr None, sv)
            end
        end
    end.
Proof.
  unfold findUnfinishedSession. svc.
  destruct (InterviewPersistenceService.findUnfinishedSession _ _) as [e|]; [|done].
  destruct (sessions sv !! InterviewSessionEntity.sessionId e); [done|]. simpl.
  by destruct (restoreSessionFromEntity e (persistenceService sv)).
Qed.

(** A session row just saved for a subject is that subject's most recent
    unfinished session. *)
Lemma findUnfinishedSession_saveSession sid rid count qs db :
  InterviewPersistenceService.findUnfinishedSession rid
    (InterviewPersistenceService.saveSession sid rid count qs db)
  = Some (InterviewSessionEntity.mk sid rid count qs 0
            InterviewSessionEntity.CREATED None).
Proof.
  unfold InterviewPersistenceService.findUnfinishedSession,
    InterviewPersistenceService.saveSession. simpl.
  rewrite decide_True; [done|]. done.
Qed.

(** With a healthy store every write of the block is done, in order. *)
Lemma try_writes_Healthy ws db :
  try_writes Healthy ws db = foldl (λ d w, w d) db ws.
Proof. revert db. induction ws as [|w ws IH]; intros db; [done|]. apply IH. Qed.

Section Creation.
Context {questionService : InterviewQuestionService}.

(** [createSession] by cases on the subject and on the lookup. *)
Lemma createSession_run uuid g request sv :
  createSession uuid g request sv =
    match CreateInterviewRequest.resumeId request with
    | None => createFresh uuid g request sv
    | Some rid =>
        match findUnfinishedSession rid sv with
        | (inr (Some unfinished), sv') => (inr unfinished, sv')
        | (inr None, sv') => createFresh uuid g request sv'
        | (inl e, sv') => (inl e, sv')
        end
    end.
Proof.
  unfold createSession, createFresh, bind at 1.
  destruct (CreateInterviewRequest.resumeId request) as [rid|].
  - destruct (findUnfinishedSession rid sv) as [[e|[dto|]] sv']; try done.
    destruct (generateQuestions _ _); done.
  - svc. by destruct (generateQuestions _ _).
Qed.

(** Two calls in a row: the second returns what the first returned and
    changes nothing, whatever the state the first started from. *)
Lemma createSession_twice uuid1 uuid2 g2 request1 request2 rid sv dto1 sv1 :
  CreateInterviewRequest.resumeId request1 = Some rid →
  CreateInterviewRequest.resumeId request2 = Some rid →
  createSession uuid1 Healthy request1 sv = (inr dto1, sv1) →
  ∃ dto2,
    createSession uuid2 g2 request2 sv1 = (inr dto2, sv1)
    ∧ InterviewSessionDTO.sessionId dto2 = InterviewSessionDTO.sessionId dto1
    ∧ dto2 = dto1.
Proof.
  intros Hr1 Hr2 Hfirst. exists dto1. split; [|done].
  revert Hfirst. unfold createSession. rewrite Hr1, Hr2. unfold bind.
  rewrite (findUnfinishedSession_run rid sv), (findUnfinishedSession_run rid sv1).
  destruct (InterviewPersistenceService.findUnfinishedSession rid
              (persistenceService sv)) as [entity|] eqn:Hfind.
  - (* an unfinished session of the subject is in the store *)
    simpl.
    destruct (sessions sv !! InterviewSessionEntity.sessionId entity)
      as [session|] eqn:Hc.
    + intros [= <- <-]. by rewrite Hfind, Hc.
    + intros [= <- <-]. simpl. rewrite Hfind. simpl. by rewrite lookup_insert_eq.
  - (* none: a session is created and its row saved *)
    destruct (generateQuestions _ _) as [qs|]; [|discriminate].
    svc. intros [= <- <-]. simpl. rewrite try_writes_Healthy. simpl.
    rewrite findUnfinishedSession_saveSession. simpl.
    by rewrite lookup_insert_eq.
Qed.

End Creation.



(** ** Invariant: the progress index is never negative *)

Lemma rows_ok_updateRow sid f db :
  (∀ e, 0 <= InterviewSessionEntity.currentQuestionIndex e →
        0 <= InterviewSessionEntity.currentQuestionIndex (f e)) →
  rows_ok db → rows_ok (InterviewPersistenceService.updateRow sid f db).
Proof.
  intros Hf Hdb. unfold rows_ok, InterviewPersistenceService.updateRow. simpl.
  apply Forall_fmap. eapply Forall_impl; [exact Hdb|].
  intros e He. simpl. case_decide; auto.
Qed.

Lemma rows_ok_try_writes g ws db :
  Forall (λ w : Store → Store, ∀ d, rows_ok d → rows_ok (w d)) ws →
  rows_ok db → rows_ok (try_writes g ws db).
Proof.
  intros Hws. revert g db. induction Hws as [|w ws Hw _ IH]; intros g db Hdb.
  - by destruct g.
  - destruct g as [|[|n]]; unfold try_writes; fold try_writes; auto.
Qed.

Lemma rows_ok_mirrored g rid ws db :
  Forall (λ w : Store → Store, ∀ d, rows_ok d → rows_ok (w d)) ws →
  rows_ok db → rows_ok (mirrored g rid ws db).
Proof.
  intros Hws Hdb. unfold mirrored. destruct rid; [|done].
  by apply rows_ok_try_writes.
Qed.

Lemma rows_ok_saveAnswer sid i q c a sc fb db :
  rows_ok db → rows_ok (InterviewPersistenceService.saveAnswer sid i q c a sc fb db).
Proof. done. Qed.

Lemma rows_ok_updateSessionStatus sid st db :
  rows_ok db → rows_ok (InterviewPersistenceService.updateSessionStatus sid st db).
Proof. apply rows_ok_updateRow. done. Qed.

Lemma rows_ok_saveReport sid r db :
  rows_ok db → rows_ok (InterviewPersistenceService.saveReport sid r db).
Proof. apply rows_ok_updateRow. done. Qed.

Lemma rows_ok_updateCurrentQuestionIndex sid i db :
  0 <= i →
  rows_ok db → rows_ok (InterviewPersistenceService.updateCurrentQuestionIndex sid i db).
Proof. intros Hi. apply rows_ok_updateRow. done. Qed.

Lemma rows_ok_saveSession sid rid count qs db :
  rows_ok db → rows_ok (InterviewPersistenceService.saveSession sid rid count qs db).
Proof. intros Hdb. apply Forall_cons_2; [simpl; lia | exact Hdb]. Qed.

Lemma list_find_elem {A} (P : A → Prop) `{∀ x, Decision (P x)} (l : list A) p :
  list_find P l = Some p → p.2 ∈ l.
Proof.
  destruct p as [i x]. intros Hf. apply list_find_Some in Hf as (Hl & _ & _).
  by eapply list_elem_of_lookup_2.
Qed.

Lemma restoreSessionFromEntity_index entity db s :
  restoreSessionFromEntity entity db = Some s →
  currentIndex s = InterviewSessionEntity.currentQuestionIndex entity.
Proof. by intros [= <-]. Qed.

Lemma restoreSessionFromDatabase_index sid db s :
  rows_ok db → restoreSessionFromDatabase sid db = Some s → 0 <= currentIndex s.
Proof.
  intros Hdb. unfold restoreSessionFromDatabase,
    InterviewPersistenceService.findBySessionId.
  destruct (list_find _ _) as [p|] eqn:Hf; [|done]. simpl.
  intros Hr. rewrite (restoreSessionFromEntity_index _ _ _ Hr).
  apply list_find_elem in Hf.
  unfold rows_ok in Hdb. rewrite Forall_forall in Hdb. by apply Hdb.
Qed.

Lemma index_ok_assign sid s' sv db' :
  index_ok sv → 0 <= currentIndex s' → rows_ok db' →
  index_ok (mkService (<[sid := s']> (sessions sv)) db').
Proof.
  intros [Hm _] Hs' Hdb'. split; [|done]. simpl. intros id s.
  destruct (decide (sid = id)) as [->|Hne].
  - rewrite lookup_insert_eq. by intros [= <-].
  - rewrite lookup_insert_ne by done. apply Hm.
Qed.

Lemma index_ok_resolved sid sv s sv0 :
  index_ok sv → getOrRestoreSession sid sv = (inr s, sv0) →
  index_ok sv0 ∧ 0 <= currentIndex s.
Proof.
  intros Hok. unfold getOrRestoreSession. svc.
  destruct (sessions sv !! sid) as [c|] eqn:Hc.
  - intros [= <- <-]. split; [done|]. by apply (proj1 Hok sid).
  - destruct (restoreSessionFromDatabase sid (persistenceService sv)) as [r|] eqn:Hr;
      [|discriminate].
    intros [= <- <-].
    pose proof (restoreSessionFromDatabase_index _ _ _ (proj2 Hok) Hr) as Hi.
    split; [|done]. apply index_ok_assign; [done | done | apply Hok].
Qed.

Lemma effect_index `{AnswerEvaluationService} sid op s :
  0 <= currentIndex s → 0 <= currentIndex (effect sid op s).
Proof.
  intros Hi. destruct op as [|i a|i a| |]; simpl.
  - case_decide; [done|]. unfold started. by case_decide.
  - case_decide as Hv; [|done]. unfold valid_index in Hv. unfold afterSubmit.
    case_decide; simpl; lia.
  - case_decide; [|done]. unfold afterSave, started, answered.
    destruct (get _ _); by case_decide.
  - by case_decide.
  - case_decide; [done|]. by destruct (evaluateInterview _ _ _).
Qed.

Section Invariant.
Context {questionService : InterviewQuestionService}.
Context {evaluationService : AnswerEvaluationService}.

Ltac writes_ok :=
  apply rows_ok_mirrored;
  [ repeat first [apply Forall_nil_2 | apply Forall_cons_2]; intros d Hd;
    auto using rows_ok_saveAnswer, rows_ok_updateSessionStatus,
      rows_ok_saveReport, rows_ok_updateCurrentQuestionIndex
  | ].

(** The five operations keep the invariant, whatever the health of the
    store. *)
Lemma index_ok_exec g sid op sv :
  index_ok sv → index_ok (exec g sid op sv).
Proof.
  intros Hok.
  destruct (getOrRestoreSession sid sv) as [[e|s] sv0] eqn:Hres.
  { (* the session is not found: every operation raises at once *)
    destruct (getOrRestoreSession_fail _ _ _ _ Hres) as [_ ->].
    destruct op; simpl;
      [ unfold getCurrentQuestion | unfold submitAnswer | unfold saveAnswer
      | unfold completeInterview | unfold generateReport ];
      unfold bind at 1; simpl; by rewrite Hres. }
  destruct (index_ok_resolved _ _ _ _ Hok Hres) as [Hok0 Hi].
  pose proof (effect_index sid op s Hi) as Hi'.
  destruct op as [|i a|i a| |]; simpl in *.
  - rewrite (getCurrentQuestion_state g sid sv s sv0 Hres).
    case_decide; [done|]. case_decide; [|done].
    apply index_ok_assign; [done | done |]. writes_ok. apply Hok0.
  - case_decide as Hv.
    + pose proof (submitAnswer_valid g (SubmitAnswerRequest.mk sid i a)
                    sv s sv0 Hres Hv) as ->. simpl.
      apply index_ok_assign; [done | done |].
      unfold submitWrites.
      destruct (get (questions s) i);
        [|apply rows_ok_mirrored; [apply Forall_nil_2 | apply Hok0]].
      writes_ok; [|apply Hok0].
      apply rows_ok_updateCurrentQuestionIndex; [|done].
      unfold valid_index in Hv. lia.
    + by pose proof (submitAnswer_invalid g (SubmitAnswerRequest.mk sid i a)
                       sv s sv0 Hres Hv) as ->.
  - case_decide as Hv.
    + pose proof (saveAnswer_valid g (SubmitAnswerRequest.mk sid i a)
                    sv s sv0 Hres Hv) as ->. simpl.
      apply index_ok_assign; [done | done |].
      unfold saveWrites.
      destruct (get (questions s) i);
        [|apply rows_ok_mirrored; [apply Forall_nil_2 | apply Hok0]].
      writes_ok. apply Hok0.
    + by pose proof (saveAnswer_invalid g (SubmitAnswerRequest.mk sid i a)
                       sv s sv0 Hres Hv) as ->.
  - case_decide as Hst.
    + by rewrite (completeInterview_rejects g sid sv s sv0 Hres Hst).
    + rewrite (completeInterview_completes g sid sv s sv0 Hres Hst).
      apply index_ok_assign; [done | done |]. writes_ok. apply Hok0.
  - case_decide as Hst.
    + by rewrite (generateReport_rejects g sid sv s sv0 Hres Hst).
    + assert (status s = COMPLETED ∨ status s = EVALUATED) as Hst'.
      { destruct (status s); auto; exfalso; apply Hst; done. }
      rewrite (generateReport_evaluates g sid sv s sv0 Hres Hst').
      destruct (evaluateInterview _ _ _); [|done].
      apply index_ok_assign; [done | done |]. writes_ok. apply Hok0.
Qed.

Lemma index_ok_createFresh uuid g request sv :
  index_ok sv → index_ok (createFresh uuid g request sv).2.
Proof.
  intros Hok. unfold createFresh.
  destruct (generateQuestions _ _) as [qs|]; [|done]. simpl.
  apply index_ok_assign; [done | simpl; lia |].
  destruct (CreateInterviewRequest.resumeId request) as [rid|]; [|apply Hok].
  apply rows_ok_try_writes; [|apply Hok].
  apply Forall_cons_2; [|apply Forall_nil_2].
  intros d Hd. by apply rows_ok_saveSession.
Qed.

Lemma index_ok_findUnfinishedSession rid sv :
  index_ok sv → index_ok (findUnfinishedSession rid sv).2.
Proof.
  intros Hok. rewrite findUnfinishedSession_run.
  destruct (InterviewPersistenceService.findUnfinishedSession rid
              (persistenceService sv)) as [entity|] eqn:Hfind; [|done].
  simpl. destruct (sessions sv !! _); [done|]. simpl.
  apply index_ok_assign; [done | | apply Hok]. simpl.
  unfold InterviewPersistenceService.findUnfinishedSession in Hfind.
  destruct (list_find _ _) as [p|] eqn:Hf; [|done]. injection Hfind as <-.
  apply list_find_elem in Hf. destruct Hok as [_ Hdb].
  unfold rows_ok in Hdb. rewrite Forall_forall in Hdb. by apply Hdb.
Qed.

Lemma index_ok_createSession uuid g request sv :
  index_ok sv → index_ok (createSession uuid g request sv).2.
Proof.
  intros Hok. rewrite createSession_run.
  destruct (CreateInterviewRequest.resumeId request) as [rid|];
    [|by apply index_ok_createFresh].
  pose proof (index_ok_findUnfinishedSession rid sv Hok) as Hok'.
  destruct (findUnfinishedSession rid sv) as [[e|[dto|]] sv']; try done.
  by apply index_ok_createFresh.
Qed.

Lemma index_ok_empty db : rows_ok db → index_ok (mkService ∅ db).
Proof. intros Hdb. split; [|done]. intros id s. simpl. by rewrite lookup_empty. Qed.

End Invariant.


(** ** Rebuilding the questions from the answer rows *)

Lemma set_set_eq {A} (l : list A) (i : Z) (x y : A) :
  set (set l i x) i y = set l i y.
Proof. unfold set. apply list_insert_insert_eq. Qed.

Lemma set_set_ne {A} (l : list A) (i j : Z) (x y : A) :
  0 <= i → 0 <= j → i ≠ j → set (set l i x) j y = set (set l j y) i x.
Proof. unfold set. intros ? ? ?. apply list_insert_insert_ne. lia. Qed.

Lemma applyAnswer_valid qs r :
  let i := InterviewAnswerEntity.questionIndex r in
  0 <= i < size qs →
  ∃ q, get qs i = Some q
       ∧ applyAnswer qs r
         = set qs i (withAnswer q (InterviewAnswerEntity.userAnswer r)).
Proof.
  intros i Hi. destruct (proj2 (get_is_Some qs i) Hi) as [q Hq].
  exists q. split; [done|]. unfold applyAnswer. fold i.
  rewrite decide_True by lia. by rewrite Hq.
Qed.

Lemma applyAnswer_invalid qs r :
  ¬ (0 <= InterviewAnswerEntity.questionIndex r < size qs) →
  applyAnswer qs r = qs.
Proof. intros Hi. unfold applyAnswer. by rewrite decide_False by lia. Qed.

Lemma size_applyAnswer qs r : size (applyAnswer qs r) = size qs.
Proof.
  destruct (decide (0 <= InterviewAnswerEntity.questionIndex r < size qs)) as [Hi|Hi].
  - destruct (applyAnswer_valid qs r Hi) as (q & _ & ->). apply size_set.
  - by rewrite applyAnswer_invalid.
Qed.

Lemma size_foldl_applyAnswer qs rows : size (foldl applyAnswer qs rows) = size qs.
Proof.
  revert qs. induction rows as [|r rows IH]; intros qs; [done|].
  simpl. by rewrite IH, size_applyAnswer.
Qed.

(** An answer row and a write at another index commute. *)
Lemma applyAnswer_set qs r i x :
  0 <= i → InterviewAnswerEntity.questionIndex r ≠ i →
  applyAnswer (set qs i x) r = set (applyAnswer qs r) i x.
Proof.
  intros Hi Hne.
  destruct (decide (0 <= InterviewAnswerEntity.questionIndex r < size qs)) as [Hr|Hr].
  - destruct (applyAnswer_valid qs r Hr) as (q & Hq & ->).
    destruct (applyAnswer_valid (set qs i x) r) as (q' & Hq' & ->);
      [by rewrite size_set|].
    rewrite get_set_ne in Hq' by done. rewrite Hq in Hq'. injection Hq' as <-.
    apply set_set_ne; [done | lia | done].
  - rewrite (applyAnswer_invalid qs r Hr).
    apply applyAnswer_invalid. by rewrite size_set.
Qed.

Lemma foldl_applyAnswer_set qs rows i x :
  0 <= i → i ∉ indexes rows →
  foldl applyAnswer (set qs i x) rows = set (foldl applyAnswer qs rows) i x.
Proof.
  intros Hi. revert qs. induction rows as [|r rows IH]; intros qs Hnot; [done|].
  simpl. unfold indexes in Hnot. rewrite fmap_cons, not_elem_of_cons in Hnot.
  destruct Hnot as [Hne Hnot].
  rewrite applyAnswer_set by done. by apply IH.
Qed.

Lemma upsert_indexes row rows j :
  j ∈ indexes (InterviewPersistenceService.upsert row rows) →
  j = InterviewAnswerEntity.questionIndex row ∨ j ∈ indexes rows.
Proof.
  unfold indexes. induction rows as [|r rows IH]; simpl.
  - rewrite list_elem_of_singleton. auto.
  - destruct (InterviewPersistenceService.same_slot _ _ r); simpl;
      rewrite !elem_of_cons; intuition.
Qed.

Section OneSession.
Variable sid : string.
Variable row : InterviewAnswerEntity.t.
Hypothesis row_sid : InterviewAnswerEntity.sessionId row = sid.

Let own (a : InterviewAnswerEntity.t) : Prop := InterviewAnswerEntity.sessionId a = sid.

Lemma same_slot_own r :
  own r →
  InterviewPersistenceService.same_slot (InterviewAnswerEntity.sessionId row)
    (InterviewAnswerEntity.questionIndex row) r
  = bool_decide (InterviewAnswerEntity.questionIndex r
                 = InterviewAnswerEntity.questionIndex row).
Proof.
  intros Hr. unfold InterviewPersistenceService.same_slot.
  apply bool_decide_ext. unfold own in Hr. rewrite row_sid. tauto.
Qed.

(** The rows of one session after an upsert of a row of that session are
    the session's rows with the upsert done among them. *)
Lemma filter_upsert rows :
  filter own (InterviewPersistenceService.upsert row rows)
  = InterviewPersistenceService.upsert row (filter own rows).
Proof.
  induction rows as [|r rows IH]; simpl.
  - by rewrite filter_cons_True, filter_nil.
  - destruct (decide (own r)) as [Hr|Hr].
    + rewrite (filter_cons_True own r rows Hr). simpl.
      destruct (InterviewPersistenceService.same_slot _ _ r).
      * by rewrite filter_cons_True.
      * by rewrite filter_cons_True, IH.
    + rewrite (filter_cons_False own r rows Hr).
      assert (InterviewPersistenceService.same_slot
                (InterviewAnswerEntity.sessionId row)
                (InterviewAnswerEntity.questionIndex row) r = false) as ->.
      { unfold InterviewPersistenceService.same_slot.
        apply bool_decide_eq_false_2. intros [Hs _]. apply Hr.
        unfold own. by rewrite Hs. }
      by rewrite filter_cons_False.
Qed.

Lemma NoDup_upsert rows :
  Forall own rows → NoDup (indexes rows) →
  NoDup (indexes (InterviewPersistenceService.upsert row rows)).
Proof.
  induction rows as [|r rows IH]; intros Hown Hnd; simpl.
  - apply NoDup_singleton.
  - apply Forall_cons in Hown as [Hr Hown].
    unfold indexes in Hnd. rewrite fmap_cons in Hnd.
    apply NoDup_cons in Hnd as [Hnot Hnd].
    rewrite (same_slot_own r Hr). case_bool_decide as Heq.
    + unfold indexes. rewrite fmap_cons, <- Heq. by apply NoDup_cons.
    + unfold indexes. rewrite fmap_cons. apply NoDup_cons. split; [|by apply IH].
      intros Hin. apply upsert_indexes in Hin as [?|?]; done.
Qed.

(** Rebuilding from the rows after an upsert is rebuilding from the rows
    before it and then writing the answer at the row's index. *)
Lemma foldl_applyAnswer_upsert qs rows :
  let i := InterviewAnswerEntity.questionIndex row in
  Forall own rows → NoDup (indexes rows) → 0 <= i < size qs →
  ∃ q, get (foldl applyAnswer qs rows) i = Some q
       ∧ foldl applyAnswer qs (InterviewPersistenceService.upsert row rows)
         = set (foldl applyAnswer qs rows) i
             (withAnswer q (InterviewAnswerEntity.userAnswer row)).
Proof.
  intros i. revert qs. induction rows as [|r rows IH]; intros qs Hown Hnd Hi.
  - simpl. by apply applyAnswer_valid.
  - apply Forall_cons in Hown as [Hr Hown].
    unfold indexes in Hnd. rewrite fmap_cons in Hnd.
    apply NoDup_cons in Hnd as [Hnot Hnd].
    simpl. rewrite (same_slot_own r Hr). case_bool_decide as Heq.
    + subst i. simpl.
      destruct (applyAnswer_valid qs row Hi) as (q0 & Hq0 & ->).
      destruct (applyAnswer_valid qs r) as (q1 & Hq1 & ->); [by rewrite Heq|].
      rewrite Heq in Hq1, Hnot |- *. simpl in *.
      assert (q1 = q0) as -> by congruence.
      rewrite !foldl_applyAnswer_set by (done || lia).
      exists (withAnswer q0 (InterviewAnswerEntity.userAnswer r)). split.
      * apply get_set_eq. by rewrite size_foldl_applyAnswer.
      * by rewrite set_set_eq.
    + simpl. apply IH; [done | done | by rewrite size_applyAnswer].
Qed.

End OneSession.

(** ** The store mirrors questions and progress *)

Lemma list_find_value_cons {A} (P : A → Prop) `{∀ x, Decision (P x)} x l :
  list_find P (x :: l) ≫= (λ p, Some p.2)
  = if decide (P x) then Some x else list_find P l ≫= (λ p, Some p.2).
Proof. simpl. case_decide; [done|]. by destruct (list_find P l) as [[? ?]|]. Qed.

Lemma findBySessionId_updateRow sid f db :
  (∀ e, InterviewSessionEntity.sessionId (f e) = InterviewSessionEntity.sessionId e) →
  InterviewPersistenceService.findBySessionId sid
    (InterviewPersistenceService.updateRow sid f db)
  = f <$> InterviewPersistenceService.findBySessionId sid db.
Proof.
  intros Hf. unfold InterviewPersistenceService.findBySessionId,
    InterviewPersistenceService.updateRow. simpl.
  induction (InterviewPersistenceService.sessionRows db) as [|e rows IH]; [done|].
  rewrite fmap_cons, !list_find_value_cons.
  destruct (decide (InterviewSessionEntity.sessionId e = sid)) as [He|He].
  - by rewrite decide_True by (by rewrite Hf).
  - by rewrite decide_False by done.
Qed.

Lemma findAnswersBySessionId_saveAnswer sid i q c a sc fb db :
  InterviewPersistenceService.findAnswersBySessionId sid
    (InterviewPersistenceService.saveAnswer sid i q c a sc fb db)
  = InterviewPersistenceService.upsert
      (InterviewAnswerEntity.mk sid i q c a sc fb)
      (InterviewPersistenceService.findAnswersBySessionId sid db).
Proof.
  unfold InterviewPersistenceService.findAnswersBySessionId,
    InterviewPersistenceService.saveAnswer. simpl.
  by apply (filter_upsert sid).
Qed.

Lemma findAnswersBySessionId_updateRow sid sid' f db :
  InterviewPersistenceService.findAnswersBySessionId sid
    (InterviewPersistenceService.updateRow sid' f db)
  = InterviewPersistenceService.findAnswersBySessionId sid db.
Proof. done. Qed.

Lemma findAnswersBySessionId_own sid db :
  Forall (λ a, InterviewAnswerEntity.sessionId a = sid)
    (InterviewPersistenceService.findAnswersBySessionId sid db).
Proof.
  apply Forall_forall. intros a Ha.
  unfold InterviewPersistenceService.findAnswersBySessionId in Ha.
  by apply list_elem_of_filter in Ha as [? _].
Qed.

(** What a rebuilt session is made of. *)
Lemma restoreSessionFromDatabase_Some sid db e :
  InterviewPersistenceService.findBySessionId sid db = Some e →
  restoreSessionFromDatabase sid db =
    Some (mkSession (InterviewSessionEntity.sessionId e)
            (InterviewPersistenceService.resumeTextOf e db)
            (Some (InterviewSessionEntity.resumeId e))
            (foldl applyAnswer (InterviewSessionEntity.questionsJson e)
               (InterviewPersistenceService.findAnswersBySessionId
                  (InterviewSessionEntity.sessionId e) db))
            (InterviewSessionEntity.currentQuestionIndex e)
            (convertStatus (InterviewSessionEntity.status e))).
Proof. intros He. unfold restoreSessionFromDatabase. by rewrite He. Qed.

Lemma findBySessionId_sessionId sid db e :
  InterviewPersistenceService.findBySessionId sid db = Some e →
  InterviewSessionEntity.sessionId e = sid.
Proof.
  unfold InterviewPersistenceService.findBySessionId.
  destruct (list_find _ _) as [[n x]|] eqn:Hf; [|done]. simpl. intros [= <-].
  by apply list_find_Some in Hf as (_ & ? & _).
Qed.

Arguments restoreSessionFromDatabase : simpl never.

(** A mirrored session, rebuilt from the store alone, has the questions,
    the answers and the progress index of the session in memory. *)
Lemma store_mirrors_restore sid sv :
  store_mirrors sid sv →
  ∃ inMemory restored,
    sessions sv !! sid = Some inMemory
    ∧ getOrRestoreSession sid (mkService ∅ (persistenceService sv))
      = (inr restored, mkService {[sid := restored]} (persistenceService sv))
    ∧ questions restored = questions inMemory
    ∧ answers_of restored = answers_of inMemory
    ∧ currentIndex restored = currentIndex inMemory
    ∧ storedStatus sid (persistenceService sv) = Some (status restored).
Proof.
  intros (s & e & Hs & _ & He & Hqs & Hidx & _).
  pose proof (findBySessionId_sessionId _ _ _ He) as Hid.
  unfold storedStatus. rewrite He.
  eexists s, _. split; [done|]. split.
  - unfold getOrRestoreSession. svc. rewrite lookup_empty.
    rewrite (restoreSessionFromDatabase_Some sid
               (persistenceService (mkService ∅ (persistenceService sv))) e He).
    simpl.
    by rewrite insert_empty.
  - simpl. unfold answers_of. simpl. rewrite Hid, Hqs. done.
Qed.

(** A write that touches only the status or the report of the session row
    keeps the mirror, for a session with the same questions and index. *)
Lemma store_mirrors_status_write sid sv s s' f :
  sessions sv !! sid = Some s →
  questions s' = questions s → currentIndex s' = currentIndex s →
  resumeId s' = resumeId s →
  (∀ e, InterviewSessionEntity.sessionId (f e) = InterviewSessionEntity.sessionId e
        ∧ InterviewSessionEntity.questionsJson (f e)
          = InterviewSessionEntity.questionsJson e
        ∧ InterviewSessionEntity.currentQuestionIndex (f e)
          = InterviewSessionEntity.currentQuestionIndex e) →
  store_mirrors sid sv →
  store_mirrors sid
    (mkService (<[sid := s']> (sessions sv))
       (mirrored Healthy (resumeId s)
          [InterviewPersistenceService.updateRow sid f] (persistenceService sv))).
Proof.
  intros Hs Hq Hi Hr Hf (s0 & e & Hs0 & [rid Hrid] & He & Hqs & Hidx & Hnd).
  rewrite Hs in Hs0. injection Hs0 as <-.
  unfold mirrored. rewrite Hrid, try_writes_Healthy. simpl.
  exists s', (f e). simpl. rewrite lookup_insert_eq.
  rewrite findBySessionId_updateRow by (intros; apply Hf). rewrite He.
  destruct (Hf e) as (_ & -> & ->).
  split_and!; try done.
  - rewrite Hr, Hrid. by eexists.
  - by rewrite Hq.
  - by rewrite Hi.
Qed.

Lemma store_mirrors_answer_write sid sv s i a q :
  sessions sv !! sid = Some s →
  get (questions s) i = Some q →
  store_mirrors sid sv →
  let db := InterviewPersistenceService.saveAnswer sid i (question q) (category q)
              a 0 None (persistenceService sv) in
  InterviewPersistenceService.findBySessionId sid db
    = InterviewPersistenceService.findBySessionId sid (persistenceService sv)
  ∧ (∀ e, InterviewPersistenceService.findBySessionId sid (persistenceService sv)
          = Some e →
          foldl applyAnswer (InterviewSessionEntity.questionsJson e)
            (InterviewPersistenceService.findAnswersBySessionId sid db)
          = set (questions s) i (withAnswer q a))
  ∧ NoDup (indexes (InterviewPersistenceService.findAnswersBySessionId sid db)).
Proof.
  intros Hs Hq (s0 & e & Hs0 & _ & He & Hqs & _ & Hnd) db.
  rewrite Hs in Hs0. injection Hs0 as <-.
  assert (0 <= i < size (questions s)) as Hi by (apply get_is_Some; by eexists).
  split; [done|]. subst db. rewrite findAnswersBySessionId_saveAnswer.
  set (row := InterviewAnswerEntity.mk sid i (question q) (category q) a 0 None).
  pose proof (findAnswersBySessionId_own sid (persistenceService sv)) as Hown.
  split.
  - intros e' He'. rewrite He in He'. injection He' as <-.
    destruct (foldl_applyAnswer_upsert sid row eq_refl
                (InterviewSessionEntity.questionsJson e)
                (InterviewPersistenceService.findAnswersBySessionId sid
                   (persistenceService sv)) Hown Hnd) as (q' & Hq' & ->).
    { simpl. rewrite <- (size_foldl_applyAnswer _
        (InterviewPersistenceService.findAnswersBySessionId sid
           (persistenceService sv))), Hqs. done. }
    simpl in *. rewrite Hqs in Hq' |- *. by assert (q' = q) as -> by congruence.
  - by apply (NoDup_upsert sid row eq_refl).
Qed.

Section Mirror.
Context {questionService : InterviewQuestionService}.
Context {evaluationService : AnswerEvaluationService}.

(** With a healthy store, each operation keeps the mirror. *)
Lemma store_mirrors_exec sid op sv :
  store_mirrors sid sv → store_mirrors sid (exec Healthy sid op sv).
Proof.
  intros Hm. pose proof Hm as (s & e & Hs & [rid Hrid] & He & Hqs & Hidx & Hnd).
  pose proof (getOrRestoreSession_cached sid sv s Hs) as Hres.
  destruct op as [|i a|i a| |]; simpl.
  - rewrite (getCurrentQuestion_state Healthy sid sv s sv Hres).
    case_decide; [done|]. case_decide; [|done].
    apply store_mirrors_status_write; try done; unfold started; by case_decide.
  - destruct (decide (valid_index i s)) as [Hv|Hv].
    + pose proof (submitAnswer_valid Healthy (SubmitAnswerRequest.mk sid i a)
                    sv s sv Hres Hv) as ->. simpl.
      destruct (proj2 (get_is_Some (questions s) i) Hv) as [q Hq].
      destruct (store_mirrors_answer_write sid sv s i a q Hs Hq Hm)
        as (Hfind & Hrebuild & Hnd').
      unfold mirrored, submitWrites. rewrite Hrid, Hq, try_writes_Healthy. simpl.
      eexists (afterSubmit i a s), _. simpl. rewrite lookup_insert_eq.
      unfold InterviewPersistenceService.updateSessionStatus,
        InterviewPersistenceService.updateCurrentQuestionIndex.
      rewrite !findBySessionId_updateRow, !findAnswersBySessionId_updateRow by done.
      rewrite Hfind, He. simpl.
      split_and!; try done.
      * unfold afterSubmit, answered. rewrite Hq. case_decide; simpl; by eexists.
      * cbn [InterviewSessionEntity.questionsJson].
        rewrite (Hrebuild e He). unfold afterSubmit, answered. rewrite Hq.
        by case_decide.
      * cbn [InterviewSessionEntity.currentQuestionIndex].
        unfold afterSubmit. by case_decide.
    + by pose proof (submitAnswer_invalid Healthy (SubmitAnswerRequest.mk sid i a)
                       sv s sv Hres Hv) as ->.
  - destruct (decide (valid_index i s)) as [Hv|Hv].
    + pose proof (saveAnswer_valid Healthy (SubmitAnswerRequest.mk sid i a)
                    sv s sv Hres Hv) as ->. simpl.
      destruct (proj2 (get_is_Some (questions s) i) Hv) as [q Hq].
      destruct (store_mirrors_answer_write sid sv s i a q Hs Hq Hm)
        as (Hfind & Hrebuild & Hnd').
      unfold mirrored, saveWrites. rewrite Hrid, Hq, try_writes_Healthy. simpl.
      eexists (afterSave i a s), _. simpl. rewrite lookup_insert_eq.
      unfold InterviewPersistenceService.updateSessionStatus,
        InterviewPersistenceService.updateCurrentQuestionIndex.
      rewrite !findBySessionId_updateRow, !findAnswersBySessionId_updateRow by done.
      rewrite Hfind, He. simpl.
      split_and!; try done.
      * unfold afterSave, started, answered. rewrite Hq.
        case_decide; simpl; by eexists.
      * cbn [InterviewSessionEntity.questionsJson].
        rewrite (Hrebuild e He). unfold afterSave, started, answered. rewrite Hq.
        by case_decide.
      * cbn [InterviewSessionEntity.currentQuestionIndex].
        unfold afterSave, started, answered. rewrite Hq. by case_decide.
    + by pose proof (saveAnswer_invalid Healthy (SubmitAnswerRequest.mk sid i a)
                       sv s sv Hres Hv) as ->.
  - destruct (decide (status s = COMPLETED ∨ status s = EVALUATED)) as [Hst|Hst].
    + by rewrite (completeInterview_rejects Healthy sid sv s sv Hres Hst).
    + rewrite (completeInterview_completes Healthy sid sv s sv Hres Hst).
      apply store_mirrors_status_write; try done.
  - destruct (decide (status s ≠ COMPLETED ∧ status s ≠ EVALUATED)) as [Hst|Hst].
    + by rewrite (generateReport_rejects Healthy sid sv s sv Hres Hst).
    + assert (status s = COMPLETED ∨ status s = EVALUATED) as Hst'.
      { destruct (status s); auto; exfalso; apply Hst; done. }
      rewrite (generateReport_evaluates Healthy sid sv s sv Hres Hst').
      destruct (evaluateInterview _ _ _); [|done].
      apply store_mirrors_status_write; try done.
Qed.

End Mirror.

Section MirrorRuns.
Context {questionService : InterviewQuestionService}.
Context {evaluationService : AnswerEvaluationService}.

Lemma store_mirrors_run sid ops sv :
  Forall (λ gop : Gateway * Op, gop.1 = Healthy) ops →
  store_mirrors sid sv → store_mirrors sid (run sid ops sv).
Proof.
  intros Hops. revert sv. induction Hops as [|[g op] ops Hg _ IH]; intros sv Hm;
    [done|].
  simpl in Hg. subst g. simpl. apply IH. by apply store_mirrors_exec.
Qed.

(** A session created for a subject with a healthy store, under an
    identifier that no answer row carries yet, is mirrored. *)
Lemma store_mirrors_createFresh uuid request rid sv dto sv1 :
  CreateInterviewRequest.resumeId request = Some rid →
  InterviewPersistenceService.findAnswersBySessionId uuid (persistenceService sv) = [] →
  createFresh uuid Healthy request sv = (inr dto, sv1) →
  store_mirrors uuid sv1
  ∧ sessions sv1 !! uuid
    = Some (mkSession uuid (CreateInterviewRequest.resumeText request) (Some rid)
              (InterviewSessionDTO.questions dto) 0 CREATED)
  ∧ storedStatus uuid (persistenceService sv1) = Some CREATED.
Proof.
  intros Hrid Hrows. unfold createFresh. rewrite Hrid.
  destruct (generateQuestions _ _) as [qs|]; [|discriminate].
  intros [= <- <-]. rewrite try_writes_Healthy.
  cbn [foldl sessions persistenceService toDTO InterviewSessionDTO.questions questions].
  rewrite lookup_insert_eq.
  set (db1 := InterviewPersistenceService.saveSession uuid rid
                (CreateInterviewRequest.questionCount request) qs
                (persistenceService sv)).
  assert (InterviewPersistenceService.findBySessionId uuid db1
          = Some (InterviewSessionEntity.mk uuid rid
                    (CreateInterviewRequest.questionCount request) qs 0
                    InterviewSessionEntity.CREATED None)) as Hrow.
  { unfold InterviewPersistenceService.findBySessionId. subst db1.
    unfold InterviewPersistenceService.saveSession.
    cbn [InterviewPersistenceService.sessionRows].
    rewrite list_find_value_cons. by rewrite decide_True. }
  assert (InterviewPersistenceService.findAnswersBySessionId uuid db1 = [])
    as Hrows1 by exact Hrows.
  split_and!; [|done|].
  - eexists _, _. cbn [sessions persistenceService]. rewrite lookup_insert_eq.
    split_and!; [done | by eexists | exact Hrow | | done |].
    + by rewrite Hrows1.
    + rewrite Hrows1. apply NoDup_nil_2.
  - unfold storedStatus. by rewrite Hrow.
Qed.

(** One submit on a persisted session that is CREATED in memory, when a
    question remains after it: in memory the status stays CREATED, the store
    is told IN_PROGRESS. *)
Lemma submit_created_diverges sid i a sv s :
  sessions sv !! sid = Some s →
  is_Some (resumeId s) →
  is_Some (InterviewPersistenceService.findBySessionId sid (persistenceService sv)) →
  status s = CREATED →
  0 <= i → i + 1 < size (questions s) →
  let sv' := exec Healthy sid (SubmitAnswer i a) sv in
  ∃ s', sessions sv' !! sid = Some s'
        ∧ status s' = CREATED
        ∧ currentIndex s' = i + 1
        ∧ size (questions s') = size (questions s)
        ∧ resumeId s' = resumeId s
        ∧ storedStatus sid (persistenceService sv') = Some IN_PROGRESS.
Proof.
  intros Hs [rid Hrid] [e He] Hst H0 Hi sv'. subst sv'. simpl.
  pose proof (getOrRestoreSession_cached sid sv s Hs) as Hres.
  assert (valid_index i s) as Hv by (unfold valid_index; lia).
  pose proof (submitAnswer_valid Healthy (SubmitAnswerRequest.mk sid i a)
                sv s sv Hres Hv) as ->. simpl.
  destruct (proj2 (get_is_Some (questions s) i) Hv) as [q Hq].
  exists (afterSubmit i a s). rewrite lookup_insert_eq.
  assert (afterSubmit i a s
          = set_currentIndex (i + 1)
              (set_questions (set (questions s) i (withAnswer q a)) s)) as Hafter.
  { unfold afterSubmit, answered. rewrite Hq. by rewrite decide_True by done. }
  rewrite Hafter. simpl. rewrite size_set. split_and!; try done.
  unfold storedStatus, mirrored, submitWrites. rewrite Hrid, Hq, try_writes_Healthy.
  rewrite Hafter. simpl. rewrite Hst. simpl.
  unfold InterviewPersistenceService.updateSessionStatus,
    InterviewPersistenceService.updateCurrentQuestionIndex.
  rewrite !findBySessionId_updateRow by done.
  change (InterviewPersistenceService.findBySessionId sid
            (InterviewPersistenceService.saveAnswer sid i (question q) (category q)
               a 0 None (persistenceService sv)))
    with (InterviewPersistenceService.findBySessionId sid (persistenceService sv)).
  by rewrite He.
Qed.

Lemma storedStatus_is_Some sid db st :
  storedStatus sid db = Some st →
  is_Some (InterviewPersistenceService.findBySessionId sid db).
Proof.
  unfold storedStatus.
  destruct (InterviewPersistenceService.findBySessionId sid db); [by eexists|done].
Qed.

Lemma submitsFrom_healthy i answers :
  Forall (λ gop : Gateway * Op, gop.1 = Healthy) (submitsFrom i answers).
Proof.
  revert i. induction answers as [|a rest IH]; intros i; simpl.
  - apply Forall_nil_2.
  - apply Forall_cons_2; [done | apply IH].
Qed.

Lemma submits_keep_created sid answers : ∀ i sv s,
  sessions sv !! sid = Some s →
  is_Some (resumeId s) →
  is_Some (InterviewPersistenceService.findBySessionId sid (persistenceService sv)) →
  status s = CREATED →
  0 <= i → i + size answers < size (questions s) →
  answers ≠ [] →
  let sv' := run sid (submitsFrom i answers) sv in
  ∃ s', sessions sv' !! sid = Some s'
        ∧ status s' = CREATED
        ∧ currentIndex s' = i + size answers
        ∧ storedStatus sid (persistenceService sv') = Some IN_PROGRESS.
Proof.
  induction answers as [|a rest IH]; intros i sv s Hs Hr He Hst H0 Hn Hne; [done|].
  assert (size (a :: rest) = 1 + size rest) as Hsz by (unfold size; simpl; lia).
  rewrite Hsz in Hn |- *.
  assert (0 <= size rest) by (unfold size; lia).
  destruct (submit_created_diverges sid i a sv s Hs Hr He Hst H0)
    as (s1 & Hs1 & Hst1 & Hi1 & Hsz1 & Hr1 & Hdb1); [lia|].
  simpl. destruct rest as [|b rest'].
  - simpl. exists s1. split_and!; try done.
  - destruct (IH (i + 1) (exec Healthy sid (SubmitAnswer i a) sv) s1)
      as (s' & Hs' & Hst' & Hi' & Hdb'); try done.
    + by rewrite Hr1.
    + by eapply storedStatus_is_Some.
    + lia.
    + rewrite Hsz1. lia.
    + exists s'. split_and!; try done. lia.
Qed.

(** The general shape of what C1 runs into.  A session is created for a
    subject, no unfinished one being there, under an identifier that no
    answer row carries, and [N] answers are submitted in order, with
    [0 < N < L]; every write reaches the store.  The session rebuilt from the
    store alone has the questions, the answers and the [currentIndex = N] of
    the session in memory, but the session in memory is CREATED and the
    rebuilt one IN_PROGRESS. *)
Lemma restore_after_submits uuid request rid sv dto sv1 answers :
  CreateInterviewRequest.resumeId request = Some rid →
  InterviewPersistenceService.findUnfinishedSession rid (persistenceService sv) = None →
  InterviewPersistenceService.findAnswersBySessionId uuid (persistenceService sv) = [] →
  createSession uuid Healthy request sv = (inr dto, sv1) →
  answers ≠ [] →
  size answers < InterviewSessionDTO.totalQuestions dto →
  let sv2 := run uuid (submitsFrom 0 answers) sv1 in
  ∃ inMemory restored,
    sessions sv2 !! uuid = Some inMemory
    ∧ getOrRestoreSession uuid (mkService ∅ (persistenceService sv2))
      = (inr restored, mkService {[uuid := restored]} (persistenceService sv2))
    ∧ questions restored = questions inMemory
    ∧ answers_of restored = answers_of inMemory
    ∧ currentIndex restored = size answers
    ∧ currentIndex inMemory = size answers
    ∧ status inMemory = CREATED
    ∧ status restored = IN_PROGRESS.
Proof.
  intros Hrid Hnone Hrows Hcreate Hne Hlt sv2.
  rewrite createSession_run, Hrid, findUnfinishedSession_run, Hnone in Hcreate.
  destruct (store_mirrors_createFresh uuid request rid sv dto sv1 Hrid Hrows Hcreate)
    as (Hm1 & Hs1 & Hdb1).
  assert (InterviewSessionDTO.totalQuestions dto
          = size (InterviewSessionDTO.questions dto)) as Htotal.
  { unfold createFresh in Hcreate.
    destruct (generateQuestions _ _); [|discriminate]. by injection Hcreate as <- _. }
  destruct (submits_keep_created uuid answers 0 sv1 _ Hs1)
    as (s2 & Hs2 & Hst2 & Hi2 & Hdb2); try done.
  { by eapply storedStatus_is_Some. }
  { simpl. lia. }
  pose proof (store_mirrors_run uuid (submitsFrom 0 answers) sv1
                (submitsFrom_healthy 0 answers) Hm1) as Hm2.
  destruct (store_mirrors_restore uuid _ Hm2)
    as (m & r & Hm & Hres & Hq & Ha & Hi & Hst).
  fold sv2 in Hs2, Hdb2, Hm, Hres, Hst.
  rewrite Hs2 in Hm. injection Hm as <-.
  exists s2, r. rewrite Hdb2 in Hst. injection Hst as Hst.
  split_and!; try done; lia.
Qed.

End MirrorRuns.

(** The lemma above at the concrete interview, two answers out of three. *)
Lemma restore_after_submits_scenario :
  let sv2 := run (evaluationService := Scenario.evaluator) Scenario.sid
               (submitsFrom 0 [Some "first"%string; Some "second"%string])
               (Scenario.created 3) in
  ∃ inMemory restored,
    sessions sv2 !! Scenario.sid = Some inMemory
    ∧ (getOrRestoreSession Scenario.sid (Scenario.evicted sv2)).1 = inr restored
    ∧ questions restored = questions inMemory
    ∧ currentIndex restored = 2
    ∧ status inMemory = CREATED
    ∧ status restored = IN_PROGRESS.
Proof.
  intros sv2.
  destruct (restore_after_submits (questionService := Scenario.generator)
              (evaluationService := Scenario.evaluator)
              Scenario.sid (Scenario.resumeOf 7 3) 7 Scenario.fresh
              (toDTO (Scenario.initial 3)) (Scenario.created 3)
              [Some "first"%string; Some "second"%string])
    as (m & r & Hm & Hres & Hq & _ & Hi & _ & Hsm & Hsr);
    try done.
  exists m, r. unfold Scenario.evicted. fold sv2 in Hres. rewrite Hres.
  by split_and!.
Qed.


(** ** Resuming after other calls on the session *)







Lemma effect_sessionId `{AnswerEvaluationService} sid op s :
  sessionId (effect sid op s) = sessionId s.
Proof.
  destruct op as [|i a|i a| |]; simpl.
  - case_decide; [done|]. unfold started. by case_decide.
  - case_decide; [|done]. unfold afterSubmit, answered.
    destruct (get _ _); by case_decide.
  - case_decide; [|done]. unfold afterSave, started, answered.
    destruct (get _ _); by case_decide.
  - by case_decide.
  - case_decide; [done|]. by destruct (evaluateInterview _ _ _).
Qed.

Section Resume.
Context {questionService : InterviewQuestionService}.
Context {evaluationService : AnswerEvaluationService}.





End Resume.

(** ** Sessions are held under their own identifier *)

Lemma cache_ok_assign sid s' sv db' :
  cache_ok sv → sessionId s' = sid →
  cache_ok (mkService (<[sid := s']> (sessions sv)) db').
Proof.
  intros Hc Hs' id s. simpl. destruct (decide (sid = id)) as [->|Hne].
  - rewrite lookup_insert_eq. by intros [= <-].
  - rewrite lookup_insert_ne by done. apply Hc.
Qed.

Lemma cache_ok_empty db : cache_ok (mkService ∅ db).
Proof. intros id s. simpl. by rewrite lookup_empty. Qed.

Lemma cache_ok_resolved sid sv s sv0 :
  cache_ok sv → getOrRestoreSession sid sv = (inr s, sv0) →
  cache_ok sv0 ∧ sessionId s = sid.
Proof.
  intros Hc. unfold getOrRestoreSession. svc.
  destruct (sessions sv !! sid) as [c|] eqn:Hcached.
  - intros [= <- <-]. split; [done|]. by apply Hc.
  - destruct (restoreSessionFromDatabase sid (persistenceService sv)) as [r|] eqn:Hr;
      [|discriminate].
    intros [= <- <-].
    assert (sessionId r = sid) as Hid.
    { unfold restoreSessionFromDatabase in Hr.
      destruct (InterviewPersistenceService.findBySessionId sid _) as [e|] eqn:He;
        [|done].
      injection Hr as <-. simpl. by apply findBySessionId_sessionId in He. }
    split; [|done]. by apply cache_ok_assign.
Qed.

Section Cache.
Context {questionService : InterviewQuestionService}.
Context {evaluationService : AnswerEvaluationService}.

Lemma cache_ok_exec g sid op sv : cache_ok sv → cache_ok (exec g sid op sv).
Proof.
  intros Hc.
  destruct (getOrRestoreSession sid sv) as [[e|s] sv0] eqn:Hres.
  { destruct (getOrRestoreSession_fail _ _ _ _ Hres) as [_ ->].
    destruct op; simpl;
      [ unfold getCurrentQuestion | unfold submitAnswer | unfold saveAnswer
      | unfold completeInterview | unfold generateReport ];
      unfold bind at 1; simpl; by rewrite Hres. }
  destruct (cache_ok_resolved _ _ _ _ Hc Hres) as [Hc0 Hid].
  pose proof (effect_sessionId sid op s) as Hid'. rewrite Hid in Hid'.
  destruct op as [|i a|i a| |]; simpl in *.
  - rewrite (getCurrentQuestion_state g sid sv s sv0 Hres).
    case_decide; [done|]. case_decide; [|done]. by apply cache_ok_assign.
  - case_decide as Hv.
    + pose proof (submitAnswer_valid g (SubmitAnswerRequest.mk sid i a)
                    sv s sv0 Hres Hv) as ->. by apply cache_ok_assign.
    + by pose proof (submitAnswer_invalid g (SubmitAnswerRequest.mk sid i a)
                       sv s sv0 Hres Hv) as ->.
  - case_decide as Hv.
    + pose proof (saveAnswer_valid g (SubmitAnswerRequest.mk sid i a)
                    sv s sv0 Hres Hv) as ->. by apply cache_ok_assign.
    + by pose proof (saveAnswer_invalid g (SubmitAnswerRequest.mk sid i a)
                       sv s sv0 Hres Hv) as ->.
  - case_decide as Hst.
    + by rewrite (completeInterview_rejects g sid sv s sv0 Hres Hst).
    + rewrite (completeInterview_completes g sid sv s sv0 Hres Hst).
      by apply cache_ok_assign.
  - case_decide as Hst.
    + by rewrite (generateReport_rejects g sid sv s sv0 Hres Hst).
    + assert (status s = COMPLETED ∨ status s = EVALUATED) as Hst'.
      { destruct (status s); auto; exfalso; apply Hst; done. }
      rewrite (generateReport_evaluates g sid sv s sv0 Hres Hst').
      destruct (evaluateInterview _ _ _); [|done]. by apply cache_ok_assign.
Qed.

Lemma cache_ok_createSession uuid g request sv :
  cache_ok sv → cache_ok (createSession uuid g request sv).2.
Proof.
  intros Hc. rewrite createSession_run.
  assert (∀ sv', cache_ok sv' → cache_ok (createFresh uuid g request sv').2) as Hfresh.
  { intros sv' Hc'. unfold createFresh.
    destruct (generateQuestions _ _); [|done]. by apply cache_ok_assign. }
  destruct (CreateInterviewRequest.resumeId request) as [rid|]; [|by apply Hfresh].
  rewrite findUnfinishedSession_run.
  destruct (InterviewPersistenceService.findUnfinishedSession rid _) as [e|];
    [|by apply Hfresh].
  cbn zeta. destruct (sessions sv !! _); [done|]. simpl. by apply cache_ok_assign.
Qed.

(** In every reachable state the sessions are held under their own
    identifier and no progress index is negative; so the session a call
    resolves has [0 <= currentIndex]. *)
Lemma reachable_ok sv : reachable sv → index_ok sv ∧ cache_ok sv.
Proof.
  induction 1 as [db Hdb|uuid g request sv _ [Hi Hc]|g sid op sv _ [Hi Hc]].
  - split; [by apply index_ok_empty | apply cache_ok_empty].
  - split; [by apply index_ok_createSession | by apply cache_ok_createSession].
  - split; [by apply index_ok_exec | by apply cache_ok_exec].
Qed.

Lemma reachable_resolved sid sv s sv0 :
  reachable sv → getOrRestoreSession sid sv = (inr s, sv0) →
  0 <= currentIndex s ∧ sessionId s = sid.
Proof.
  intros Hreach Hres. destruct (reachable_ok sv Hreach) as [Hi Hc]. split.
  - by destruct (index_ok_resolved sid sv s sv0 Hi Hres).
  - by destruct (cache_ok_resolved sid sv s sv0 Hc Hres).
Qed.



End Cache.



(** * Further properties of the service *)

(** ** Resolving and reading a session *)

(** X1. [getSession] reads and nothing else: it leaves the service state as
    it was, so a session it rebuilt from the store is not put in the map; it
    returns the DTO of the session [getOrRestoreSession] would resolve, and
    raises as that does. *)
Theorem getSession_reads_only sid sv :
  (getSession sid sv).2 = sv
  ∧ (getSession sid sv).1
    = match (getOrRestoreSession sid sv).1 with
      | inr session => inr (toDTO session)
      | inl e => inl e
      end.
Proof.
  unfold getSession, getOrRestoreSession. svc.
  destruct (sessions sv !! sid); [done|].
  by destruct (restoreSessionFromDatabase sid (persistenceService sv)).
Qed.


Section Unknown.
Context {evaluationService : AnswerEvaluationService}.

(** X3. For an identifier that is neither in the session map nor in the
    store, each of the six calls that take a session identifier raises
    [INTERVIEW_SESSION_NOT_FOUND] and leaves the service state as it was. *)
Theorem unknown_session_raises g sid i a sv :
  sessions sv !! sid = None →
  InterviewPersistenceService.findBySessionId sid (persistenceService sv) = None →
  getSession sid sv = (inl INTERVIEW_SESSION_NOT_FOUND, sv)
  ∧ getCurrentQuestion g sid sv = (inl INTERVIEW_SESSION_NOT_FOUND, sv)
  ∧ submitAnswer g (SubmitAnswerRequest.mk sid i a) sv
    = (inl INTERVIEW_SESSION_NOT_FOUND, sv)
  ∧ saveAnswer g (SubmitAnswerRequest.mk sid i a) sv
    = (inl INTERVIEW_SESSION_NOT_FOUND, sv)
  ∧ completeInterview g sid sv = (inl INTERVIEW_SESSION_NOT_FOUND, sv)
  ∧ generateReport g sid sv = (inl INTERVIEW_SESSION_NOT_FOUND, sv).
Proof.
  intros Hc Hdb.
  assert (restoreSessionFromDatabase sid (persistenceService sv) = None) as Hr
    by (unfold restoreSessionFromDatabase; by rewrite Hdb).
  assert (getOrRestoreSession sid sv = (inl INTERVIEW_SESSION_NOT_FOUND, sv)) as Hres.
  { unfold getOrRestoreSession. svc. by rewrite Hc, Hr. }
  split_and!.
  - unfold getSession. svc. by rewrite Hc, Hr.
  - unfold getCurrentQuestion, bind at 1. by rewrite Hres.
  - unfold submitAnswer, bind at 1. simpl. by rewrite Hres.
  - unfold saveAnswer, bind at 1. simpl. by rewrite Hres.
  - unfold completeInterview, bind at 1. by rewrite Hres.
  - unfold generateReport, bind at 1. by rewrite Hres.
Qed.

End Unknown.

Lemma unknown_session_raises_witness :
  getSession "no-such-session" Scenario.fresh
    = (inl INTERVIEW_SESSION_NOT_FOUND, Scenario.fresh)
  ∧ generateReport (evaluationService := Scenario.evaluator) Healthy
      "no-such-session" Scenario.fresh
    = (inl INTERVIEW_SESSION_NOT_FOUND, Scenario.fresh).
Proof.
  destruct (unknown_session_raises (evaluationService := Scenario.evaluator)
              Healthy "no-such-session" 0 None Scenario.fresh)
    as (H1 & _ & _ & _ & _ & H6).
  - vm_compute. reflexivity.
  - vm_compute. reflexivity.
  - split; [exact H1 | exact H6].
Defined.

(** ** saveAnswer *)

(** X4. On a resolved session of [L] questions, [saveAnswer] raises
    [INTERVIEW_QUESTION_NOT_FOUND] exactly when the index is outside [0, L).
    On a valid index it returns, records the answer at that index, leaves the
    other questions, the number of questions and [currentIndex] as they were,
    and moves the status to IN_PROGRESS when it was CREATED and leaves it
    otherwise. *)
Theorem saveAnswer_contract g request sv session sv0 :
  let sid := SubmitAnswerRequest.sessionId request in
  let i := SubmitAnswerRequest.questionIndex request in
  let a := SubmitAnswerRequest.answer request in
  let L := size (questions session) in
  getOrRestoreSession sid sv = (inr session, sv0) →
  ((saveAnswer g request sv).1 = inl INTERVIEW_QUESTION_NOT_FOUND
     ↔ ¬ (0 <= i < L))
  ∧ (0 <= i < L →
     ∃ session' q,
       (saveAnswer g request sv).1 = inr tt
       ∧ sessions (saveAnswer g request sv).2 !! sid = Some session'
       ∧ get (questions session) i = Some q
       ∧ get (questions session') i = Some (withAnswer q a)
       ∧ (∀ j, j ≠ i → get (questions session') j = get (questions session) j)
       ∧ size (questions session') = L
       ∧ currentIndex session' = currentIndex session
       ∧ (status session = CREATED → status session' = IN_PROGRESS)
       ∧ (status session ≠ CREATED → status session' = status session)).
Proof.
  intros sid i a L Hres. split.
  - destruct (decide (valid_index i session)) as [Hi|Hi].
    + rewrite (saveAnswer_valid g request sv session sv0 Hres Hi). simpl.
      unfold valid_index in Hi. fold L in Hi. split; [discriminate | lia].
    + rewrite (saveAnswer_invalid g request sv session sv0 Hres Hi). done.
  - intros Hi.
    rewrite (saveAnswer_valid g request sv session sv0 Hres Hi). simpl.
    destruct (proj2 (get_is_Some (questions session) i) Hi) as [q Hq].
    exists (afterSave i a session), q. fold sid. rewrite lookup_insert_eq.
    assert (questions (afterSave i a session)
            = set (questions session) i (withAnswer q a)) as Hqs.
    { unfold afterSave, started, answered. rewrite Hq. by case_decide. }
    rewrite Hqs, size_set, get_set_eq by done.
    split_and!; try done.
    + intros j Hj. apply get_set_ne; [lia | done].
    + unfold afterSave, started, answered. rewrite Hq. by case_decide.
    + intros Hc. unfold afterSave, started, answered. rewrite Hq. simpl.
      by rewrite decide_True.
    + intros Hc. unfold afterSave, started, answered. rewrite Hq. simpl.
      by rewrite decide_False.
Qed.

Lemma saveAnswer_contract_witness :
  let request := SubmitAnswerRequest.mk Scenario.sid 1 (Some "a draft"%string) in
  getOrRestoreSession Scenario.sid (Scenario.created 3)
    = (inr (Scenario.initial 3), Scenario.created 3)
  ∧ ((saveAnswer Healthy request (Scenario.created 3)).1
       = inl INTERVIEW_QUESTION_NOT_FOUND
     ↔ ¬ (0 <= 1 < size (questions (Scenario.initial 3)))).
Proof.
  intros request.
  assert (getOrRestoreSession Scenario.sid (Scenario.created 3)
          = (inr (Scenario.initial 3), Scenario.created 3)) as Hres
    by (vm_compute; reflexivity).
  split; [exact Hres|].
  exact (proj1 (saveAnswer_contract Healthy request _ _ _ Hres)).
Defined.

(** ** Failures of the store *)

Section StoreFailures.
Context {questionService : InterviewQuestionService}.
Context {evaluationService : AnswerEvaluationService}.

(** When the session cannot be resolved, a call ends where the resolution
    ended. *)
Lemma exec_unresolved g sid op sv e sv0 :
  getOrRestoreSession sid sv = (inl e, sv0) → exec g sid op sv = sv0.
Proof.
  intros Hres.
  destruct op; simpl;
    [ unfold getCurrentQuestion | unfold submitAnswer | unfold saveAnswer
    | unfold completeInterview | unfold generateReport ];
    unfold bind at 1; simpl; by rewrite Hres.
Qed.

(** X5. A write to the store that raises is never seen by the caller: for
    any two healths of the store, each call returns the same value or raises
    the same error, and leaves the same session map.  This holds for the five
    operations on a session and for [createSession]. *)
Theorem store_failure_is_invisible g g' sid i a uuid request sv :
  (getCurrentQuestion g sid sv).1 = (getCurrentQuestion g' sid sv).1
  ∧ (submitAnswer g (SubmitAnswerRequest.mk sid i a) sv).1
    = (submitAnswer g' (SubmitAnswerRequest.mk sid i a) sv).1
  ∧ (saveAnswer g (SubmitAnswerRequest.mk sid i a) sv).1
    = (saveAnswer g' (SubmitAnswerRequest.mk sid i a) sv).1
  ∧ (completeInterview g sid sv).1 = (completeInterview g' sid sv).1
  ∧ (generateReport g sid sv).1 = (generateReport g' sid sv).1
  ∧ (createSession uuid g request sv).1 = (createSession uuid g' request sv).1
  ∧ (∀ op, sessions (exec g sid op sv) = sessions (exec g' sid op sv))
  ∧ sessions (createSession uuid g request sv).2
    = sessions (createSession uuid g' request sv).2.
Proof.
  assert ((createSession uuid g request sv).1 = (createSession uuid g' request sv).1
          ∧ sessions (createSession uuid g request sv).2
            = sessions (createSession uuid g' request sv).2) as [Hc1 Hc2].
  { rewrite !createSession_run.
    assert (∀ sv', (createFresh uuid g request sv').1
                   = (createFresh uuid g' request sv').1
                   ∧ sessions (createFresh uuid g request sv').2
                     = sessions (createFresh uuid g' request sv').2) as Hfresh.
    { intros sv'. unfold createFresh. by destruct (generateQuestions _ _). }
    destruct (CreateInterviewRequest.resumeId request) as [rid|]; [|apply Hfresh].
    by destruct (findUnfinishedSession rid sv) as [[e|[dto|]] sv']. }
  destruct (getOrRestoreSession sid sv) as [[e|s] sv0] eqn:Hres.
  { split_and!; try done.
    - assert (∀ h, getCurrentQuestion h sid sv = (inl e, sv0)) as H
        by (intros h; unfold getCurrentQuestion, bind at 1; by rewrite Hres).
      by rewrite !H.
    - assert (∀ h, submitAnswer h (SubmitAnswerRequest.mk sid i a) sv = (inl e, sv0))
        as H by (intros h; unfold submitAnswer, bind at 1; simpl; by rewrite Hres).
      by rewrite !H.
    - assert (∀ h, saveAnswer h (SubmitAnswerRequest.mk sid i a) sv = (inl e, sv0))
        as H by (intros h; unfold saveAnswer, bind at 1; simpl; by rewrite Hres).
      by rewrite !H.
    - assert (∀ h, completeInterview h sid sv = (inl e, sv0)) as H
        by (intros h; unfold completeInterview, bind at 1; by rewrite Hres).
      by rewrite !H.
    - assert (∀ h, generateReport h sid sv = (inl e, sv0)) as H
        by (intros h; unfold generateReport, bind at 1; by rewrite Hres).
      by rewrite !H.
    - intros op. by rewrite !(exec_unresolved _ sid op sv e sv0 Hres). }
  assert ((getCurrentQuestion g sid sv).1 = (getCurrentQuestion g' sid sv).1) as Hq.
  { destruct (decide (currentIndex s >= size (questions s))) as [Hex|Hex].
    - by rewrite !(getCurrentQuestion_exhausted _ sid sv s sv0 Hres Hex).
    - destruct (decide (0 <= currentIndex s)) as [Hn|Hn].
      + by rewrite !(getCurrentQuestion_serves _ sid sv s sv0 Hres) by lia.
      + by rewrite !(getCurrentQuestion_negative _ sid sv s sv0 Hres) by lia. }
  assert (∀ h, submitAnswer h (SubmitAnswerRequest.mk sid i a) sv
               = if decide (valid_index i s)
                 then (inr (SubmitAnswerResponse.mk
                              (bool_decide (i + 1 < size (questions s)))
                              (get (questions (afterSubmit i a s)) (i + 1))
                              (i + 1) (size (questions s))),
                       mkService (<[sid := afterSubmit i a s]> (sessions sv0))
                         (mirrored h (resumeId s) (submitWrites sid i a s)
                            (persistenceService sv0)))
                 else (inl INTERVIEW_QUESTION_NOT_FOUND, sv0)) as Hsub.
  { intros h. destruct (decide (valid_index i s)) as [Hv|Hv].
    - exact (submitAnswer_valid h (SubmitAnswerRequest.mk sid i a) sv s sv0 Hres Hv).
    - exact (submitAnswer_invalid h (SubmitAnswerRequest.mk sid i a) sv s sv0 Hres Hv). }
  assert (∀ h, saveAnswer h (SubmitAnswerRequest.mk sid i a) sv
               = if decide (valid_index i s)
                 then (inr tt,
                       mkService (<[sid := afterSave i a s]> (sessions sv0))
                         (mirrored h (resumeId s) (saveWrites sid i a s)
                            (persistenceService sv0)))
                 else (inl INTERVIEW_QUESTION_NOT_FOUND, sv0)) as Hsave.
  { intros h. destruct (decide (valid_index i s)) as [Hv|Hv].
    - exact (saveAnswer_valid h (SubmitAnswerRequest.mk sid i a) sv s sv0 Hres Hv).
    - exact (saveAnswer_invalid h (SubmitAnswerRequest.mk sid i a) sv s sv0 Hres Hv). }
  assert (∀ h, completeInterview h sid sv
               = if decide (status s = COMPLETED ∨ status s = EVALUATED)
                 then (inl INTERVIEW_ALREADY_COMPLETED, sv0)
                 else (inr tt,
                       mkService (<[sid := set_status COMPLETED s]> (sessions sv0))
                         (mirrored h (resumeId s)
                            [InterviewPersistenceService.updateSessionStatus sid
                               InterviewSessionEntity.COMPLETED]
                            (persistenceService sv0)))) as Hcomp.
  { intros h.
    destruct (decide (status s = COMPLETED ∨ status s = EVALUATED)) as [Hst|Hst].
    - exact (completeInterview_rejects h sid sv s sv0 Hres Hst).
    - exact (completeInterview_completes h sid sv s sv0 Hres Hst). }
  assert (∀ h, (generateReport h sid sv).1 = (generateReport Healthy sid sv).1
               ∧ sessions (generateReport h sid sv).2
                 = sessions (generateReport Healthy sid sv).2) as Hrep.
  { intros h.
    destruct (decide (status s ≠ COMPLETED ∧ status s ≠ EVALUATED)) as [Hst|Hst].
    - by rewrite !(generateReport_rejects _ sid sv s sv0 Hres Hst).
    - assert (status s = COMPLETED ∨ status s = EVALUATED) as Hst'.
      { destruct (status s); auto; exfalso; apply Hst; done. }
      rewrite !(generateReport_evaluates _ sid sv s sv0 Hres Hst').
      by destruct (evaluateInterview _ _ _). }
  split_and!; try done.
  - rewrite (Hsub g), (Hsub g'). by destruct (decide (valid_index i s)).
  - rewrite (Hsave g), (Hsave g'). by destruct (decide (valid_index i s)).
  - rewrite (Hcomp g), (Hcomp g').
    by destruct (decide (status s = COMPLETED ∨ status s = EVALUATED)).
  - destruct (Hrep g) as [-> _]. by destruct (Hrep g') as [-> _].
  - intros [|j b|j b| |]; simpl.
    + rewrite !(getCurrentQuestion_state _ sid sv s sv0 Hres).
      destruct (decide (currentIndex s >= size (questions s))); [done|].
      by destruct (decide (status s = CREATED)).
    + destruct (decide (valid_index j s)) as [Hv|Hv].
      * by rewrite !(submitAnswer_valid _ (SubmitAnswerRequest.mk sid j b)
                       sv s sv0 Hres Hv).
      * by rewrite !(submitAnswer_invalid _ (SubmitAnswerRequest.mk sid j b)
                       sv s sv0 Hres Hv).
    + destruct (decide (valid_index j s)) as [Hv|Hv].
      * by rewrite !(saveAnswer_valid _ (SubmitAnswerRequest.mk sid j b)
                       sv s sv0 Hres Hv).
      * by rewrite !(saveAnswer_invalid _ (SubmitAnswerRequest.mk sid j b)
                       sv s sv0 Hres Hv).
    + rewrite (Hcomp g), (Hcomp g').
      by destruct (decide (status s = COMPLETED ∨ status s = EVALUATED)).
    + destruct (Hrep g) as [_ ->]. by destruct (Hrep g') as [_ ->].
Qed.

End StoreFailures.

(** ** Sessions without a subject *)

Section Ephemeral.
Context {questionService : InterviewQuestionService}.
Context {evaluationService : AnswerEvaluationService}.

(** X6. A session whose [resumeId] is null is never mirrored: whatever the
    operation, its index and its answer, the store after the call is the
    store before it. *)
Theorem session_without_subject_never_persisted g sid op sv session sv0 :
  getOrRestoreSession sid sv = (inr session, sv0) →
  resumeId session = None →
  persistenceService (exec g sid op sv) = persistenceService sv.
Proof.
  intros Hres Hnone.
  destruct (getOrRestoreSession_ok _ _ _ _ Hres) as (_ & Hdb & _ & _).
  destruct op as [|i a|i a| |]; simpl.
  - rewrite (getCurrentQuestion_state g sid sv session sv0 Hres).
    destruct (decide (currentIndex session >= size (questions session))); [done|].
    destruct (decide (status session = CREATED)); [|done].
    simpl. by rewrite Hnone.
  - destruct (decide (valid_index i session)) as [Hv|Hv].
    + rewrite (submitAnswer_valid g (SubmitAnswerRequest.mk sid i a)
                 sv session sv0 Hres Hv). simpl. by rewrite Hnone.
    + by rewrite (submitAnswer_invalid g (SubmitAnswerRequest.mk sid i a)
                    sv session sv0 Hres Hv).
  - destruct (decide (valid_index i session)) as [Hv|Hv].
    + rewrite (saveAnswer_valid g (SubmitAnswerRequest.mk sid i a)
                 sv session sv0 Hres Hv). simpl. by rewrite Hnone.
    + by rewrite (saveAnswer_invalid g (SubmitAnswerRequest.mk sid i a)
                    sv session sv0 Hres Hv).
  - destruct (decide (status session = COMPLETED ∨ status session = EVALUATED))
      as [Hst|Hst].
    + by rewrite (completeInterview_rejects g sid sv session sv0 Hres Hst).
    + rewrite (completeInterview_completes g sid sv session sv0 Hres Hst).
      simpl. by rewrite Hnone.
  - destruct (decide (status session ≠ COMPLETED ∧ status session ≠ EVALUATED))
      as [Hst|Hst].
    + by rewrite (generateReport_rejects g sid sv session sv0 Hres Hst).
    + assert (status session = COMPLETED ∨ status session = EVALUATED) as Hst'.
      { destruct (status session); auto; exfalso; apply Hst; done. }
      rewrite (generateReport_evaluates g sid sv session sv0 Hres Hst').
      destruct (evaluateInterview _ _ _); [|done]. simpl. by rewrite Hnone.
Qed.

(** X7. A request without a subject always makes a new session, never
    looking for one to resume.  If the generator raises, the call raises
    [GENERATION_FAILED] and the state is as before.  Otherwise the session
    is put in the map under the identifier drawn, starts at index 0 in status
    CREATED with the questions generated, the DTO's [totalQuestions] is the
    number of questions generated (whatever number was asked for), no other
    map entry changes and the store is not written. *)
Theorem createSession_without_subject uuid g request sv :
  CreateInterviewRequest.resumeId request = None →
  match generateQuestions (CreateInterviewRequest.resumeText request)
          (CreateInterviewRequest.questionCount request) with
  | None => createSession uuid g request sv = (inl GENERATION_FAILED, sv)
  | Some qs =>
      let session :=
        mkSession uuid (CreateInterviewRequest.resumeText request) None qs 0
          CREATED in
      (createSession uuid g request sv).1 = inr (toDTO session)
      ∧ InterviewSessionDTO.totalQuestions (toDTO session) = size qs
      ∧ sessions (createSession uuid g request sv).2 !! uuid = Some session
      ∧ (∀ other, other ≠ uuid →
           sessions (createSession uuid g request sv).2 !! other
           = sessions sv !! other)
      ∧ persistenceService (createSession uuid g request sv).2
        = persistenceService sv
  end.
Proof.
  intros Hnone. rewrite createSession_run, Hnone. unfold createFresh.
  rewrite Hnone. destruct (generateQuestions _ _) as [qs|]; [|done].
  simpl. rewrite lookup_insert_eq. split_and!; try done.
  intros other Hne. by rewrite lookup_insert_ne.
Qed.

(** X8. When the only write of [createSession] raises, the call still
    returns the new session, but the store does not know it: the next
    [createSession] for the subject does not resume it and returns a session
    under the identifier it draws itself, and once the session map is lost
    the first session cannot be found again. *)
Theorem createSession_write_failure
    uuid1 uuid2 g2 request1 request2 rid sv dto1 sv1 dto2 sv2 :
  CreateInterviewRequest.resumeId request1 = Some rid →
  CreateInterviewRequest.resumeId request2 = Some rid →
  InterviewPersistenceService.findUnfinishedSession rid (persistenceService sv)
    = None →
  createSession uuid1 (FailsAt 0) request1 sv = (inr dto1, sv1) →
  createSession uuid2 g2 request2 sv1 = (inr dto2, sv2) →
  InterviewSessionDTO.sessionId dto1 = uuid1
  ∧ persistenceService sv1 = persistenceService sv
  ∧ InterviewSessionDTO.sessionId dto2 = uuid2
  ∧ InterviewSessionDTO.currentQuestionIndex dto2 = 0
  ∧ (InterviewPersistenceService.findBySessionId uuid1 (persistenceService sv)
       = None →
     getOrRestoreSession uuid1 (mkService ∅ (persistenceService sv1))
     = (inl INTERVIEW_SESSION_NOT_FOUND, mkService ∅ (persistenceService sv1))).
Proof.
  intros Hr1 Hr2 Hnone.
  rewrite !createSession_run, Hr1, Hr2, findUnfinishedSession_run, Hnone.
  unfold createFresh at 1. rewrite Hr1.
  destruct (generateQuestions _ _) as [qs1|]; [|discriminate].
  intros [= <- <-]. rewrite findUnfinishedSession_run. simpl.
  unfold try_writes. rewrite Hnone.
  unfold createFresh. rewrite Hr2.
  destruct (generateQuestions _ _) as [qs2|]; [|discriminate].
  intros [= <- <-]. simpl. split_and!; try done.
  intros Hrow. unfold getOrRestoreSession. svc. rewrite lookup_empty.
  unfold restoreSessionFromDatabase. simpl. by rewrite Hrow.
Qed.

(** X9. [createSession] raises only when the question generator does, and
    then nothing has been put in the map or written to the store. *)
Theorem createSession_raises_cleanly uuid g request sv e sv' :
  createSession uuid g request sv = (inl e, sv') →
  e = GENERATION_FAILED
  ∧ sv' = sv
  ∧ generateQuestions (CreateInterviewRequest.resumeText request)
      (CreateInterviewRequest.questionCount request) = None.
Proof.
  rewrite createSession_run.
  assert (∀ s, createFresh uuid g request s = (inl e, sv') →
               e = GENERATION_FAILED ∧ sv' = s
               ∧ generateQuestions (CreateInterviewRequest.resumeText request)
                   (CreateInterviewRequest.questionCount request) = None) as Hfresh.
  { intros s. unfold createFresh.
    destruct (generateQuestions _ _); [discriminate|]. by intros [= <- <-]. }
  destruct (CreateInterviewRequest.resumeId request) as [rid|]; [|apply Hfresh].
  rewrite findUnfinishedSession_run.
  destruct (InterviewPersistenceService.findUnfinishedSession rid _) as [entity|];
    [|apply Hfresh].
  cbn zeta. destruct (sessions sv !! _); [discriminate|]. simpl. discriminate.
Qed.

End Ephemeral.

Lemma session_without_subject_never_persisted_witness :
  getOrRestoreSession Fixtures.demo Fixtures.withDemo
    = (inr Fixtures.demoSession, Fixtures.withDemo)
  ∧ resumeId Fixtures.demoSession = None
  ∧ persistenceService
      (exec (evaluationService := Scenario.evaluator) Healthy Fixtures.demo
         (SubmitAnswer 0 (Some "an answer"%string)) Fixtures.withDemo)
    = persistenceService Fixtures.withDemo.
Proof.
  assert (getOrRestoreSession Fixtures.demo Fixtures.withDemo
          = (inr Fixtures.demoSession, Fixtures.withDemo)) as Hres
    by (vm_compute; reflexivity).
  assert (resumeId Fixtures.demoSession = None) as Hnone by reflexivity.
  split_and!; [exact Hres | exact Hnone |].
  exact (session_without_subject_never_persisted
           (evaluationService := Scenario.evaluator) Healthy Fixtures.demo
           (SubmitAnswer 0 (Some "an answer"%string)) _ _ _ Hres Hnone).
Defined.

Lemma createSession_without_subject_witness :
  createSession (questionService := Fixtures.failingGenerator) Fixtures.demo
    Healthy (Fixtures.anonymous 3) Scenario.fresh
  = (inl GENERATION_FAILED, Scenario.fresh).
Proof.
  exact (createSession_without_subject
           (questionService := Fixtures.failingGenerator) Fixtures.demo Healthy
           (Fixtures.anonymous 3) Scenario.fresh eq_refl).
Defined.

Lemma createSession_write_failure_witness :
  InterviewSessionDTO.sessionId (toDTO (Scenario.initial 3)) = Scenario.sid
  ∧ persistenceService Fixtures.unsaved = persistenceService Scenario.fresh
  ∧ InterviewSessionDTO.sessionId (toDTO Fixtures.other) = Fixtures.otherId.
Proof.
  destruct (createSession_write_failure (questionService := Scenario.generator)
              Scenario.sid Fixtures.otherId Healthy
              (Scenario.resumeOf 7 3) (Scenario.resumeOf 7 3) 7 Scenario.fresh
              (toDTO (Scenario.initial 3)) Fixtures.unsaved
              (toDTO Fixtures.other)
              (createSession (questionService := Scenario.generator)
                 Fixtures.otherId Healthy (Scenario.resumeOf 7 3)
                 Fixtures.unsaved).2)
    as (H1 & H2 & H3 & _).
  - reflexivity.
  - reflexivity.
  - vm_compute. reflexivity.
  - vm_compute. reflexivity.
  - vm_compute. reflexivity.
  - split_and!; [exact H1 | exact H2 | exact H3].
Defined.

Lemma createSession_raises_cleanly_witness :
  GENERATION_FAILED = GENERATION_FAILED
  ∧ Scenario.fresh = Scenario.fresh
  ∧ generateQuestions (InterviewQuestionService := Fixtures.failingGenerator)
      (CreateInterviewRequest.resumeText (Scenario.resumeOf 7 3))
      (CreateInterviewRequest.questionCount (Scenario.resumeOf 7 3)) = None.
Proof.
  apply (createSession_raises_cleanly
           (questionService := Fixtures.failingGenerator)
           Scenario.sid Healthy (Scenario.resumeOf 7 3) Scenario.fresh).
  vm_compute. reflexivity.
Defined.


(** ** What the operations keep *)

Section Shape.
Context {evaluationService : AnswerEvaluationService}.

Lemma answered_unanswered i a s :
  unanswered <$> questions (answered i a s) = unanswered <$> questions s.
Proof.
  unfold answered. destruct (get (questions s) i) as [q|] eqn:Hq; [|done].
  simpl. unfold set, get in *. case_decide; [|done].
  rewrite list_fmap_insert. apply list_insert_id.
  by rewrite list_lookup_fmap, Hq.
Qed.

Lemma effect_shape sid op s :
  sessionId (effect sid op s) = sessionId s
  ∧ resumeText (effect sid op s) = resumeText s
  ∧ resumeId (effect sid op s) = resumeId s
  ∧ unanswered <$> questions (effect sid op s) = unanswered <$> questions s.
Proof.
  pose proof (answered_unanswered) as Hans.
  destruct op as [|i a|i a| |]; simpl.
  - case_decide; [done|]. unfold started. by case_decide.
  - case_decide; [|done]. unfold afterSubmit.
    case_decide; simpl; split_and!; try done;
      unfold answered; destruct (get _ _); try done; apply (Hans i a s).
  - case_decide; [|done]. unfold afterSave, started.
    case_decide; simpl; split_and!; try done;
      unfold answered; destruct (get _ _); try done; apply (Hans i a s).
  - by case_decide.
  - case_decide; [done|]. by destruct (evaluateInterview _ _ _).
Qed.

(** X10. No operation changes what a session is about: after any call, with
    any health of the store, the session held under the identifier has the
    same [sessionId], resume text and [resumeId], the same number of
    questions, and the same questions up to their answers (index, text,
    category and reference answer of each question are as before). *)
Theorem operations_change_only_answers g sid op sv session sv0 :
  getOrRestoreSession sid sv = (inr session, sv0) →
  ∃ session',
    sessions (exec g sid op sv) !! sid = Some session'
    ∧ sessionId session' = sessionId session
    ∧ resumeText session' = resumeText session
    ∧ resumeId session' = resumeId session
    ∧ size (questions session') = size (questions session)
    ∧ unanswered <$> questions session' = unanswered <$> questions session.
Proof.
  intros Hres. exists (effect sid op session).
  destruct (effect_shape sid op session) as (H1 & H2 & H3 & H4).
  split_and!; try done.
  - by apply (exec_effect g sid op sv session sv0).
  - apply (f_equal length) in H4. rewrite !length_fmap in H4.
    unfold size. by rewrite H4.
Qed.

(** X11. The progress index stays within the questions: when
    [0 <= currentIndex <= len(questions)] holds for the resolved session, it
    holds for the session after any call, with any health of the store. *)
Theorem operations_keep_index_in_bounds g sid op sv session sv0 :
  getOrRestoreSession sid sv = (inr session, sv0) →
  0 <= currentIndex session <= size (questions session) →
  ∃ session',
    sessions (exec g sid op sv) !! sid = Some session'
    ∧ 0 <= currentIndex session' <= size (questions session').
Proof.
  intros Hres Hb. exists (effect sid op session).
  split; [by apply (exec_effect g sid op sv session sv0)|].
  destruct (effect_shape sid op session) as (_ & _ & _ & Hq).
  apply (f_equal length) in Hq. rewrite !length_fmap in Hq.
  unfold size in *. rewrite Hq. clear Hq.
  destruct op as [|i a|i a| |]; simpl.
  - case_decide; [done|]. unfold started. by case_decide.
  - case_decide as Hv; [|done]. unfold valid_index, size in Hv.
    unfold afterSubmit. case_decide; simpl; lia.
  - case_decide; [|done]. unfold afterSave, started, answered.
    destruct (get _ _); by case_decide.
  - by case_decide.
  - case_decide; [done|]. by destruct (evaluateInterview _ _ _).
Qed.

End Shape.

Lemma operations_change_only_answers_witness :
  ∃ session',
    sessions (exec (evaluationService := Scenario.evaluator) (FailsAt 1)
                Scenario.sid (SubmitAnswer 2 (Some "By its leaves."%string))
                (Scenario.created 3)) !! Scenario.sid = Some session'
    ∧ unanswered <$> questions session' = Scenario.pool.
Proof.
  destruct (operations_change_only_answers
              (evaluationService := Scenario.evaluator) (FailsAt 1) Scenario.sid
              (SubmitAnswer 2 (Some "By its leaves."%string))
              (Scenario.created 3) (Scenario.initial 3) (Scenario.created 3))
    as (session' & Hs & _ & _ & _ & _ & Hq).
  - vm_compute. reflexivity.
  - exists session'. split; [exact Hs | exact Hq].
Defined.

Lemma operations_keep_index_in_bounds_witness :
  ∃ session',
    sessions (exec (evaluationService := Scenario.evaluator) Healthy
                Scenario.sid (SubmitAnswer 2 None) (Scenario.created 3))
      !! Scenario.sid = Some session'
    ∧ 0 <= currentIndex session' <= size (questions session').
Proof.
  apply (operations_keep_index_in_bounds
           (evaluationService := Scenario.evaluator) Healthy Scenario.sid
           (SubmitAnswer 2 None) (Scenario.created 3) (Scenario.initial 3)
           (Scenario.created 3)).
  - vm_compute. reflexivity.
  - vm_compute. split; discriminate.
Defined.

(** ** Submitting the answers in order *)

Section InOrder.
Context {evaluationService : AnswerEvaluationService}.

Lemma afterSubmit_facts i a s :
  valid_index i s →
  answers_of (afterSubmit i a s) = <[Z.to_nat i := a]> (answers_of s)
  ∧ currentIndex (afterSubmit i a s) = i + 1
  ∧ size (questions (afterSubmit i a s)) = size (questions s)
  ∧ status (afterSubmit i a s)
    = (if decide (i + 1 < size (questions s)) then status s else COMPLETED).
Proof.
  intros Hv. destruct (proj2 (get_is_Some (questions s) i) Hv) as [q Hq].
  unfold afterSubmit, answered, answers_of. rewrite Hq.
  case_decide; simpl; rewrite size_set; unfold set;
    by rewrite list_fmap_insert.
Qed.

Lemma submits_effects sid answers : ∀ (k : nat) s,
  Z.of_nat k + size answers <= size (questions s) →
  let s' := foldl (λ acc (gop : Gateway * Op), effect sid gop.2 acc) s
              (submitsFrom (Z.of_nat k) answers) in
  (∀ j : nat, answers_of s' !! j
              = if decide (k ≤ j < k + length answers)%nat
                then answers !! (j - k)%nat else answers_of s !! j)
  ∧ size (questions s') = size (questions s)
  ∧ (answers ≠ [] → currentIndex s' = Z.of_nat k + size answers)
  ∧ status s'
    = (if decide (answers ≠ [] ∧ Z.of_nat k + size answers = size (questions s))
       then COMPLETED else status s).
Proof.
  induction answers as [|a rest IH]; intros k s Hle.
  - simpl. split_and!;
      [ intros j; case_decide; [lia | done] | done | done | done ].
  - assert (size (a :: rest) = 1 + size rest) as Hsz by (unfold size; simpl; lia).
    assert (0 <= size rest) as Hnn by (unfold size; lia).
    rewrite Hsz in Hle |- *.
    assert (valid_index (Z.of_nat k) s) as Hv by (unfold valid_index; lia).
    destruct (afterSubmit_facts (Z.of_nat k) a s Hv) as (Ha & Hi & Hq & Hst).
    cbn [submitsFrom foldl snd]. simpl effect. rewrite decide_True by done.
    replace (Z.of_nat k + 1) with (Z.of_nat (S k)) in * by lia.
    destruct (IH (S k) (afterSubmit (Z.of_nat k) a s)) as (IHa & IHq & IHi & IHst).
    { rewrite Hq. lia. }
    split_and!.
    + intros j. rewrite IHa, Ha, Nat2Z.id. simpl length.
      rewrite list_lookup_insert.
      assert (k < length (answers_of s))%nat as Hk.
      { unfold answers_of. rewrite length_fmap. unfold valid_index, size in Hv. lia. }
      destruct (decide (S k ≤ j < S k + length rest)%nat) as [Hj|Hj].
      * rewrite decide_True by lia.
        replace (j - k)%nat with (S (j - S k)) by lia. done.
      * destruct (decide (k = j)) as [<-|Hne].
        -- rewrite !decide_True by lia. by rewrite Nat.sub_diag.
        -- rewrite !decide_False by lia. done.
    + by rewrite IHq.
    + intros _. destruct rest as [|b rest'].
      * simpl. rewrite Hi. unfold size. simpl. lia.
      * rewrite IHi by done. lia.
    + rewrite IHst, Hq, Hst.
      assert (rest = [] ∨ (rest ≠ [] ∧ 0 < size rest)) as [->|[Hr Hpos]].
      { destruct rest; [by left | right]. split; [done|]. unfold size. simpl. lia. }
      * change (size (@nil (option string))) with 0 in *.
        repeat case_decide; try done; exfalso; intuition (done || lia).
      * repeat case_decide; try done; exfalso; intuition (done || lia).
Qed.

(** X12. Submitting [N >= 1] answers in order, at indices 0 to [N - 1], on a
    session of [L >= N] questions held in memory: afterwards the first [N]
    recorded answers are the answers submitted and the others are as before,
    [currentIndex] is [N], and the status is COMPLETED when [N = L] and
    unchanged when [N < L]. *)
Theorem submitting_in_order sid answers sv session :
  sessions sv !! sid = Some session →
  answers ≠ [] →
  size answers <= size (questions session) →
  ∃ session',
    sessions (run sid (submitsFrom 0 answers) sv) !! sid = Some session'
    ∧ answers_of session'
      = answers ++ drop (length answers) (answers_of session)
    ∧ currentIndex session' = size answers
    ∧ (size answers = size (questions session) → status session' = COMPLETED)
    ∧ (size answers < size (questions session) →
       status session' = status session).
Proof.
  intros Hs Hne Hle.
  pose proof (run_effects sid (submitsFrom 0 answers) sv session Hs) as Hrun.
  destruct (submits_effects sid answers 0%nat session) as (Ha & Hq & Hi & Hst);
    [simpl; lia|].
  change (Z.of_nat 0) with 0 in *.
  set (s' := foldl (λ acc (gop : Gateway * Op), effect sid gop.2 acc) session
               (submitsFrom 0 answers)) in *.
  exists s'. split; [exact Hrun|]. split_and!.
  - apply list_eq. intros j. rewrite Ha.
    destruct (decide (0 ≤ j < 0 + length answers)%nat) as [Hj|Hj].
    + rewrite lookup_app_l by lia. by rewrite Nat.sub_0_r.
    + rewrite lookup_app_r by lia. rewrite lookup_drop. f_equal. lia.
  - rewrite Hi by done. lia.
  - intros Heq. rewrite Hst. by rewrite decide_True by (split; [done|lia]).
  - intros Hlt. rewrite Hst. by rewrite decide_False by (intros [? ?]; lia).
Qed.

End InOrder.

Lemma submitting_in_order_witness :
  let answers := [Some "A search service."%string; None; Some "One index."%string] in
  ∃ session',
    sessions (run (evaluationService := Scenario.evaluator) Scenario.sid
                (submitsFrom 0 answers) (Scenario.created 3)) !! Scenario.sid
      = Some session'
    ∧ answers_of session' = answers
    ∧ status session' = COMPLETED.
Proof.
  intros answers.
  destruct (submitting_in_order (evaluationService := Scenario.evaluator)
              Scenario.sid answers (Scenario.created 3) (Scenario.initial 3))
    as (session' & Hs & Ha & _ & Hdone & _).
  - vm_compute. reflexivity.
  - discriminate.
  - vm_compute. discriminate.
  - exists session'. split_and!; [exact Hs | exact Ha | apply Hdone; reflexivity].
Defined.


(** ** Rebuilding a session from its rows *)

Lemma applyAnswer_unanswered qs r :
  unanswered <$> applyAnswer qs r = unanswered <$> qs.
Proof.
  destruct (decide (0 <= InterviewAnswerEntity.questionIndex r < size qs)) as [Hi|Hi].
  - destruct (applyAnswer_valid qs r Hi) as (q & Hq & ->).
    unfold set, get in *. rewrite decide_True in Hq by lia.
    rewrite list_fmap_insert. apply list_insert_id.
    by rewrite list_lookup_fmap, Hq.
  - by rewrite applyAnswer_invalid.
Qed.

Lemma foldl_applyAnswer_unanswered qs rows :
  unanswered <$> foldl applyAnswer qs rows = unanswered <$> qs.
Proof.
  revert qs. induction rows as [|r rows IH]; intros qs; [done|].
  simpl. by rewrite IH, applyAnswer_unanswered.
Qed.

Lemma foldl_applyAnswer_in_range qs rows :
  foldl applyAnswer qs rows
  = foldl applyAnswer qs
      (filter (λ r, 0 <= InterviewAnswerEntity.questionIndex r < size qs) rows).
Proof.
  revert qs. induction rows as [|r rows IH]; intros qs; [done|].
  rewrite filter_cons. simpl. case_decide as Hi.
  - simpl. rewrite IH. by rewrite size_applyAnswer.
  - rewrite applyAnswer_invalid by done. apply IH.
Qed.

(** X13. A session is rebuilt from its row whatever the answer rows are:
    the rebuilt question list has the length of the stored one and the same
    questions up to their answers, and the answer rows whose index is outside
    the list are skipped: rebuilding without them gives the same questions. *)
Theorem restore_keeps_questions entity db :
  let rows :=
    InterviewPersistenceService.findAnswersBySessionId
      (InterviewSessionEntity.sessionId entity) db in
  let stored := InterviewSessionEntity.questionsJson entity in
  ∃ session,
    restoreSessionFromEntity entity db = Some session
    ∧ size (questions session) = size stored
    ∧ unanswered <$> questions session = unanswered <$> stored
    ∧ questions session
      = foldl applyAnswer stored
          (filter (λ r, 0 <= InterviewAnswerEntity.questionIndex r < size stored)
             rows).
Proof.
  intros rows stored. eexists. split; [reflexivity|]. simpl. split_and!.
  - apply size_foldl_applyAnswer.
  - apply foldl_applyAnswer_unanswered.
  - apply foldl_applyAnswer_in_range.
Qed.

(** X14. In the rebuilt session, the answer at an index is the answer of the
    last row for that index, and a question for which there is no row keeps
    the answer stored with the question list. *)
Theorem restore_last_row_wins entity db before row after :
  let i := InterviewAnswerEntity.questionIndex row in
  InterviewPersistenceService.findAnswersBySessionId
    (InterviewSessionEntity.sessionId entity) db = before ++ row :: after →
  0 <= i < size (InterviewSessionEntity.questionsJson entity) →
  i ∉ indexes after →
  ∃ session,
    restoreSessionFromEntity entity db = Some session
    ∧ get (answers_of session) i
      = Some (InterviewAnswerEntity.userAnswer row)
    ∧ (∀ j, 0 <= j → j ∉ indexes (before ++ row :: after) →
         get (questions session) j
         = get (InterviewSessionEntity.questionsJson entity) j).
Proof.
  intros i Hrows Hi Hnot. subst i. eexists. split; [reflexivity|]. simpl.
  rewrite Hrows. split.
  - rewrite foldl_app. simpl.
    set (qs := foldl applyAnswer (InterviewSessionEntity.questionsJson entity) before).
    assert (0 <= InterviewAnswerEntity.questionIndex row < size qs) as Hi'
      by (subst qs; by rewrite size_foldl_applyAnswer).
    destruct (applyAnswer_valid qs row Hi') as (q & Hq & ->).
    rewrite foldl_applyAnswer_set by (lia || done).
    unfold answers_of. cbn [questions]. rewrite get_fmap, get_set_eq; [done|].
    by rewrite size_foldl_applyAnswer.
  - intros j Hj. generalize (before ++ row :: after).
    generalize (InterviewSessionEntity.questionsJson entity).
    intros qs rows. revert qs. induction rows as [|r rows IH]; intros qs Hno; [done|].
    unfold indexes in Hno. rewrite fmap_cons, not_elem_of_cons in Hno.
    destruct Hno as [Hne Hno]. simpl. rewrite (IH _ Hno).
    destruct (decide (0 <= InterviewAnswerEntity.questionIndex r < size qs)) as [Hr|Hr].
    + destruct (applyAnswer_valid qs r Hr) as (q & _ & ->).
      apply get_set_ne; [lia | done].
    + by rewrite applyAnswer_invalid.
Qed.

Lemma restore_last_row_wins_witness :
  let entity :=
    InterviewSessionEntity.mk Scenario.sid 7 3 Scenario.pool 1
      InterviewSessionEntity.IN_PROGRESS None in
  let row a := InterviewAnswerEntity.mk Scenario.sid 0 ""%string ""%string
                 (Some a) 0 None in
  let db := InterviewPersistenceService.mkStore [entity]
              [row "first"%string; row "second"%string] ∅ in
  ∃ session,
    restoreSessionFromEntity entity db = Some session
    ∧ get (answers_of session) 0 = Some (Some "second"%string).
Proof.
  intros entity row db.
  destruct (restore_last_row_wins entity db [row "first"%string]
              (row "second"%string) [])
    as (session & Hs & Ha & _).
  - vm_compute. reflexivity.
  - vm_compute. split; [discriminate | reflexivity].
  - apply not_elem_of_nil.
  - exists session. split; [exact Hs | exact Ha].
Defined.

(** ** findUnfinishedSession *)

(** The rebuild with reads that may raise: [null] when one of its three
    reads raises, else the session the store gives; the state is as it
    was. *)
Lemma Recovery_restoreSessionFromEntity_run l entity sv :
  Recovery.restoreSessionFromEntity l entity sv
  = (inr (if Recovery.raises_within 3 l then None
          else restoreSessionFromEntity entity (persistenceService sv)), sv).
Proof. by destruct l as [|[|[|[|n]]]]. Qed.

(** [findUnfinishedSession] with reads that may raise, by cases on the
    reads, on the store and on the map. *)
Lemma Recovery_findUnfinishedSession_run l rid sv :
  Recovery.findUnfinishedSession l rid sv =
    if Recovery.raises_within 1 l then (inr None, sv)
    else
      match InterviewPersistenceService.findUnfinishedSession rid
              (persistenceService sv) with
      | None => (inr None, sv)
      | Some entity =>
          let id := InterviewSessionEntity.sessionId entity in
          match sessions sv !! id with
          | Some session => (inr (Some (toDTO session)), sv)
          | None =>
              if Recovery.raises_within 4 l then (inr None, sv)
              else
                match restoreSessionFromEntity entity (persistenceService sv) with
                | Some restored =>
                    (inr (Some (toDTO restored)),
                     mkService (<[id := restored]> (sessions sv))
                       (persistenceService sv))
                | None => (inr None, sv)
                end
          end
      end.
Proof.
  unfold Recovery.findUnfinishedSession, Recovery.try_catch.
  destruct l as [|[|n]]; [| done |];
    unfold Recovery.read, bind at 1, query;
    (destruct (InterviewPersistenceService.findUnfinishedSession rid
                 (persistenceService sv)) as [entity|]; [|done]);
    unfold bind at 1, sessions_get;
    (destruct (sessions sv !! InterviewSessionEntity.sessionId entity);
       [done|]);
    unfold bind at 1; rewrite Recovery_restoreSessionFromEntity_run.
  - cbn [Recovery.raises_within Recovery.later].
    by destruct (restoreSessionFromEntity entity (persistenceService sv)).
  - destruct n as [|[|[|n]]];
      cbn [Recovery.raises_within Recovery.later pred Nat.ltb Nat.leb]; done.
Qed.

(** X15. [findUnfinishedSession] never raises, whichever read of the store
    raises, and never writes the store.  It returns nothing exactly when
    its lookup raises, when the store has no unfinished session for the
    subject, or when the session found is not in memory and a read of its
    rebuild raises; the state is then as it was.  Otherwise it returns the
    DTO of the session held under the identifier of the row found: the
    session already in memory when there is one, as it is and without any
    change of state and without a further read, else the session rebuilt from
    the store, which is then put in the map.  No other map entry changes.
    With every read answering, the method is [findUnfinishedSession] as
    [createSession] calls it. *)
Theorem findUnfinishedSession_contract l rid sv :
  let found :=
    InterviewPersistenceService.findUnfinishedSession rid (persistenceService sv) in
  let result := Recovery.findUnfinishedSession l rid sv in
  persistenceService result.2 = persistenceService sv
  ∧ (∀ e, result.1 ≠ inl e)
  ∧ (result.1 = inr None
     ↔ Recovery.raises_within 1 l = true
       ∨ found = None
       ∨ ∃ entity,
           found = Some entity
           ∧ sessions sv !! InterviewSessionEntity.sessionId entity = None
           ∧ Recovery.raises_within 4 l = true)
  ∧ (result.1 = inr None → result.2 = sv)
  ∧ (∀ dto, result.1 = inr (Some dto) →
       ∃ entity session,
         let id := InterviewSessionEntity.sessionId entity in
         found = Some entity
         ∧ dto = toDTO session
         ∧ sessions result.2 !! id = Some session
         ∧ (∀ cached, sessions sv !! id = Some cached →
              session = cached ∧ result.2 = sv)
         ∧ (sessions sv !! id = None →
              restoreSessionFromEntity entity (persistenceService sv) = Some session)
         ∧ (∀ other, other ≠ id → sessions result.2 !! other = sessions sv !! other))
  ∧ Recovery.findUnfinishedSession Answering rid sv = findUnfinishedSession rid sv.
Proof.
  intros found result. subst found result.
  assert (Recovery.findUnfinishedSession Answering rid sv
          = findUnfinishedSession rid sv) as Hsame
    by (by rewrite Recovery_findUnfinishedSession_run,
             findUnfinishedSession_run).
  rewrite Recovery_findUnfinishedSession_run.
  destruct (Recovery.raises_within 1 l) eqn:H1.
  { split_and!; try done. split; [by left|done]. }
  destruct (InterviewPersistenceService.findUnfinishedSession rid
              (persistenceService sv)) as [entity|] eqn:Hfind.
  2:{ split_and!; try done. split; [by right; left|done]. }
  cbn zeta.
  destruct (sessions sv !! InterviewSessionEntity.sessionId entity)
    as [cached|] eqn:Hc.
  { split_and!; try done.
    - split; [done|]. intros [?|[?|(e & He & Hn & _)]]; try done.
      injection He as <-. by rewrite Hc in Hn.
    - intros dto [= <-]. exists entity, cached. split_and!; try done.
      + intros c Heq. rewrite Hc in Heq. by injection Heq as ->.
      + intros Hn. by rewrite Hc in Hn. }
  destruct (Recovery.raises_within 4 l) eqn:H4.
  { split_and!; try done. split; [|done]. intros _. right. right.
    by exists entity. }
  destruct (restoreSessionFromEntity entity (persistenceService sv))
    as [restored|] eqn:Hr; [|discriminate Hr].
  split_and!; try done.
  - split; [done|]. intros [?|[?|(e & _ & _ & ?)]]; done.
  - intros dto [= <-]. exists entity, restored. cbn zeta. split_and!; try done.
    + apply lookup_insert_eq.
    + intros c Heq. by rewrite Hc in Heq.
    + intros other Hne. by apply lookup_insert_ne.
Qed.


(** ** How the operations compose *)

(** X16. Asking for the current question twice in a row returns the same
    answer twice, and the second call changes nothing, in memory or in the
    store: only the first access of a CREATED session has an effect. *)
Theorem getCurrentQuestion_idempotent g g' sid sv session sv0 :
  getOrRestoreSession sid sv = (inr session, sv0) →
  0 <= currentIndex session →
  let first := getCurrentQuestion g sid sv in
  getCurrentQuestion g' sid first.2 = first.
Proof.
  intros Hres Hnn first. subst first.
  destruct (getOrRestoreSession_ok _ _ _ _ Hres) as (_ & _ & _ & Hres0).
  destruct (decide (currentIndex session >= size (questions session))) as [Hex|Hex].
  - rewrite (getCurrentQuestion_exhausted g sid sv session sv0 Hres Hex). simpl.
    apply (getCurrentQuestion_exhausted g' sid sv0 session sv0 Hres0 Hex).
  - rewrite (getCurrentQuestion_serves g sid sv session sv0 Hres) by lia.
    destruct (decide (status session = CREATED)) as [Hc|Hc]; simpl.
    + set (sv1 := mkService _ _).
      assert (getOrRestoreSession sid sv1 = (inr (started session), sv1)) as Hres1
        by (apply getOrRestoreSession_cached; apply lookup_insert_eq).
      assert (started session = set_status IN_PROGRESS session) as Hst
        by (unfold started; by rewrite decide_True).
      rewrite (getCurrentQuestion_serves g' sid sv1 _ sv1 Hres1)
        by (rewrite Hst; simpl; lia).
      rewrite Hst. simpl. rewrite ?decide_False by done. done.
    + rewrite (getCurrentQuestion_serves g' sid sv0 session sv0 Hres0) by lia.
      by rewrite decide_False by done.
Qed.

Lemma getCurrentQuestion_idempotent_witness :
  getCurrentQuestion (FailsAt 0) Scenario.sid
    (getCurrentQuestion Healthy Scenario.sid (Scenario.created 3)).2
  = getCurrentQuestion Healthy Scenario.sid (Scenario.created 3).
Proof.
  apply (getCurrentQuestion_idempotent Healthy (FailsAt 0) Scenario.sid
           (Scenario.created 3) (Scenario.initial 3) (Scenario.created 3)).
  - vm_compute. reflexivity.
  - vm_compute. discriminate.
Defined.

Section Completion.
Context {evaluationService : AnswerEvaluationService}.

(** X17. After [completeInterview] has succeeded, a second
    [completeInterview] raises [INTERVIEW_ALREADY_COMPLETED] and changes
    nothing, and [generateReport] no longer raises
    [INTERVIEW_NOT_COMPLETED]: it returns the evaluator's report on the
    questions as they were, or raises as the evaluator does. *)
Theorem completeInterview_then g g' sid sv session sv0 :
  getOrRestoreSession sid sv = (inr session, sv0) →
  ¬ (status session = COMPLETED ∨ status session = EVALUATED) →
  let sv1 := (completeInterview g sid sv).2 in
  completeInterview g' sid sv1 = (inl INTERVIEW_ALREADY_COMPLETED, sv1)
  ∧ (generateReport g' sid sv1).1
    = match evaluateInterview sid (resumeText session) (questions session) with
      | Some report => inr report
      | None => inl EVALUATION_FAILED
      end.
Proof.
  intros Hres Hst sv1. subst sv1.
  rewrite (completeInterview_completes g sid sv session sv0 Hres Hst). simpl.
  set (sv1 := mkService _ _).
  assert (getOrRestoreSession sid sv1 = (inr (set_status COMPLETED session), sv1))
    as Hres1 by (apply getOrRestoreSession_cached; apply lookup_insert_eq).
  split.
  - apply (completeInterview_rejects g' sid sv1 _ sv1 Hres1). by left.
  - rewrite (generateReport_evaluates g' sid sv1 _ sv1 Hres1) by (by left).
    simpl. by destruct (evaluateInterview _ _ _).
Qed.

(** X18. When the evaluator raises, [generateReport] raises
    [EVALUATION_FAILED] before it assigns the status: the session stays
    COMPLETED (or EVALUATED), nothing is written to the store, and the state
    is the one in which the session was resolved. *)
Theorem generateReport_evaluation_failure g sid sv session sv0 :
  getOrRestoreSession sid sv = (inr session, sv0) →
  status session = COMPLETED ∨ status session = EVALUATED →
  evaluateInterview sid (resumeText session) (questions session) = None →
  generateReport g sid sv = (inl EVALUATION_FAILED, sv0)
  ∧ sessions sv0 !! sid = Some session
  ∧ persistenceService sv0 = persistenceService sv.
Proof.
  intros Hres Hst Hev.
  destruct (getOrRestoreSession_ok _ _ _ _ Hres) as (Hs & Hdb & _ & _).
  rewrite (generateReport_evaluates g sid sv session sv0 Hres Hst), Hev. done.
Qed.

(** X19. Under every operation the status keeps or raises its place in the
    order CREATED, IN_PROGRESS, COMPLETED, EVALUATED, with one exception: a
    [submitAnswer] at the last index on an EVALUATED session leaves it
    COMPLETED.  So a session never becomes CREATED again, and one that is
    COMPLETED or EVALUATED never becomes CREATED or IN_PROGRESS again. *)
Theorem status_moves_forward g sid op sv session sv0 :
  getOrRestoreSession sid sv = (inr session, sv0) →
  ∃ session',
    sessions (exec g sid op sv) !! sid = Some session'
    ∧ (rank (status session) <= rank (status session')
       ∨ (status session = EVALUATED
          ∧ status session' = COMPLETED
          ∧ ∃ i a, op = SubmitAnswer i a ∧ i + 1 = size (questions session)))
    ∧ (status session' = CREATED → status session = CREATED)
    ∧ (rank COMPLETED <= rank (status session) →
       rank COMPLETED <= rank (status session')).
Proof.
  intros Hres. exists (effect sid op session).
  split; [by apply (exec_effect g sid op sv session sv0)|].
  pose proof (effect_rank sid op session) as Hrank.
  split_and!; [done | |].
  - intros Hc. destruct Hrank as [Hle|(_ & Hcomp & _)].
    + rewrite Hc in Hle. by destruct (status session).
    + by rewrite Hc in Hcomp.
  - intros Hge. destruct Hrank as [Hle|(_ & -> & _)]; [lia | done].
Qed.

End Completion.

Lemma completeInterview_then_witness :
  completeInterview (FailsAt 0) Scenario.sid
    (completeInterview Healthy Scenario.sid (Scenario.created 3)).2
  = (inl INTERVIEW_ALREADY_COMPLETED,
     (completeInterview Healthy Scenario.sid (Scenario.created 3)).2).
Proof.
  refine (proj1 (completeInterview_then (evaluationService := Scenario.evaluator)
                   Healthy (FailsAt 0) Scenario.sid (Scenario.created 3)
                   (Scenario.initial 3) (Scenario.created 3) _ _)).
  - vm_compute. reflexivity.
  - vm_compute. intros [H|H]; discriminate H.
Defined.

Lemma generateReport_evaluation_failure_witness :
  let sv := (completeInterview Healthy Scenario.sid (Scenario.created 3)).2 in
  generateReport (evaluationService := Fixtures.failingEvaluator) Healthy
    Scenario.sid sv
  = (inl EVALUATION_FAILED, sv).
Proof.
  intros sv.
  refine (proj1 (generateReport_evaluation_failure
                   (evaluationService := Fixtures.failingEvaluator)
                   Healthy Scenario.sid sv
                   (set_status COMPLETED (Scenario.initial 3)) sv _ _ _)).
  - vm_compute. reflexivity.
  - left. reflexivity.
  - reflexivity.
Defined.

Lemma status_moves_forward_witness :
  ∃ session',
    sessions (exec (evaluationService := Scenario.evaluator) Healthy
                Scenario.sid GetCurrentQuestion (Scenario.created 3))
      !! Scenario.sid = Some session'
    ∧ (status session' = CREATED → status (Scenario.initial 3) = CREATED).
Proof.
  destruct (status_moves_forward (evaluationService := Scenario.evaluator)
              Healthy Scenario.sid GetCurrentQuestion (Scenario.created 3)
              (Scenario.initial 3) (Scenario.created 3))
    as (session' & Hs & _ & Hc & _).
  - vm_compute. reflexivity.
  - exists session'. split; [exact Hs | exact Hc].
Defined.

(** ** The store follows the memory *)

Section Follows.
Context {questionService : InterviewQuestionService}.
Context {evaluationService : AnswerEvaluationService}.

(** X20. A session is created for a subject, no unfinished one being there,
    under an identifier that no answer row carries; any calls on it follow,
    every write reaching the store.  Then the session rebuilt from the store
    alone has the questions, the answers and the [currentIndex] of the
    session in memory. *)
Theorem store_follows_memory uuid request rid sv dto sv1 ops :
  CreateInterviewRequest.resumeId request = Some rid →
  InterviewPersistenceService.findUnfinishedSession rid (persistenceService sv)
    = None →
  InterviewPersistenceService.findAnswersBySessionId uuid (persistenceService sv)
    = [] →
  createSession uuid Healthy request sv = (inr dto, sv1) →
  Forall (λ gop : Gateway * Op, gop.1 = Healthy) ops →
  let sv2 := run uuid ops sv1 in
  ∃ inMemory restored,
    sessions sv2 !! uuid = Some inMemory
    ∧ getOrRestoreSession uuid (mkService ∅ (persistenceService sv2))
      = (inr restored, mkService {[uuid := restored]} (persistenceService sv2))
    ∧ questions restored = questions inMemory
    ∧ answers_of restored = answers_of inMemory
    ∧ currentIndex restored = currentIndex inMemory.
Proof.
  intros Hrid Hnone Hrows Hcreate Hops sv2.
  rewrite createSession_run, Hrid, findUnfinishedSession_run, Hnone in Hcreate.
  destruct (store_mirrors_createFresh uuid request rid sv dto sv1 Hrid Hrows Hcreate)
    as (Hm1 & _ & _).
  pose proof (store_mirrors_run uuid ops sv1 Hops Hm1) as Hm2.
  destruct (store_mirrors_restore uuid _ Hm2)
    as (m & r & Hm & Hres & Hq & Ha & Hi & _).
  by exists m, r.
Qed.

End Follows.

Lemma store_follows_memory_witness :
  let ops := [ (Healthy, SaveAnswer 1 (Some "a draft"%string));
               (Healthy, SubmitAnswer 0 (Some "A search service."%string));
               (Healthy, SaveAnswer 1 (Some "By chaining"%string));
               (Healthy, CompleteEarly); (Healthy, GenerateReport) ] in
  let sv2 := run (evaluationService := Scenario.evaluator) Scenario.sid ops
               (Scenario.created 3) in
  ∃ inMemory restored,
    sessions sv2 !! Scenario.sid = Some inMemory
    ∧ (getOrRestoreSession Scenario.sid (Scenario.evicted sv2)).1 = inr restored
    ∧ answers_of restored = answers_of inMemory.
Proof.
  intros ops sv2.
  destruct (store_follows_memory (questionService := Scenario.generator)
              (evaluationService := Scenario.evaluator)
              Scenario.sid (Scenario.resumeOf 7 3) 7 Scenario.fresh
              (toDTO (Scenario.initial 3)) (Scenario.created 3) ops)
    as (m & r & Hm & Hres & _ & Ha & _).
  - reflexivity.
  - vm_compute. reflexivity.
  - vm_compute. reflexivity.
  - vm_compute. reflexivity.
  - repeat (apply Forall_cons_2; [reflexivity|]). apply Forall_nil_2.
  - exists m, r. fold sv2 in Hm, Hres. unfold Scenario.evicted. rewrite Hres.
    split_and!; [exact Hm | reflexivity | exact Ha].
Defined.


(** * The interview page on top of the service *)

Lemma turn_shown i q :
  Interview.shownQuestions (Interview.turn i q) = [Some i]
  ∧ Interview.shownAnswers (Interview.turn i q)
    = match shown q with Some a => [a] | None => [] end.
Proof.
  unfold Interview.turn, Interview.shownQuestions, Interview.shownAnswers, shown.
  destruct (userAnswer q) as [a|]; [|done].
  by destruct (Interview.truthy (Some a)).
Qed.

Lemma restoredMessages_shown qs : ∀ i,
  Interview.shownQuestions (Interview.restoredMessages i qs)
    = Some <$> seqZ i (size qs)
  ∧ Interview.shownAnswers (Interview.restoredMessages i qs) = omap shown qs.
Proof.
  induction qs as [|q rest IH]; intros i; [done|].
  destruct (IH (i + 1)) as [IHq IHa].
  destruct (turn_shown i q) as [Hq Ha].
  unfold Interview.shownQuestions, Interview.shownAnswers in *.
  cbn [Interview.restoredMessages].
  rewrite !filter_app, !fmap_app, Hq, Ha, IHq, IHa.
  split.
  - assert (size (q :: rest) = Z.succ (size rest)) as -> by (unfold size; simpl; lia).
    rewrite (seqZ_cons i) by (unfold size; lia).
    rewrite Z.pred_succ. simpl. by replace (Z.succ i) with (i + 1) by lia.
  - simpl. by destruct (shown q).
Qed.

(** X21. [restoreSession] on a session whose [currentQuestionIndex] is
    within its questions: the page goes to the interview stage with that
    session, the current question is [questions[currentQuestionIndex]], the
    interviewer's messages are those of the questions 0 to
    [currentQuestionIndex] in order, the user's messages are the non-empty
    answers of those questions in order, and the input holds the current
    question's answer when it has a non-empty one and is left alone
    otherwise. *)
Theorem restoreSession_shows_progress dto st :
  let index := InterviewSessionDTO.currentQuestionIndex dto in
  let qs := InterviewSessionDTO.questions dto in
  0 <= index < size qs →
  let st' := Interview.restoreSession dto st in
  Interview.stage st' = Interview.interview
  ∧ Interview.session st' = Some dto
  ∧ Interview.currentQuestion st' = get qs index
  ∧ Interview.shownQuestions (Interview.messages st')
    = Some <$> seqZ 0 (index + 1)
  ∧ Interview.shownAnswers (Interview.messages st')
    = omap shown (take (Z.to_nat (index + 1)) qs)
  ∧ Some (Interview.answer st')
    = (q ← get qs index; Some (default (Interview.answer st) (shown q))).
Proof.
  intros index qs Hi st'. subst st'. unfold Interview.restoreSession.
  fold index qs. destruct (proj2 (get_is_Some qs index) Hi) as [q Hq].
  rewrite Hq. simpl.
  destruct (restoredMessages_shown (take (Z.to_nat (index + 1)) qs) 0) as [Hsq Hsa].
  assert (size (take (Z.to_nat (index + 1)) qs) = index + 1) as Hsz
    by (unfold size in *; rewrite length_take; lia).
  rewrite Hsz in Hsq. rewrite Hsq, Hsa. split_and!; try done.
  unfold shown, Interview.truthy. destruct (userAnswer q) as [a|]; [|done].
  by destruct (negb (a =? "")%string).
Qed.

(** X22. [restoreSession] on a session whose [currentQuestionIndex] is not
    the index of a question (a session with every question submitted, or
    without questions): the page goes to the interview stage with that
    session, but the current question, the messages and the input are left
    as they were. *)
Theorem restoreSession_without_current_question dto st :
  let index := InterviewSessionDTO.currentQuestionIndex dto in
  ¬ (0 <= index < size (InterviewSessionDTO.questions dto)) →
  Interview.restoreSession dto st
  = Interview.mkState Interview.interview (Some dto)
      (Interview.currentQuestion st) (Interview.messages st)
      (Interview.answer st).
Proof.
  intros index Hi. unfold Interview.restoreSession. fold index.
  by rewrite (proj2 (get_None _ index) Hi).
Qed.

Lemma hasProgress_true dto :
  InterviewSessionDTO.currentQuestionIndex dto > 0
  ∨ (∃ q, q ∈ InterviewSessionDTO.questions dto
          ∧ Interview.truthy (userAnswer q) = true)
  ∨ InterviewSessionDTO.status dto = IN_PROGRESS →
  Interview.hasProgress dto = true.
Proof.
  unfold Interview.hasProgress. intros [Hi|[(q & Hin & Hq)|Hst]].
  - by rewrite bool_decide_eq_true_2.
  - assert (existsb (λ q0, Interview.truthy (userAnswer q0))
              (InterviewSessionDTO.questions dto) = true) as ->.
    { apply existsb_exists. exists q. split; [by apply list_elem_of_In | done]. }
    by rewrite orb_true_r.
  - rewrite (bool_decide_eq_true_2 _ Hst). by rewrite orb_true_r.
Qed.

Section Page.
Context {questionService : InterviewQuestionService}.
Context {evaluationService : AnswerEvaluationService}.

(** X23. A session that [createSession] has just made, when the generator
    gives questions without answers, is not taken for a resumed one by the
    page: [hasProgress] is false, and [startInterview] shows the first
    question alone and leaves the input as it was. *)
Theorem new_session_is_not_resumed uuid g request sv dto sv1 st :
  match CreateInterviewRequest.resumeId request with
  | Some rid =>
      InterviewPersistenceService.findUnfinishedSession rid (persistenceService sv)
      = None
  | None => True
  end →
  createSession uuid g request sv = (inr dto, sv1) →
  Forall (λ q, Interview.truthy (userAnswer q) = false)
    (InterviewSessionDTO.questions dto) →
  Interview.hasProgress dto = false
  ∧ Interview.startInterview dto st
    = match InterviewSessionDTO.questions dto with
      | first :: _ =>
          Interview.mkState Interview.interview (Some dto) (Some first)
            [Message.mk Message.interviewer (question first)
               (Some (category first)) (Some 0)]
            (Interview.answer st)
      | [] =>
          Interview.mkState Interview.interview (Some dto)
            (Interview.currentQuestion st) (Interview.messages st)
            (Interview.answer st)
      end.
Proof.
  intros Hfresh Hcreate Hqs.
  assert (createFresh uuid g request sv = (inr dto, sv1)) as Hf.
  { rewrite createSession_run in Hcreate.
    destruct (CreateInterviewRequest.resumeId request) as [rid|]; [|done].
    by rewrite findUnfinishedSession_run, Hfresh in Hcreate. }
  assert (InterviewSessionDTO.currentQuestionIndex dto = 0
          ∧ InterviewSessionDTO.status dto = CREATED) as [Hi Hst].
  { unfold createFresh in Hf. destruct (generateQuestions _ _); [|discriminate].
    by injection Hf as <- _. }
  assert (Interview.hasProgress dto = false) as Hno.
  { unfold Interview.hasProgress. rewrite Hi, Hst.
    rewrite bool_decide_eq_false_2 by lia.
    rewrite bool_decide_eq_false_2 by done.
    rewrite !orb_false_r. simpl.
    induction Hqs as [|q qs Hq _ IH]; [done|]. simpl. by rewrite Hq. }
  split; [done|]. unfold Interview.startInterview. rewrite Hno.
  by destruct (InterviewSessionDTO.questions dto).
Qed.

(** X24. A session on which something has been done is taken for a resumed
    one: [hasProgress] holds for its DTO after any accepted [submitAnswer]
    (whatever the status, which [submitAnswer] may leave CREATED), after an
    accepted [saveAnswer] of a non-empty answer or on a CREATED session, and
    after a [getCurrentQuestion] that served a question of a CREATED
    session. *)
Theorem touched_session_is_resumed g sid op sv session sv0 :
  getOrRestoreSession sid sv = (inr session, sv0) →
  match op with
  | SubmitAnswer i _ => 0 <= i < size (questions session)
  | SaveAnswer i a =>
      0 <= i < size (questions session)
      ∧ (Interview.truthy a = true ∨ status session = CREATED)
  | GetCurrentQuestion =>
      currentIndex session < size (questions session) ∧ status session = CREATED
  | CompleteEarly | GenerateReport => False
  end →
  ∃ session',
    sessions (exec g sid op sv) !! sid = Some session'
    ∧ Interview.hasProgress (toDTO session') = true.
Proof.
  intros Hres Hop. exists (effect sid op session).
  split; [by apply (exec_effect g sid op sv session sv0)|].
  apply hasProgress_true. unfold toDTO. cbn [InterviewSessionDTO.currentQuestionIndex
    InterviewSessionDTO.questions InterviewSessionDTO.status].
  destruct op as [|i a|i a| |]; simpl in Hop |- *; try done.
  - destruct Hop as [Hlt Hc]. rewrite decide_False by lia.
    unfold started. rewrite decide_True by done. by right; right.
  - rewrite decide_True by done.
    destruct (afterSubmit_facts i a session Hop) as (_ & -> & _ & _).
    left. lia.
  - destruct Hop as [Hv Hor]. rewrite decide_True by done.
    destruct (proj2 (get_is_Some (questions session) i) Hv) as [q Hq].
    unfold afterSave, started, answered. rewrite Hq.
    destruct Hor as [Ht|Hc].
    + right; left. exists (withAnswer q a). split; [|done].
      assert (withAnswer q a ∈ set (questions session) i (withAnswer q a)) as Hin.
      { apply list_elem_of_lookup. exists (Z.to_nat i). unfold set.
        apply list_lookup_insert_eq. unfold valid_index, size in Hv. lia. }
      by case_decide.
    + right; right. cbn [status set_questions]. by rewrite decide_True.
Qed.

End Page.

Lemma restoreSession_shows_progress_witness :
  let dto := InterviewSessionDTO.mk Scenario.sid Scenario.resume 3 1
               (set Scenario.pool 0 (withAnswer (mkQuestion 0 ""%string ""%string None None)
                                       (Some "A search service."%string)))
               IN_PROGRESS in
  Interview.shownQuestions
    (Interview.messages (Interview.restoreSession dto Interview.initialState))
  = [Some 0; Some 1]
  ∧ Interview.shownAnswers
      (Interview.messages (Interview.restoreSession dto Interview.initialState))
    = ["A search service."%string].
Proof.
  intros dto.
  destruct (restoreSession_shows_progress dto Interview.initialState)
    as (_ & _ & _ & Hq & Ha & _).
  - vm_compute. split; [discriminate | reflexivity].
  - split; [exact Hq | exact Ha].
Defined.

Lemma restoreSession_without_current_question_witness :
  let dto := InterviewSessionDTO.mk Scenario.sid Scenario.resume 3 3
               Scenario.pool COMPLETED in
  Interview.restoreSession dto Interview.initialState
  = Interview.mkState Interview.interview (Some dto) None [] ""%string.
Proof.
  intros dto.
  apply (restoreSession_without_current_question dto Interview.initialState).
  vm_compute. intros [_ H]. discriminate H.
Defined.

Lemma new_session_is_not_resumed_witness :
  Interview.hasProgress (toDTO (Scenario.initial 3)) = false.
Proof.
  refine (proj1 (new_session_is_not_resumed (questionService := Scenario.generator)
                   Scenario.sid Healthy (Scenario.resumeOf 7 3) Scenario.fresh
                   (toDTO (Scenario.initial 3)) (Scenario.created 3)
                   Interview.initialState _ _ _)).
  - vm_compute. reflexivity.
  - vm_compute. reflexivity.
  - repeat (apply Forall_cons_2; [reflexivity|]). apply Forall_nil_2.
Defined.

Lemma touched_session_is_resumed_witness :
  ∃ session',
    sessions (exec (evaluationService := Scenario.evaluator) Healthy
                Scenario.sid (SubmitAnswer 0 None) (Scenario.created 3))
      !! Scenario.sid = Some session'
    ∧ status session' = CREATED
    ∧ Interview.hasProgress (toDTO session') = true.
Proof.
  destruct (touched_session_is_resumed (evaluationService := Scenario.evaluator)
              Healthy Scenario.sid (SubmitAnswer 0 None) (Scenario.created 3)
              (Scenario.initial 3) (Scenario.created 3))
    as (session' & Hs & Hp).
  - vm_compute. reflexivity.
  - vm_compute. split; [discriminate | reflexivity].
  - exists session'. split_and!; [exact Hs | | exact Hp].
    vm_compute in Hs. by injection Hs as <-.
Defined.


(** * The chat client *)

(** ** Strings *)

Lemma js_data : Js.js "data:" = [100; 97; 116; 97; 58].
Proof. reflexivity. Qed.

Lemma js_event : Js.js "event:" = [101; 118; 101; 110; 116; 58].
Proof. reflexivity. Qed.

Lemma js_id : Js.js "id:" = [105; 100; 58].
Proof. reflexivity. Qed.

Lemma trimStart_all w s :
  forallb Js.isWhiteSpace w = true → Js.trimStart (w ++ s) = Js.trimStart s.
Proof.
  induction w as [|c w IH]; simpl; [done|].
  intros [Hc Hw]%andb_prop. rewrite Hc. auto.
Qed.

Lemma trimStart_head s c :
  head s = Some c → Js.isWhiteSpace c = false → Js.trimStart s = s.
Proof. destruct s as [|c' s]; simpl; [done|]. intros [= ->] ->. done. Qed.

Lemma trimStart_split s :
  ∃ w, s = w ++ Js.trimStart s ∧ forallb Js.isWhiteSpace w = true.
Proof.
  induction s as [|c s (w & Hs & Hw)]; simpl.
  - by exists [].
  - destruct (Js.isWhiteSpace c) eqn:Hc.
    + exists (c :: w). simpl. rewrite Hc, Hw. by rewrite <- Hs.
    + by exists [].
Qed.

Lemma trimStart_starts s c :
  head (Js.trimStart s) = Some c → Js.isWhiteSpace c = false.
Proof.
  induction s as [|c' s IH]; simpl; [done|].
  destruct (Js.isWhiteSpace c') eqn:Hc; [done|]. simpl. by intros [= <-].
Qed.

Lemma forallb_reverse (f : Z → bool) l :
  forallb f (reverse l) = forallb f l.
Proof.
  induction l as [|c l IH]; [done|].
  rewrite reverse_cons, forallb_app. simpl. rewrite IH.
  destruct (f c), (forallb f l); done.
Qed.

(** What [trim] leaves has no white space at either end. *)
Lemma trim_ends s c :
  head (Js.trim s) = Some c ∨ last (Js.trim s) = Some c →
  Js.isWhiteSpace c = false.
Proof.
  unfold Js.trim, Js.trimEnd.
  rewrite head_reverse, last_reverse.
  destruct (trimStart_split (reverse (Js.trimStart s))) as (w & Hw & _).
  intros [Hl|Hh]; [|by eapply trimStart_starts].
  apply (trimStart_starts s).
  rewrite <- last_reverse, Hw, last_app, Hl. done.
Qed.

(** [trim] takes the white space off both ends of a text that has none at
    its own ends. *)
Lemma trim_sandwich w1 t w2 :
  forallb Js.isWhiteSpace w1 = true →
  forallb Js.isWhiteSpace w2 = true →
  (∀ c, head t = Some c ∨ last t = Some c → Js.isWhiteSpace c = false) →
  Js.trim (w1 ++ t ++ w2) = t.
Proof.
  intros H1 H2 Ht. unfold Js.trim, Js.trimEnd.
  rewrite (trimStart_all w1) by done.
  destruct t as [|c t].
  - simpl. rewrite <- (app_nil_r w2), (trimStart_all w2) by done. simpl.
    done.
  - rewrite (trimStart_head ((c :: t) ++ w2) c); [|done|by apply Ht; left].
    rewrite reverse_app, trimStart_all by by rewrite forallb_reverse.
    destruct (last (c :: t)) as [e|] eqn:He.
    + rewrite (trimStart_head (reverse (c :: t)) e), reverse_involutive;
        [done|by rewrite head_reverse|by apply Ht; right].
    + by apply last_None in He.
Qed.

Lemma trim_fixed s : Js.trim (Js.trim s) = Js.trim s.
Proof.
  rewrite <- (app_nil_r (Js.trim s)) at 1.
  apply (trim_sandwich [] (Js.trim s) []); [done..|]. apply trim_ends.
Qed.

Lemma trim_all w : forallb Js.isWhiteSpace w = true → Js.trim w = [].
Proof.
  intros Hw. rewrite <- (app_nil_r w).
  apply (trim_sandwich w [] []); [done..|]. by intros c [?|?].
Qed.

Lemma trimStart_nil s : Js.trimStart s = [] → forallb Js.isWhiteSpace s = true.
Proof.
  destruct (trimStart_split s) as (w & Hs & Hw). intros He.
  rewrite He, app_nil_r in Hs. by subst.
Qed.

Lemma trim_nil s : Js.trim s = [] → forallb Js.isWhiteSpace s = true.
Proof.
  unfold Js.trim, Js.trimEnd. intros He.
  apply (f_equal reverse) in He. rewrite reverse_involutive in He.
  apply trimStart_nil in He. rewrite forallb_reverse in He.
  destruct (trimStart_split s) as (w & Hs & Hw).
  rewrite Hs, forallb_app, Hw, He. done.
Qed.

(** [trim] of a text keeps its ends when they are not white space. *)
Lemma trim_same s :
  Js.trim s = s ↔
  ∀ c, head s = Some c ∨ last s = Some c → Js.isWhiteSpace c = false.
Proof.
  split.
  - intros <-. apply trim_ends.
  - intros Hs. rewrite <- (app_nil_r s) at 1. by apply (trim_sandwich [] s []).
Qed.

Lemma startsWith_app p s : Js.startsWith p (p ++ s) = true.
Proof. unfold Js.startsWith. by rewrite take_app_length, bool_decide_eq_true. Qed.

Lemma startsWith_nil p : p ≠ [] → Js.startsWith p [] = false.
Proof.
  intros Hp. unfold Js.startsWith. rewrite take_nil.
  by rewrite bool_decide_eq_false.
Qed.

(** ** Lines *)

Lemma split_cons sep c s :
  Js.split sep (c :: s)
  = if decide (c = sep) then [] :: Js.split sep s
    else match Js.split sep s with
         | piece :: pieces => (c :: piece) :: pieces
         | [] => [[c]]
         end.
Proof. done. Qed.

Lemma split_line sep a b :
  sep ∉ a → Js.split sep (a ++ sep :: b) = a :: Js.split sep b.
Proof.
  induction a as [|c a IH]; intros Ha.
  - simpl. by rewrite decide_True.
  - apply not_elem_of_cons in Ha as [Hc Ha].
    simpl. rewrite decide_False by done. by rewrite IH.
Qed.

Lemma split_one sep a : sep ∉ a → Js.split sep a = [a].
Proof.
  induction a as [|c a IH]; intros Ha; [done|].
  apply not_elem_of_cons in Ha as [Hc Ha].
  simpl. rewrite decide_False by done. by rewrite IH.
Qed.

Lemma split_within sep s :
  Forall (λ piece, (sep ∉ piece) ∧ (∀ c, c ∈ piece → c ∈ s)) (Js.split sep s).
Proof.
  induction s as [|c s IH]; simpl.
  - apply Forall_cons_2; [|apply Forall_nil_2].
    split; [apply not_elem_of_nil|done].
  - destruct (decide (c = sep)) as [->|Hc].
    + apply Forall_cons_2.
      * split; [apply not_elem_of_nil|]. by intros c ?%elem_of_nil.
      * eapply Forall_impl; [exact IH|]. intros piece [H1 H2].
        split; [done|]. intros c Hc. apply elem_of_cons. right. by apply H2.
    + destruct (Js.split sep s) as [|piece pieces].
      * apply Forall_cons_2; [|apply Forall_nil_2].
        split; [by apply not_elem_of_cons; split; [|apply not_elem_of_nil]|].
        intros c' Hc'. apply list_elem_of_singleton in Hc' as ->.
        apply elem_of_cons. by left.
      * apply Forall_cons in IH as [[H1 H2] IH].
        apply Forall_cons_2.
        -- split; [by apply not_elem_of_cons|].
           intros c' [->|Hc']%elem_of_cons; apply elem_of_cons; auto.
        -- eapply Forall_impl; [exact IH|]. intros p [H3 H4].
           split; [done|]. intros c' Hc'. apply elem_of_cons. right. by apply H4.
Qed.

Lemma split_join sep pieces :
  pieces ≠ [] → Forall (λ piece, sep ∉ piece) pieces →
  Js.split sep (Js.join [sep] pieces) = pieces.
Proof.
  induction pieces as [|piece rest IH]; [done|]. intros _ Hall.
  apply Forall_cons in Hall as [Hp Hrest].
  destruct rest as [|next rest].
  - simpl. by apply split_one.
  - change (Js.join [sep] (piece :: next :: rest))
      with (piece ++ sep :: Js.join [sep] (next :: rest)).
    rewrite split_line by done. by rewrite IH.
Qed.

Lemma join_nil sep pieces :
  Js.join sep pieces = [] → Forall (λ piece, piece = []) pieces.
Proof.
  induction pieces as [|piece rest IH]; [by intros; apply Forall_nil_2|].
  destruct rest as [|next rest].
  - simpl. intros ->. by apply Forall_cons_2; [|apply Forall_nil_2].
  - change (Js.join sep (piece :: next :: rest))
      with (piece ++ sep ++ Js.join sep (next :: rest)).
    intros (-> & (_ & Hj)%app_eq_nil)%app_eq_nil.
    apply Forall_cons_2; [done|]. by apply IH.
Qed.


Lemma trimStart_within s c : c ∈ Js.trimStart s → c ∈ s.
Proof.
  destruct (trimStart_split s) as (w & Hs & _). intros Hc.
  rewrite Hs. apply elem_of_app. by right.
Qed.

Lemma trim_within s c : c ∈ Js.trim s → c ∈ s.
Proof.
  unfold Js.trim, Js.trimEnd. intros Hc.
  rewrite elem_of_reverse in Hc. apply trimStart_within in Hc.
  rewrite elem_of_reverse in Hc. by apply trimStart_within.
Qed.

(** ** Events *)

(** What a line contributes is never empty, has nothing left to trim, is
    neither an [event:] nor an [id:] line, and is made of code units of the
    line. *)
Lemma contentOf_Some line content :
  RagChat.contentOf line = Some content →
  content ≠ []
  ∧ Js.trim content = content
  ∧ Js.startsWith (Js.js "event:") content = false
  ∧ Js.startsWith (Js.js "id:") content = false
  ∧ (∀ c, c ∈ content → c ∈ line).
Proof.
  unfold RagChat.contentOf.
  set (content0 :=
         if Js.startsWith (Js.js "data:") (Js.trim line)
         then Js.trim (Js.substringFrom 5 (Js.trim line)) else Js.trim line).
  assert (Js.trim content0 = content0 ∧ ∀ c, c ∈ content0 → c ∈ line)
    as [Htrim Hin].
  { subst content0. destruct (Js.startsWith _ (Js.trim line)).
    - split; [apply trim_fixed|]. intros c Hc.
      apply trim_within in Hc. unfold Js.substringFrom in Hc.
      apply trim_within. revert Hc. apply subseteq_drop.
    - split; [apply trim_fixed|]. apply trim_within. }
  destruct (Js.truthy (Some content0)) eqn:Ht; [|done].
  destruct (Js.startsWith (Js.js "event:") content0) eqn:He; [done|].
  destruct (Js.startsWith (Js.js "id:") content0) eqn:Hi; [done|].
  simpl. intros [= <-]. split_and!; try done.
  by destruct content0.
Qed.

Lemma contentOf_blank line :
  forallb Js.isWhiteSpace line = true → RagChat.contentOf line = None.
Proof.
  intros Hw. unfold RagChat.contentOf. rewrite (trim_all line) by done.
  rewrite startsWith_nil; [done|]. by rewrite js_data.
Qed.

Lemma plain_spec payload :
  RagChat.plain payload = true →
  payload ≠ []
  ∧ Js.trim payload = payload
  ∧ (RagChat.LF ∉ payload)
  ∧ Js.startsWith (Js.js "event:") payload = false
  ∧ Js.startsWith (Js.js "id:") payload = false.
Proof.
  unfold RagChat.plain.
  intros [[[[H1 H2]%andb_prop H3]%andb_prop H4]%andb_prop H5]%andb_prop.
  apply bool_decide_eq_true in H2, H3.
  apply negb_true_iff in H4, H5.
  split_and!; try done. by destruct payload.
Qed.

Lemma padding_spec w :
  RagChat.padding w = true →
  forallb Js.isWhiteSpace w = true ∧ (RagChat.LF ∉ w).
Proof.
  unfold RagChat.padding. intros [H1 H2]%andb_prop.
  by apply bool_decide_eq_true in H2.
Qed.

(** A [data:] line gives its payload, without the white space around the
    line and around the payload. *)
Lemma contentOf_data w0 w1 w2 payload :
  forallb Js.isWhiteSpace w0 = true →
  forallb Js.isWhiteSpace w1 = true →
  forallb Js.isWhiteSpace w2 = true →
  RagChat.plain payload = true →
  RagChat.contentOf (w0 ++ (Js.js "data:" ++ w1 ++ payload) ++ w2)
  = Some payload.
Proof.
  intros H0 H1 H2 (Hne & Htrim & _ & He & Hi)%plain_spec.
  unfold RagChat.contentOf.
  assert (∀ c, head payload = Some c ∨ last payload = Some c →
               Js.isWhiteSpace c = false) as Hends by by apply trim_same.
  rewrite (trim_sandwich w0 (Js.js "data:" ++ w1 ++ payload) w2); [|done..|].
  - rewrite startsWith_app. unfold Js.substringFrom.
    change 5%nat with (length (Js.js "data:")). rewrite drop_app_length.
    assert (Js.trim (w1 ++ payload) = payload) as ->.
    { rewrite <- (app_nil_r payload) at 1.
      by apply (trim_sandwich w1 payload []). }
    rewrite He, Hi. by destruct payload.
  - intros c [Hc|Hc].
    + rewrite js_data in Hc. simpl in Hc. by injection Hc as <-.
    + rewrite !last_app in Hc.
      destruct (last payload) as [e|] eqn:Hl; [|by apply last_None in Hl].
      apply Hends. right. done.
Qed.

(** The result of [extractEventContent] read off the lines of the event:
    the early return on a blank event changes nothing. *)
Lemma extractEventContent_lines event :
  RagChat.extractEventContent event
  = match omap RagChat.contentOf (Js.split RagChat.LF event) with
    | [] => None
    | contentLines => Some (Js.join [RagChat.LF] contentLines)
    end.
Proof.
  unfold RagChat.extractEventContent.
  destruct (Js.truthy (Some (Js.trim event))) eqn:Ht; cbn [negb].
  - destruct (omap RagChat.contentOf (Js.split RagChat.LF event))
      as [|c cl] eqn:Hcl; [done|].
    destruct (Js.join [RagChat.LF] (c :: cl)) as [|x r] eqn:Hj; [|done].
    apply join_nil, Forall_cons in Hj as [-> _].
    assert ([] ∈ omap RagChat.contentOf (Js.split RagChat.LF event)) as Hin
      by (rewrite Hcl; apply elem_of_cons; by left).
    apply list_elem_of_omap in Hin as (line & _ & Hline).
    by apply contentOf_Some in Hline as [? _].
  - assert (Js.trim event = []) as He by by destruct (Js.trim event).
    apply trim_nil in He.
    assert (Forall (λ line, RagChat.contentOf line = None)
              (Js.split RagChat.LF event)) as Hall.
    { eapply Forall_impl; [apply split_within|]. intros line [_ Hin].
      apply contentOf_blank. apply forallb_forall. intros c Hc.
      apply (proj1 (forallb_forall _ _) He). apply list_elem_of_In.
      apply Hin. by apply list_elem_of_In. }
    induction Hall as [|line lines Hline _ IH]; [done|].
    simpl. by rewrite Hline.
Qed.


Lemma extractEventContent_nonempty event result :
  RagChat.extractEventContent event = Some result → result ≠ [].
Proof.
  unfold RagChat.extractEventContent.
  destruct (negb _); [done|].
  destruct (Js.truthy _) eqn:Ht; [|done]. intros [= <-].
  by destruct (Js.join _ _).
Qed.

(** The two ways in which the loop tests a result, [if (content)] and
    [if (content !== null)], come to the same. *)
Lemma emit_truthy event cs :
  (if Js.truthy (RagChat.extractEventContent event)
   then RagChat.emit (RagChat.extractEventContent event) cs else cs)
  = RagChat.emit (RagChat.extractEventContent event) cs.
Proof.
  destruct (RagChat.extractEventContent event) as [r|] eqn:He; [|done].
  apply extractEventContent_nonempty in He. by destruct r.
Qed.

(** X25. What [extractEventContent] returns is never the empty string: it is
    [null] exactly when no line of the event contributes, and otherwise its
    lines are the contributions of the event's lines, in order; each is not
    empty, has nothing left to trim, starts neither with [event:] nor with
    [id:], and is made of code units of the event. *)
Theorem extractEventContent_result event :
  (RagChat.extractEventContent event = None
   ↔ omap RagChat.contentOf (Js.split RagChat.LF event) = [])
  ∧ ∀ result,
      RagChat.extractEventContent event = Some result →
      result ≠ []
      ∧ Js.split RagChat.LF result
        = omap RagChat.contentOf (Js.split RagChat.LF event)
      ∧ Forall (λ line,
                  line ≠ []
                  ∧ Js.trim line = line
                  ∧ Js.startsWith (Js.js "event:") line = false
                  ∧ Js.startsWith (Js.js "id:") line = false
                  ∧ (∀ c, c ∈ line → c ∈ event))
          (Js.split RagChat.LF result).
Proof.
  rewrite extractEventContent_lines.
  assert (Forall (λ line,
                    line ≠ []
                    ∧ Js.trim line = line
                    ∧ Js.startsWith (Js.js "event:") line = false
                    ∧ Js.startsWith (Js.js "id:") line = false
                    ∧ (RagChat.LF ∉ line)
                    ∧ (∀ c, c ∈ line → c ∈ event))
            (omap RagChat.contentOf (Js.split RagChat.LF event))) as Hall.
  { apply Forall_forall. intros content (line & Hline & Hc)%list_elem_of_omap.
    apply contentOf_Some in Hc as (H1 & H2 & H3 & H4 & H5).
    pose proof (proj1 (Forall_forall _ _) (split_within RagChat.LF event)
                  line Hline) as [H6 H7].
    split_and!; try done.
    - intros Hin. apply H6. by apply H5.
    - intros c Hc. by apply H7, H5. }
  destruct (omap RagChat.contentOf (Js.split RagChat.LF event))
    as [|c cl] eqn:Hcl.
  - split; [done|]. intros result [=].
  - split; [done|]. intros result Hr.
    assert (result = Js.join [RagChat.LF] (c :: cl)) as ->
      by (injection Hr as Hr; symmetry; exact Hr).
    clear Hr.
    assert (Js.split RagChat.LF (Js.join [RagChat.LF] (c :: cl)) = c :: cl)
      as Hsplit.
    { apply split_join; [done|]. eapply Forall_impl; [exact Hall|].
      by intros line (_ & _ & _ & _ & H & _). }
    rewrite Hsplit. split_and!; try done.
    + intros Hj. apply join_nil, Forall_cons in Hj as [-> _].
      by apply Forall_cons in Hall as [[? _] _].
    + eapply Forall_impl; [exact Hall|].
      intros line (H1 & H2 & H3 & H4 & _ & H6). done.
Qed.

Lemma data_line_no_LF w0 w1 w2 payload :
  RagChat.padding w0 = true → RagChat.padding w1 = true →
  RagChat.padding w2 = true → RagChat.plain payload = true →
  RagChat.LF ∉ w0 ++ (Js.js "data:" ++ w1 ++ payload) ++ w2.
Proof.
  intros [_ H0]%padding_spec [_ H1]%padding_spec [_ H2]%padding_spec
         (_ & _ & Hp & _)%plain_spec.
  rewrite !not_elem_of_app. split_and!; try done.
  rewrite js_data. unfold RagChat.LF.
  intros Hin. repeat (apply elem_of_cons in Hin as [?|Hin]; [done|]).
  by apply elem_of_nil in Hin.
Qed.

(** X26. An event made of [data:] lines gives back the payloads, one per
    line: for payloads that are not empty, have nothing to trim, hold no
    newline and start neither with [event:] nor with [id:], written each on
    a line of its own after [data:], with any white space before [data:],
    between [data:] and the payload and after the payload, the result is the
    payloads joined by newlines.  The white space is not part of the
    result. *)
Theorem extractEventContent_data_lines lines payloads :
  payloads ≠ [] →
  Forall2 (λ line payload,
             RagChat.plain payload = true
             ∧ ∃ w0 w1 w2,
                 RagChat.padding w0 = true
                 ∧ RagChat.padding w1 = true
                 ∧ RagChat.padding w2 = true
                 ∧ line = w0 ++ (Js.js "data:" ++ w1 ++ payload) ++ w2)
    lines payloads →
  RagChat.extractEventContent (Js.join [RagChat.LF] lines)
  = Some (Js.join [RagChat.LF] payloads).
Proof.
  intros Hne Hall. rewrite extractEventContent_lines.
  assert (Forall (λ line, RagChat.LF ∉ line) lines
          ∧ omap RagChat.contentOf lines = payloads) as [Hlf Hcontent].
  { clear Hne.
    induction Hall as [|line payload lines payloads Hline _ [IH1 IH2]];
      [by split; [apply Forall_nil_2|]|].
    destruct Hline as (Hp & w0 & w1 & w2 & H0 & H1 & H2 & ->).
    split.
    - apply Forall_cons_2; [by apply data_line_no_LF|done].
    - cbn [omap list_omap].
      rewrite (contentOf_data w0 w1 w2 payload); [by rewrite IH2|..];
        try done; by eapply padding_spec. }
  rewrite split_join; [|intros ->; apply Forall2_nil_inv_l in Hall; done|done].
  rewrite Hcontent. by destruct payloads.
Qed.

Lemma extractEventContent_data_lines_witness :
  RagChat.extractEventContent
    (Js.join [RagChat.LF] [Js.js "data: Hello, "; Js.js " data:world"])
  = Some (Js.join [RagChat.LF] [Js.js "Hello,"; Js.js "world"]).
Proof.
  apply extractEventContent_data_lines; [discriminate|].
  constructor.
  - split; [vm_compute; reflexivity|].
    exists [], (Js.js " "), (Js.js " ").
    split_and!; vm_compute; reflexivity.
  - constructor; [|constructor].
    split; [vm_compute; reflexivity|].
    exists (Js.js " "), [], [].
    split_and!; vm_compute; reflexivity.
Defined.

Lemma trimEnd_after b s c :
  last b = Some c → Js.isWhiteSpace c = false →
  Js.trimEnd (b ++ s) = b ++ Js.trimEnd s.
Proof.
  intros Hb Hc. unfold Js.trimEnd. rewrite reverse_app.
  destruct (trimStart_split (reverse s)) as (w & Hs & Hw).
  destruct (Js.trimStart (reverse s)) as [|x r] eqn:Ht.
  - rewrite app_nil_r in Hs. rewrite Hs, trimStart_all by done.
    rewrite (trimStart_head (reverse b) c); [|by rewrite head_reverse|done].
    by rewrite reverse_involutive, app_nil_r.
  - rewrite Hs at 1. rewrite <- app_assoc, trimStart_all by done.
    rewrite (trimStart_head ((x :: r) ++ reverse b) x); [|done|].
    + by rewrite reverse_app, reverse_involutive.
    + apply (trimStart_starts (reverse s)). by rewrite Ht.
Qed.

(** X27. A [data:] line whose payload itself starts with [event:] or [id:]
    gives nothing: the event made of that line alone has no content, whatever
    follows the prefix on the line. *)
Theorem extractEventContent_drops_marked w prefix payload :
  RagChat.padding w = true →
  prefix = Js.js "event:" ∨ prefix = Js.js "id:" →
  RagChat.LF ∉ payload →
  RagChat.extractEventContent (Js.js "data:" ++ w ++ prefix ++ payload) = None.
Proof.
  intros [Hw Hwl]%padding_spec Hprefix Hpayload.
  assert ((RagChat.LF ∉ prefix) ∧ last prefix = Some 58
          ∧ (∃ c, head prefix = Some c ∧ Js.isWhiteSpace c = false)
          ∧ prefix ≠ [])
    as (Hpl & Hlast & (c & Hhead & Hc) & Hne).
  { destruct Hprefix as [-> | ->]; (split_and!; [|done|by eexists|done]);
      unfold RagChat.LF; intros Hin;
      repeat (apply elem_of_cons in Hin as [?|Hin]; [done|]);
      by apply elem_of_nil in Hin. }
  rewrite extractEventContent_lines, split_one.
  2:{ rewrite !not_elem_of_app. split_and!; try done.
      rewrite js_data. unfold RagChat.LF. intros Hin.
      repeat (apply elem_of_cons in Hin as [?|Hin]; [done|]).
      by apply elem_of_nil in Hin. }
  cbn [omap list_omap]. unfold RagChat.contentOf.
  assert (Js.trim (Js.js "data:" ++ w ++ prefix ++ payload)
          = Js.js "data:" ++ w ++ prefix ++ Js.trimEnd payload) as ->.
  { unfold Js.trim.
    rewrite (trimStart_head _ 100) by done.
    replace (Js.js "data:" ++ w ++ prefix ++ payload)
      with ((Js.js "data:" ++ w ++ prefix) ++ payload)
      by by rewrite <- !app_assoc.
    rewrite (trimEnd_after _ _ 58); [by rewrite <- !app_assoc| |done].
    rewrite !last_app, Hlast. done. }
  rewrite startsWith_app. unfold Js.substringFrom.
  change 5%nat with (length (Js.js "data:")). rewrite drop_app_length.
  assert (Js.trim (w ++ prefix ++ Js.trimEnd payload)
          = prefix ++ Js.trimEnd (Js.trimEnd payload)) as ->.
  { unfold Js.trim. rewrite trimStart_all by done.
    rewrite (trimStart_head _ c); [|by destruct prefix|done].
    by apply (trimEnd_after _ _ 58). }
  destruct Hprefix as [-> | ->]; rewrite startsWith_app.
  - by rewrite andb_false_r.
  - by rewrite andb_false_r.
Qed.

Lemma extractEventContent_drops_marked_witness :
  RagChat.extractEventContent (Js.js "data: id: 5 is the key") = None.
Proof.
  apply (extractEventContent_drops_marked (Js.js " ") (Js.js "id:")
           (Js.js " 5 is the key")).
  - vm_compute. reflexivity.
  - right. reflexivity.
  - vm_compute. intros Hin.
    repeat (apply elem_of_cons in Hin as [Hin|Hin]; [discriminate Hin|]).
    by apply elem_of_nil in Hin.
Defined.


(** ** The reading loop *)

Lemma indexOf_eq p s :
  Js.indexOf p s
  = if Js.startsWith p s then Some 0%nat
    else match s with
         | [] => None
         | _ :: rest => S <$> Js.indexOf p rest
         end.
Proof. by destruct s. Qed.

Lemma indexOf_blank_line a b :
  RagChat.LF ∉ a →
  Js.indexOf [RagChat.LF; RagChat.LF] (a ++ [RagChat.LF; RagChat.LF] ++ b)
  = Some (length a).
Proof.
  induction a as [|c a IH]; intros Ha; rewrite indexOf_eq.
  - change ([] ++ [RagChat.LF; RagChat.LF] ++ b)
      with ([RagChat.LF; RagChat.LF] ++ b).
    by rewrite (startsWith_app [RagChat.LF; RagChat.LF] b).
  - apply not_elem_of_cons in Ha as [Hc Ha].
    change ((c :: a) ++ [RagChat.LF; RagChat.LF] ++ b)
      with (c :: (a ++ [RagChat.LF; RagChat.LF] ++ b)).
    unfold Js.startsWith. cbn [length take].
    rewrite bool_decide_false by (intros [= ?]; done).
    by rewrite IH.
Qed.

Lemma data_event_no_LF payload :
  RagChat.plain payload = true → RagChat.LF ∉ Js.js "data:" ++ payload.
Proof.
  intros Hp.
  pose proof (data_line_no_LF [] [] [] payload eq_refl eq_refl eq_refl Hp) as H.
  by rewrite !app_nil_r in H.
Qed.

Lemma extractEventContent_data payload :
  RagChat.plain payload = true →
  RagChat.extractEventContent (Js.js "data:" ++ payload) = Some payload.
Proof.
  intros Hp.
  rewrite extractEventContent_lines, split_one by by apply data_event_no_LF.
  cbn [omap list_omap].
  pose proof (contentOf_data [] [] [] payload eq_refl eq_refl eq_refl Hp) as Hc.
  rewrite !app_nil_r in Hc. cbn [app] in Hc. by rewrite Hc.
Qed.

(** The read that brings one event and its blank line into an empty buffer
    passes the payload on and leaves the buffer empty. *)
Lemma onValue_data cs payload rest :
  RagChat.plain payload = true →
  RagChat.onValue (RagChat.mkReader [] cs)
    ((Js.js "data:" ++ payload ++ [RagChat.LF; RagChat.LF]) ++ rest)
  = RagChat.mkReader rest (cs ++ [RagChat.onMessage payload]).
Proof.
  intros Hp. unfold RagChat.onValue. cbn [RagChat.buffer RagChat.calls app].
  replace ((Js.js "data:" ++ payload ++ [RagChat.LF; RagChat.LF]) ++ rest)
    with ((Js.js "data:" ++ payload) ++ [RagChat.LF; RagChat.LF] ++ rest)
    by by rewrite <- !app_assoc.
  rewrite indexOf_blank_line by by apply data_event_no_LF.
  unfold Js.substringTo, Js.substringFrom.
  rewrite take_app_length, extractEventContent_data by done.
  rewrite <- drop_drop, drop_app_length. done.
Qed.

(** X28. When every read brings one event, a [data:] line with its payload
    and the blank line that ends it, the payloads are passed to [onMessage]
    one by one, in order, and [onComplete] is called after the last. *)
Theorem readLoop_event_by_event payloads :
  Forall (λ payload, RagChat.plain payload = true) payloads →
  RagChat.readLoop
    ((λ payload, Js.js "data:" ++ payload ++ [RagChat.LF; RagChat.LF])
       <$> payloads)
    RagChat.done
  = (RagChat.onMessage <$> payloads) ++ [RagChat.onComplete].
Proof.
  intros Hall. unfold RagChat.readLoop.
  assert (∀ cs,
            foldl RagChat.onValue (RagChat.mkReader [] cs)
              ((λ payload, Js.js "data:" ++ payload ++ [RagChat.LF; RagChat.LF])
                 <$> payloads)
            = RagChat.mkReader [] (cs ++ (RagChat.onMessage <$> payloads)))
    as ->.
  { induction Hall as [|payload payloads Hp _ IH]; intros cs.
    - simpl. by rewrite app_nil_r.
    - cbn [fmap list_fmap foldl].
      rewrite <- (app_nil_r (Js.js "data:" ++ payload ++ _)).
      rewrite onValue_data by done.
      rewrite IH. by rewrite <- app_assoc. }
  done.
Qed.

Lemma readLoop_event_by_event_witness :
  RagChat.readLoop
    [Js.js "data:Hello" ++ [10; 10]; Js.js "data:world" ++ [10; 10]]
    RagChat.done
  = [RagChat.onMessage (Js.js "Hello"); RagChat.onMessage (Js.js "world");
     RagChat.onComplete].
Proof.
  apply (readLoop_event_by_event [Js.js "Hello"; Js.js "world"]).
  repeat constructor.
Defined.

(** What one turn of the loop adds to the calls: nothing, or one message. *)
Lemma onValue_calls r value :
  ∃ out,
    RagChat.calls (RagChat.onValue r value)
    = RagChat.calls r ++ (RagChat.onMessage <$> out)
    ∧ (length out <= 1)%nat
    ∧ Forall (λ m, m ≠ []) out.
Proof.
  assert (∀ event,
            ∃ out,
              RagChat.emit (RagChat.extractEventContent event) (RagChat.calls r)
              = RagChat.calls r ++ (RagChat.onMessage <$> out)
              ∧ (length out <= 1)%nat
              ∧ Forall (λ m, m ≠ []) out) as Hemit.
  { intros event.
    destruct (RagChat.extractEventContent event) as [m|] eqn:He.
    - exists [m]. split_and!; [done|simpl; lia|].
      apply Forall_cons_2; [|apply Forall_nil_2].
      by eapply extractEventContent_nonempty.
    - exists []. split_and!; [by rewrite app_nil_r|simpl; lia|apply Forall_nil_2]. }
  assert (∃ out : list Js.JsString,
            RagChat.calls r = RagChat.calls r ++ (RagChat.onMessage <$> out)
            ∧ (length out <= 1)%nat
            ∧ Forall (λ m, m ≠ []) out) as Hsame.
  { exists []. split_and!; [by rewrite app_nil_r|simpl; lia|apply Forall_nil_2]. }
  unfold RagChat.onValue.
  destruct (Js.indexOf [RagChat.LF; RagChat.LF] _) as [i|]; [apply Hemit|].
  destruct (Js.indexOf [RagChat.LF] _) as [i|]; [|apply Hsame].
  destruct (Js.startsWith _ _); [|apply Hsame].
  cbn [RagChat.calls]. rewrite emit_truthy. apply Hemit.
Qed.

Lemma foldl_onValue_calls values r :
  ∃ out,
    RagChat.calls (foldl RagChat.onValue r values)
    = RagChat.calls r ++ (RagChat.onMessage <$> out)
    ∧ (length out <= length values)%nat
    ∧ Forall (λ m, m ≠ []) out.
Proof.
  revert r. induction values as [|value values IH]; intros r.
  - exists []. split_and!; [by rewrite app_nil_r|done|apply Forall_nil_2].
  - cbn [foldl].
    destruct (IH (RagChat.onValue r value)) as (out2 & H2 & Hl2 & Hn2).
    destruct (onValue_calls r value) as (out1 & H1 & Hl1 & Hn1).
    exists (out1 ++ out2). split_and!.
    + by rewrite H2, H1, fmap_app, app_assoc.
    + rewrite length_app. simpl. lia.
    + by apply Forall_app.
Qed.

Lemma messages_onMessage ms :
  RagChat.messages (RagChat.onMessage <$> ms) = ms.
Proof.
  induction ms as [|m ms IH]; [done|].
  change (m :: RagChat.messages (RagChat.onMessage <$> ms) = m :: ms).
  by rewrite IH.
Qed.

(** What the last turn does, on the end of the stream: at most one more
    message, then [onComplete]. *)
Lemma onDone_calls r out :
  RagChat.calls r = RagChat.onMessage <$> out →
  ∃ last,
    RagChat.onDone r
    = (RagChat.onMessage <$> out ++ last) ++ [RagChat.onComplete]
    ∧ (length last <= 1)%nat
    ∧ Forall (λ m, m ≠ []) last.
Proof.
  intros Hc. unfold RagChat.onDone.
  destruct (Js.truthy (Some (RagChat.buffer r))).
  - rewrite emit_truthy.
    destruct (RagChat.extractEventContent (RagChat.buffer r)) as [m|] eqn:He.
    + exists [m]. split_and!; [by rewrite Hc, fmap_app|simpl; lia|].
      apply Forall_cons_2; [|apply Forall_nil_2].
      by eapply extractEventContent_nonempty.
    + exists []. split_and!;
        [by rewrite app_nil_r, Hc|simpl; lia|apply Forall_nil_2].
  - exists []. split_and!;
      [by rewrite app_nil_r, Hc|simpl; lia|apply Forall_nil_2].
Qed.

Lemma messages_then ms c :
  c = RagChat.onComplete ∨ c = RagChat.onError →
  RagChat.messages ((RagChat.onMessage <$> ms) ++ [c]) = ms.
Proof.
  intros Hc. unfold RagChat.messages. rewrite omap_app.
  fold (RagChat.messages (RagChat.onMessage <$> ms)).
  rewrite messages_onMessage. destruct Hc as [-> | ->]; simpl;
    by rewrite app_nil_r.
Qed.

(** X29. Whatever the reads bring, the loop calls [onMessage] some number
    of times and then, once and last, [onComplete] when the stream ends and
    [onError] when a read is rejected.  No message is empty, and there is at
    most one message for each read that brought text, and one more when the
    stream ends.  A stream that ends on a rejected read passes the messages
    of the same stream ending well, but for the last one at most. *)
Theorem readLoop_calls values ending :
  let result := RagChat.readLoop values ending in
  let ms := RagChat.messages result in
  result
  = (RagChat.onMessage <$> ms)
    ++ [match ending with
        | RagChat.done => RagChat.onComplete
        | RagChat.rejected => RagChat.onError
        end]
  ∧ Forall (λ m, m ≠ []) ms
  ∧ (length ms
     <= length values
        + match ending with RagChat.done => 1 | RagChat.rejected => 0 end)%nat
  ∧ ∃ last,
      (length last <= 1)%nat
      ∧ RagChat.messages (RagChat.readLoop values RagChat.done)
        = RagChat.messages (RagChat.readLoop values RagChat.rejected) ++ last.
Proof.
  intros result ms. subst ms result. unfold RagChat.readLoop.
  destruct (foldl_onValue_calls values (RagChat.mkReader [] []))
    as (out & Hc & Hl & Hn).
  cbn [RagChat.calls app] in Hc.
  set (r := foldl RagChat.onValue (RagChat.mkReader [] []) values) in *.
  destruct (onDone_calls r out Hc) as (last & Hdone & Hll & Hnl).
  rewrite Hdone, Hc.
  assert (RagChat.messages
            ((RagChat.onMessage <$> out ++ last) ++ [RagChat.onComplete])
          = out ++ last) as Hmd by (apply messages_then; by left).
  assert (RagChat.messages ((RagChat.onMessage <$> out) ++ [RagChat.onError])
          = out) as Hmr by (apply messages_then; by right).
  split_and!.
  - destruct ending; cbv iota; [by rewrite Hmd|by rewrite Hmr].
  - destruct ending; cbv iota;
      [rewrite Hmd; by apply Forall_app|by rewrite Hmr].
  - destruct ending; cbv iota;
      [rewrite Hmd, length_app; lia|rewrite Hmr; lia].
  - exists last. by rewrite Hmd, Hmr.
Qed.

(** The lines of a buffer that holds whole events: for each event its
    [data:] line and an empty line, and an empty line at the end. *)
Lemma split_events payloads :
  Forall (λ payload, RagChat.plain payload = true) payloads →
  Js.split RagChat.LF
    (concat ((λ payload, Js.js "data:" ++ payload ++ [RagChat.LF; RagChat.LF])
               <$> payloads))
  = concat ((λ payload, [Js.js "data:" ++ payload; []]) <$> payloads) ++ [[]].
Proof.
  induction 1 as [|payload payloads Hp _ IH]; [done|].
  cbn [fmap list_fmap concat].
  replace ((Js.js "data:" ++ payload ++ [RagChat.LF; RagChat.LF]) ++
           concat ((λ payload, Js.js "data:" ++ payload ++ [RagChat.LF; RagChat.LF])
                     <$> payloads))
    with ((Js.js "data:" ++ payload) ++ RagChat.LF ::
          ([] ++ RagChat.LF ::
           concat ((λ payload, Js.js "data:" ++ payload ++ [RagChat.LF; RagChat.LF])
                     <$> payloads)))
    by (by rewrite <- !app_assoc).
  rewrite split_line by by apply data_event_no_LF.
  rewrite split_line by apply not_elem_of_nil.
  by rewrite IH.
Qed.

(** X30. A read passes on one event at most.  When a single read brings
    several events, each a [data:] line with its payload and its blank line,
    only the first is passed on at that read; the others stay in the buffer
    and, when the stream ends, go to [onMessage] together, as one message
    with the payloads joined by newlines. *)
Theorem readLoop_events_in_one_read first others :
  others ≠ [] →
  Forall (λ payload, RagChat.plain payload = true) (first :: others) →
  RagChat.readLoop
    [concat ((λ payload, Js.js "data:" ++ payload ++ [RagChat.LF; RagChat.LF])
               <$> first :: others)]
    RagChat.done
  = [RagChat.onMessage first;
     RagChat.onMessage (Js.join [RagChat.LF] others);
     RagChat.onComplete].
Proof.
  intros Hne [Hfirst Hothers]%Forall_cons.
  unfold RagChat.readLoop. cbn [foldl fmap list_fmap concat].
  rewrite onValue_data by done.
  unfold RagChat.onDone. cbn [RagChat.buffer RagChat.calls app].
  rewrite emit_truthy.
  assert (RagChat.extractEventContent
            (concat ((λ payload,
                        Js.js "data:" ++ payload ++ [RagChat.LF; RagChat.LF])
                       <$> others))
          = Some (Js.join [RagChat.LF] others)) as ->.
  { rewrite extractEventContent_lines.
    rewrite split_events by done.
    assert (omap RagChat.contentOf
              (concat ((λ payload, [Js.js "data:" ++ payload; []]) <$> others)
               ++ [[]])
            = others) as ->.
    { rewrite omap_app. cbn [omap list_omap]. rewrite contentOf_blank by done.
      rewrite app_nil_r. clear Hne.
      induction Hothers as [|payload others Hp _ IH]; [done|].
      cbn [fmap list_fmap concat app omap list_omap].
      rewrite (contentOf_blank []) by done.
      pose proof (contentOf_data [] [] [] payload eq_refl eq_refl eq_refl Hp)
        as Hc.
      rewrite !app_nil_r in Hc. cbn [app] in Hc. rewrite Hc.
      by rewrite IH. }
    by destruct others. }
  destruct others as [|second others]; [done|].
  assert (Js.truthy
            (Some (concat ((λ payload,
                              Js.js "data:" ++ payload
                              ++ [RagChat.LF; RagChat.LF])
                             <$> second :: others))) = true) as ->
    by done.
  done.
Qed.

Lemma readLoop_events_in_one_read_witness :
  RagChat.readLoop
    [Js.js "data:one" ++ [10; 10] ++ Js.js "data:two" ++ [10; 10]
     ++ Js.js "data:three" ++ [10; 10]]
    RagChat.done
  = [RagChat.onMessage (Js.js "one");
     RagChat.onMessage (Js.js "two" ++ [10] ++ Js.js "three");
     RagChat.onComplete].
Proof.
  apply (readLoop_events_in_one_read (Js.js "one") [Js.js "two"; Js.js "three"]).
  - discriminate.
  - repeat constructor.
Defined.
